(** * Parsegen: grammar analysis and code emission

    A shallow embedding of [parsegen.py]: the grammar file reader
    ([parse_buffer], [_process_header], [_process_expansions]), the
    nullability / FIRST-set engine ([_compute_sets_for_expansions]) and the
    C code emitter ([_write_expansions_to_file]).

    Conventions of the embedding.
    - A Python [str] is a [string]; a character is a code point below 256.
    - [header.terminals] and [header.options] are [gmap string string]:
      only membership and lookup are used on them.
    - The [expansions] dict maps a nonterminal name to a mutable [Symbol]
      object.  It is a [dict]: the keys in insertion order together with a
      [gmap string Symbol] holding the objects.  A [Symbol] reference is the
      key under which the object is stored, so that aliasing
      ([other_sym is symbol]) is the equality of two keys.
    - A [set] of terminal names is a [gset string]; the order in which a
      [for] loop visits it is a parameter of the emitter.
    - A call that returns is [Return], a raised exception is [Raise].  The
      [while] loop of the engine runs on fuel; [OutOfFuel] is the outcome
      of a loop that has not stopped when the fuel is spent, and it is
      proved never to occur.
    - The output file is the sequence of the strings written to it. *)

From stdpp Require Import gmap strings list fin_maps.
From Stdlib Require Import Ascii DecimalString.

Open Scope string_scope.

(** ** Python string primitives *)

Module PyStr.

(** [str.isspace] on one character (code points below 256). *)
Definition is_space (c : ascii) : bool :=
  let n := nat_of_ascii c in
  (((9 <=? n) && (n <=? 13)) || ((28 <=? n) && (n <=? 32))
   || (n =? 133) || (n =? 160))%nat.

Definition is_empty (s : string) : bool :=
  match s with EmptyString => true | String _ _ => false end.

Fixpoint lstrip (s : string) : string :=
  match s with
  | EmptyString => EmptyString
  | String c s' => if is_space c then lstrip s' else s
  end.

Fixpoint rstrip (s : string) : string :=
  match s with
  | EmptyString => EmptyString
  | String c s' =>
      let r := rstrip s' in
      if is_space c && is_empty r then EmptyString else String c r
  end.

(** [s.strip()] *)
Definition strip (s : string) : string := rstrip (lstrip s).

(** [Some rest] when [s = p ++ rest]. *)
Fixpoint drop_prefix (p s : string) : option string :=
  match p, s with
  | EmptyString, _ => Some s
  | String a p', String b s' =>
      if Ascii.eqb a b then drop_prefix p' s' else None
  | String _ _, EmptyString => None
  end.

(** The text before and after the leftmost occurrence of [sep]. *)
Fixpoint find_sep (sep s : string) : option (string * string) :=
  match drop_prefix sep s with
  | Some rest => Some (EmptyString, rest)
  | None =>
      match s with
      | EmptyString => None
      | String c s' =>
          match find_sep sep s' with
          | Some (b, a) => Some (String c b, a)
          | None => None
          end
      end
  end.

(** [s.partition(sep)] *)
Definition partition (sep s : string) : string * string * string :=
  match find_sep sep s with
  | Some (b, a) => (b, sep, a)
  | None => (s, EmptyString, EmptyString)
  end.

Fixpoint split_fuel (n : nat) (sep s : string) : list string :=
  match n with
  | O => [s]
  | S n' =>
      match find_sep sep s with
      | Some (b, a) => b :: split_fuel n' sep a
      | None => [s]
      end
  end.

(** [s.split(sep)] for a non-empty [sep]: every cut removes at least one
    character, so [String.length s] cuts are enough. *)
Definition split (sep s : string) : list string :=
  split_fuel (String.length s) sep s.

(** [s.split()]: the maximal runs of non-space characters. *)
Fixpoint words (s : string) : list string :=
  match s with
  | EmptyString => []
  | String c s' =>
      if is_space c then words s'
      else
        match s' with
        | EmptyString => [String c EmptyString]
        | String c' _ =>
            if is_space c' then String c EmptyString :: words s'
            else
              match words s' with
              | w :: ws => String c w :: ws
              | [] => [String c EmptyString]
              end
        end
  end.

(** [s[:1]] and [s[1:]] *)
Definition take1 (s : string) : string :=
  match s with EmptyString => EmptyString | String c _ => String c EmptyString end.
Definition drop1 (s : string) : string :=
  match s with EmptyString => EmptyString | String _ s' => s' end.

(** [sep.join(l)] *)
Fixpoint join (sep : string) (l : list string) : string :=
  match l with
  | [] => EmptyString
  | [x] => x
  | x :: l' => x ++ sep ++ join sep l'
  end.

(** ["{0}".format(n)] for a non-negative [int]. *)
Definition of_nat (n : nat) : string :=
  NilEmpty.string_of_uint (Nat.to_uint n).

Definition NL : string := String (ascii_of_nat 10) EmptyString.
Definition TAB : string := String (ascii_of_nat 9) EmptyString.

(** [c * n] *)
Fixpoint repeat_str (c : string) (n : nat) : string :=
  match n with O => EmptyString | S n' => c ++ repeat_str c n' end.

(** [s.center(width)]: when the padding and the width are both odd the
    extra blank goes to the left. *)
Definition center (s : string) (width : nat) : string :=
  let marg := (width - String.length s)%nat in
  let left := (marg / 2 + (if Nat.odd marg && Nat.odd width then 1 else 0))%nat in
  repeat_str " " left ++ s ++ repeat_str " " (marg - left).

(** [c in s] for a character [c]. *)
Fixpoint has_char (c : ascii) (s : string) : bool :=
  match s with
  | EmptyString => false
  | String a s' => Ascii.eqb c a || has_char c s'
  end.

End PyStr.

(** ** Outcomes of a call *)

Inductive exn : Type :=
| ParseError_exn (msg : string)
| GrammarError_exn (msg : string)
| KeyError_exn (key : string).

(** A call returns, raises, or is still running when the fuel of the model
    is spent. *)
Inductive result (A : Type) : Type :=
| Return (a : A)
| Raise (e : exn)
| OutOfFuel.
Arguments Return {A} a.
Arguments Raise {A} e.
Arguments OutOfFuel {A}.

Definition result_bind {A B : Type} (f : A -> result B) (r : result A) : result B :=
  match r with
  | Return a => f a
  | Raise e => Raise e
  | OutOfFuel => OutOfFuel
  end.

#[global] Instance result_mbind : MBind result := @result_bind.
#[global] Instance result_mret : MRet result := @Return.

(** [ParsegenError.__init__] *)
Definition ParsegenError (error_name msg : string) : string :=
  "parsegen: " ++ error_name ++ ": " ++ msg.

Definition ParseError (msg : string) : exn :=
  ParseError_exn (ParsegenError "parse error" msg).

Definition GrammarError (msg : string) : exn :=
  GrammarError_exn (ParsegenError "grammar error" msg).

(** ** Data model *)

Record Header : Type := mkHeader {
  terminals : gmap string string;
  options : gmap string string
}.

Definition get_option (h : Header) (option default : string) : string :=
  match options h !! option with Some v => v | None => default end.

Record Symbol : Type := mkSymbol {
  expansions : list (list string);
  nullable : bool;
  first : gset string;
  follow : gset string
}.

(** [Symbol()] *)
Definition Symbol_new : Symbol :=
  {| expansions := []; nullable := false; first := ∅; follow := ∅ |}.

Definition set_nullable (self : Symbol) : Symbol :=
  {| expansions := expansions self; nullable := true;
     first := first self; follow := follow self |}.

Definition add_expansion (self : Symbol) (expansion : list string) : Symbol :=
  let self := {| expansions := expansions self ++ [expansion];
                 nullable := nullable self;
                 first := first self; follow := follow self |} in
  match expansion with
  | [] => set_nullable self
  | _ :: _ => self
  end.

Definition is_nullable (self : Symbol) : bool :=
  if (length (expansions self) =? 0)%nat then true else nullable self.

Definition _union_set_with_values (set_ref values : gset string) : gset string :=
  set_ref ∪ values.

Definition add_first (self : Symbol) (values : gset string) : Symbol :=
  {| expansions := expansions self; nullable := nullable self;
     first := _union_set_with_values (first self) values;
     follow := follow self |}.

Definition add_follow (self : Symbol) (values : gset string) : Symbol :=
  {| expansions := expansions self; nullable := nullable self;
     first := first self;
     follow := _union_set_with_values (follow self) values |}.

(** The [expansions] dict: keys in insertion order, and the objects. *)
Record dict : Type := mkDict {
  keys : list string;
  tbl : gmap string Symbol
}.

Definition dict_empty : dict := {| keys := []; tbl := ∅ |}.

(** [d.get(k)] as an option, and [k in d] *)
Definition dict_get (d : dict) (k : string) : option Symbol := tbl d !! k.
Definition dict_has (d : dict) (k : string) : bool :=
  bool_decide (is_Some (tbl d !! k)).

(** [d[k]] *)
Definition dict_item (d : dict) (k : string) : result Symbol :=
  match tbl d !! k with
  | Some s => Return s
  | None => Raise (KeyError_exn k)
  end.

(** [d[k] = v]: a new key goes to the end of the insertion order. *)
Definition dict_set (d : dict) (k : string) (v : Symbol) : dict :=
  {| keys := if dict_has d k then keys d else keys d ++ [k];
     tbl := <[k := v]> (tbl d) |}.

(** A field assignment on the object stored under [k]. *)
Definition obj_write (d : dict) (k : string) (v : Symbol) : dict :=
  {| keys := keys d; tbl := <[k := v]> (tbl d) |}.

(** [d.items()] *)
Definition dict_items (d : dict) : list (string * Symbol) :=
  omap (fun k => match tbl d !! k with Some s => Some (k, s) | None => None end)
       (keys d).

(** ** Reading the grammar text *)

Definition clean_line (l : string) : string :=
  PyStr.strip (PyStr.partition "#" l).1.1.

Definition _processed_lines (text : string) : list string :=
  filter (fun l => l ≠ EmptyString) (clean_line <$> PyStr.split PyStr.NL text).

Definition _kv_with_sep (opt_line sep : string) : string * string :=
  let '(key, _, val) := PyStr.partition sep opt_line in
  (PyStr.strip key, PyStr.strip val).

Definition _add_opt_to_dict (opt_line : string) (dict : gmap string string)
    (sep : string) : gmap string string :=
  let '(key, val) := _kv_with_sep opt_line sep in
  <[key := val]> dict.

(** The body of the loop of [_process_header], on the pair [(terms, opts)]. *)
Definition _process_header_line (acc : gmap string string * gmap string string)
    (l : string) : gmap string string * gmap string string :=
  if decide (PyStr.take1 l = "%")
  then (acc.1, _add_opt_to_dict (PyStr.drop1 l) acc.2 "=")
  else (_add_opt_to_dict l acc.1 "=", acc.2).

Definition _process_header (header : string) : Header :=
  let acc := foldl _process_header_line (∅, ∅) (_processed_lines header) in
  mkHeader acc.1 acc.2.

(** The body of the loop of [_process_expansions]. *)
Definition _process_expansions_line (exps : dict) (l : string) : dict :=
  let '(sym, exp) := _kv_with_sep l ":=" in
  let s := default Symbol_new (dict_get exps sym) in
  let s := add_expansion s (PyStr.words exp) in
  dict_set exps sym s.

Definition _process_expansions (expansions : string) : dict :=
  foldl _process_expansions_line dict_empty (_processed_lines expansions).

(** ** Set computation engine *)

(** [name in header.terminals] *)
Definition is_terminal (header : Header) (name : string) : bool :=
  bool_decide (is_Some (terminals header !! name)).

(** A loop whose body may raise. *)
Fixpoint foldM {A B : Type} (f : A -> B -> result A) (a : A) (l : list B)
    : result A :=
  match l with
  | [] => Return a
  | x :: l' => a' ← f a x; foldM f a' l'
  end.

(** [for e in exp] of [_initialise_expansions_state]. *)
Fixpoint check_tokens (header : Header) (exps : dict) (exp : list string)
    : result unit :=
  match exp with
  | [] => Return tt
  | e :: exp' =>
      if negb (is_terminal header e || dict_has exps e)
      then Raise (GrammarError
                    (e ++ " is not defined as a terminal or nonterminal"))
      else check_tokens header exps exp'
  end.

(** The body of [for exp in symbol.expansions], where [symbol] is the object
    stored under [name]. *)
Definition init_expansion (header : Header) (name : string) (exps : dict)
    (exp : list string) : result dict :=
  exps ← match exp with
         | e0 :: _ =>
             if is_terminal header e0
             then symbol ← dict_item exps name;
                  Return (obj_write exps name
                            (add_first symbol (list_to_set (take 1 exp))))
             else Return exps
         | [] => Return exps
         end;
  _ ← check_tokens header exps exp;
  Return exps.

(** The body of [for name, symbol in expansions.items()]. *)
Definition init_symbol (header : Header) (exps : dict)
    (item : string * Symbol) : result dict :=
  if is_terminal header item.1
  then Raise (GrammarError ("expansion for nonterminal " ++ item.1))
  else foldM (init_expansion header item.1) exps (expansions item.2).

Definition _initialise_expansions_state (header : Header) (exps : dict)
    : result dict :=
  foldM (init_symbol header) exps (dict_items exps).

(** The triples yielded by [_each_expansion]; the symbol of a triple is the
    object stored under its name.  Neither the keys nor the expansion lists
    change while the generator is consumed. *)
Definition _each_expansion (exps : dict) : list (string * list string) :=
  item ← dict_items exps;
  (fun expansion => (item.1, expansion)) <$> expansions item.2.

(** The [for e in expansion ... else ...] of [_update_first_from_expansion];
    [symbol] is the object stored under [name]. *)
Fixpoint first_scan (header : Header) (name : string) (expansion : list string)
    (exps : dict) (changed : bool) : result (dict * bool) :=
  match expansion with
  | [] =>
      symbol ← dict_item exps name;
      if negb (is_nullable symbol)
      then Return (obj_write exps name (set_nullable symbol), true)
      else Return (exps, changed)
  | e :: rest =>
      if is_terminal header e then Return (exps, changed)
      else
        other_sym ← dict_item exps e;
        symbol ← dict_item exps name;
        let st :=
          if negb (bool_decide (first other_sym ⊆ first symbol))
          then (obj_write exps name (add_first symbol (first other_sym)), true)
          else (exps, changed) in
        other_sym ← dict_item st.1 e;
        if negb (is_nullable other_sym) then Return st
        else first_scan header name rest st.1 st.2
  end.

Definition _update_first_from_expansion (header : Header) (exps : dict)
    (name : string) (expansion : list string) : result (dict * bool) :=
  first_scan header name expansion exps false.

(** Returns the store it was given and [False]. *)
Definition _update_follow_from_expansion (header : Header) (exps : dict)
    (name : string) (expansion : list string) : dict * bool :=
  (exps, false).

(** The body of the [for] of [_compute_sets_for_expansions]. *)
Definition pass_step (header : Header) (acc : dict * bool)
    (item : string * list string) : result (dict * bool) :=
  r ← _update_first_from_expansion header acc.1 item.1 item.2;
  let s := _update_follow_from_expansion header r.1 item.1 item.2 in
  Return (s.1, acc.2 || r.2 || s.2).

(** One turn of the [while]: [changed = False], then the [for]. *)
Definition pass (header : Header) (exps : dict) : result (dict * bool) :=
  foldM (pass_step header) (exps, false) (_each_expansion exps).

(** [while changed: ...], entered with [changed = True].  [fuel] bounds the
    number of turns; a loop that has not stopped by then is [OutOfFuel]. *)
Fixpoint while_changed (fuel : nat) (header : Header) (exps : dict)
    : result dict :=
  match fuel with
  | O => OutOfFuel
  | S fuel' =>
      '(exps, changed) ← pass header exps;
      if (changed : bool) then while_changed fuel' header exps
      else Return exps
  end.

(** The terminals found in some FIRST set of the store. *)
Definition all_first (m : gmap string Symbol) : gset string :=
  map_fold (fun _ s acc => first s ∪ acc) ∅ m.

(** What one symbol can still gain: the terminals of [U] it lacks, and its
    nullable flag. *)
Definition weight (U : gset string) (s : Symbol) : nat :=
  size (U ∖ first s) + (if nullable s then 0 else 1).

Definition height (U : gset string) (m : gmap string Symbol) : nat :=
  map_fold (fun _ s acc => weight U s + acc) 0 m.

(** More turns than the [while] can take from this store: every turn but
    the last adds a terminal to a FIRST set or raises a nullable flag
    (lemma [while_changed_terminates]). *)
Definition passes_bound (exps : dict) : nat :=
  S (height (all_first (tbl exps)) (tbl exps)).

Definition _compute_sets_for_expansions (header : Header) (exps : dict)
    : result dict :=
  exps ← _initialise_expansions_state header exps;
  while_changed (passes_bound exps) header exps.

Definition parse_buffer (buffer : string) : result (Header * dict * string) :=
  let sects := PyStr.split "%%" buffer in
  match sects with
  | [header; exps; user_code] =>
      let header := _process_header header in
      let exps := _process_expansions exps in
      exps ← _compute_sets_for_expansions header exps;
      Return (header, exps, user_code)
  | _ =>
      Raise (ParseError ("expected 3 sections but found "
                         ++ PyStr.of_nat (length sects)))
  end.

(** ** Code emitter *)

(** The output file is the sequence of the strings passed to [file.write]. *)
Definition write (file : list string) (s : string) : list string :=
  (file ++ [s])%list.

Section Emitter.

Import PyStr.

(** The order in which a [for] loop visits the elements of a [set]. *)
Variable set_iter : gset string -> list string.

Definition _write_section_header (heading : string) (file : list string)
    : list string :=
  let file := write file (NL ++ "/" ++ repeat_str "*" 77 ++ NL) in
  let file := write file (" * " ++ center heading 73 ++ " *" ++ NL) in
  write file (" " ++ repeat_str "*" 77 ++ "/" ++ NL).

Definition _prefixed_default (header : Header) (default : option string)
    : string :=
  let prefix := get_option header "prefix" "yy" in
  match default with
  | Some d => if is_empty d then prefix else prefix ++ "_" ++ d
  | None => prefix
  end.

(** The inner loop of [_get_counts] and its outer loop. *)
Definition count_nodes (header : Header) (expansion : list string) : nat :=
  foldl (fun n e => if negb (is_terminal header e) then S n else n)
        0 expansion.

Definition _get_counts (header : Header) (symbol : Symbol) : nat :=
  foldl (fun node_count expansion =>
           let n := count_nodes header expansion in
           if (node_count <? n)%nat then n else node_count)
        0 (expansions symbol).

Definition _write_symbol_function_begin (header : Header) (name : string)
    (symbol : Symbol) (file : list string) : list string :=
  let node_count := _get_counts header symbol in
  let p := _prefixed_default header None in
  let tt := get_option header "token_type"
              (_prefixed_default header (Some "token_t")) in
  write file
    (NL ++ "static " ++ p ++ "_node_t* " ++ name ++ "(void)" ++ NL
     ++ "{" ++ NL
     ++ TAB ++ p ++ "_node_t* nodes[" ++ of_nat node_count ++ "];" ++ NL
     ++ TAB ++ tt ++ " token = " ++ p ++ "_peek_next_token();" ++ NL
     ++ TAB ++ NL
     ++ TAB ++ "switch (token) {" ++ NL).

(** [header.terminals[term]] *)
Definition terminal_item (header : Header) (term : string) : result string :=
  match terminals header !! term with
  | Some v => Return v
  | None => Raise (KeyError_exn term)
  end.

Definition case_label (v : string) : string :=
  TAB ++ "case " ++ v ++ ":" ++ NL.

(** [for term in terms: file.write(...)] *)
Definition write_cases (header : Header) (terms : list string)
    (file : list string) : result (list string) :=
  foldM (fun file term =>
           v ← terminal_item header term;
           Return (write file (case_label v)))
        file terms.

Definition eat_step (v : string) : string :=
  TAB ++ TAB ++ "if (!eat_terminal(" ++ v ++ "))" ++ NL
  ++ TAB ++ TAB ++ TAB ++ "goto error;" ++ NL.

Definition call_step (node_temp sym : string) : string :=
  TAB ++ TAB ++ node_temp ++ " = " ++ sym ++ "();" ++ NL.

(** [for sym in expansion], on the triple [(file, params, node)]. *)
Definition write_token (header : Header)
    (st : list string * list string * nat) (sym : string)
    : list string * list string * nat :=
  let '(file, params, node) := st in
  match terminals header !! sym with
  | Some v => (write file (eat_step v), (params ++ [v])%list, node)
  | None =>
      let node_temp := "nodes[" ++ of_nat node ++ "]" in
      (write file (call_step node_temp sym), (params ++ [node_temp])%list,
       S node)
  end.

Definition action_call (name : string) (params : list string) : string :=
  TAB ++ TAB ++ "token_action_" ++ name ++ "(" ++ join ", " params ++ ");"
  ++ NL.

Definition break_step : string := TAB ++ TAB ++ "break;" ++ NL ++ NL.

Definition _write_body_for_expansion (header : Header) (exps : dict)
    (name : string) (expansion : list string) (file : list string)
    : result (list string) :=
  match expansion with
  | [] => Return file
  | e0 :: _ =>
      terms ← (if is_terminal header e0 then Return [e0]
               else symbol ← dict_item exps e0;
                    Return (set_iter (first symbol)));
      file ← write_cases header terms file;
      let '(file, params, _) :=
        foldl (write_token header) (file, [], 0%nat) expansion in
      let file := write file (action_call name params) in
      Return (write file break_step)
  end.

Definition _write_symbol_function_end (header : Header) (file : list string)
    : list string :=
  write file (TAB ++ "}" ++ NL ++ "}" ++ NL).

(** The body of [for name, symbol in expansions.items()]. *)
Definition write_symbol (header : Header) (exps : dict) (file : list string)
    (item : string * Symbol) : result (list string) :=
  let file := _write_symbol_function_begin header item.1 item.2 file in
  file ← foldM (fun file expansion =>
                  _write_body_for_expansion header exps item.1 expansion file)
               file (expansions item.2);
  Return (_write_symbol_function_end header file).

Definition _write_expansions_to_file (header : Header) (exps : dict)
    (file : list string) : result (list string) :=
  let file := _write_section_header "main automaton" file in
  foldM (write_symbol header exps) file (dict_items exps).

End Emitter.

(** ** The rest of the emitter: [write_grammar] *)

Definition _write_header_to_file (header : Header) (file : list string)
    : list string :=
  let file := _write_section_header "global includes" file in
  write file
    (PyStr.NL ++ "#include <stdio.h>" ++ PyStr.NL
     ++ "#include <stdlib.h>" ++ PyStr.NL
     ++ "#include " ++ get_option header "lexer_include" "<lexer.h>"
     ++ PyStr.NL ++ PyStr.TAB).

Definition _write_helpers_to_file (header : Header) (file : list string)
    : list string :=
  let file := _write_section_header "utility methods" file in
  let tt := get_option header "token_type"
              (_prefixed_default header (Some "token_t")) in
  let p := _prefixed_default header None in
  let lex := get_option header "lexer_function"
               (_prefixed_default header (Some "get_next_token")) in
  let NL := PyStr.NL in
  let TAB := PyStr.TAB in
  write file
    (NL ++ NL
     ++ "static " ++ tt ++ " next_token;" ++ NL
     ++ "static int token_buffered = 0;" ++ NL
     ++ NL
     ++ tt ++ " " ++ p ++ "_peek_next_token(void)" ++ NL
     ++ "{" ++ NL
     ++ TAB ++ NL
     ++ TAB ++ "if (!token_buffered) {" ++ NL
     ++ TAB ++ TAB ++ "next_token = " ++ lex ++ ";" ++ NL
     ++ TAB ++ TAB ++ "token_buffered = 1;" ++ NL
     ++ TAB ++ "}" ++ NL
     ++ TAB ++ NL
     ++ TAB ++ "return next_token;" ++ NL
     ++ "}" ++ NL
     ++ NL
     ++ "int " ++ p ++ "_eat_token(" ++ tt ++ " expected_token)" ++ NL
     ++ "{" ++ NL
     ++ TAB ++ tt ++ " token = " ++ p ++ "_peek_next_token();" ++ NL
     ++ TAB ++ NL
     ++ TAB ++ "if (token == expected_token) {" ++ NL
     ++ TAB ++ TAB ++ "token_buffered = 0;" ++ NL
     ++ TAB ++ TAB ++ "return 1;" ++ NL
     ++ TAB ++ "}" ++ NL
     ++ TAB ++ NL
     ++ TAB ++ "return 0;" ++ NL
     ++ "}" ++ NL
     ++ TAB).

Definition _write_user_code_to_file (code_block : string)
    (file : list string) : list string :=
  let file := _write_section_header "user code" file in
  write file code_block.

Definition write_grammar (set_iter : gset string -> list string)
    (header : Header) (exps : dict) (user_code : string)
    (file : list string) : result (list string) :=
  let file := _write_header_to_file header file in
  let file := _write_helpers_to_file header file in
  file ← _write_expansions_to_file set_iter header exps file;
  Return (_write_user_code_to_file user_code file).

(** The key and the value a processed header line stores, and the name
    and the tokens a processed rule line adds. *)
Definition header_val (l : string) : string :=
  if decide (PyStr.take1 l = "%")
  then (_kv_with_sep (PyStr.drop1 l) "=").2
  else (_kv_with_sep l "=").2.

Definition rule_key (l : string) : string := (_kv_with_sep l ":=").1.

Definition rule_tokens (l : string) : list string :=
  PyStr.words (_kv_with_sep l ":=").2.

(** ** The grammar a header and a symbol table stand for

    These definitions follow the specification, not the code: the
    productions of the grammar, derivations over sentential forms, and the
    FIRST relation "the terminal [t] can appear as the first token of some
    derivation of [name]". *)

Definition production (exps : dict) (name : string) (exp : list string) : Prop :=
  ∃ symbol, (name, symbol) ∈ dict_items exps ∧ exp ∈ expansions symbol.

Inductive derives (exps : dict) : list string -> list string -> Prop :=
| derives_refl w : derives exps w w
| derives_step u name exp v w :
    production exps name exp ->
    derives exps (u ++ exp ++ v) w ->
    derives exps (u ++ name :: v) w.

Definition spec_first (header : Header) (exps : dict) (name t : string) : Prop :=
  is_terminal header t = true ∧ ∃ w, derives exps [name] (t :: w).

(** ** Orders and invariants on the store *)

(** What an analysis run may do to a symbol: the expansions and the FOLLOW
    set stay, the FIRST set grows, the nullable flag is only ever raised. *)
Record sym_le (s s' : Symbol) : Prop := {
  le_expansions : expansions s = expansions s';
  le_nullable : nullable s = true -> nullable s' = true;
  le_first : first s ⊆ first s';
  le_follow : follow s = follow s'
}.

(** The same, store-wide: same keys, same objects, each one grown. *)
Record dict_le (d d' : dict) : Prop := {
  le_keys : keys d = keys d';
  le_some : ∀ k s, tbl d !! k = Some s ->
                   ∃ s', tbl d' !! k = Some s' ∧ sym_le s s';
  le_none : ∀ k, tbl d !! k = None -> tbl d' !! k = None
}.

(** Every FIRST set of the store lies within [U]. *)
Definition bounded (U : gset string) (m : gmap string Symbol) : Prop :=
  ∀ k s, m !! k = Some s -> first s ⊆ U.

(** Every token of [exp] is a terminal or a key of the store. *)
Definition tokens_defined (header : Header) (exps : dict) (exp : list string)
    : Prop :=
  ∀ e, e ∈ exp -> is_terminal header e = true ∨ dict_has exps e = true.

(** What [_initialise_expansions_state] checks. *)
Definition no_collision (header : Header) (exps : dict) : Prop :=
  ∀ name symbol, (name, symbol) ∈ dict_items exps ->
                 is_terminal header name = false.

Definition all_defined (header : Header) (exps : dict) : Prop :=
  ∀ name symbol exp, (name, symbol) ∈ dict_items exps ->
                     exp ∈ expansions symbol ->
                     tokens_defined header exps exp.

(** An item of the [for] of [_compute_sets_for_expansions] that cannot
    raise: its symbol is in the store and its tokens are defined. *)
Definition ready (header : Header) (exps : dict)
    (item : string * list string) : Prop :=
  is_Some (tbl exps !! item.1) ∧ tokens_defined header exps item.2.

(** The expansion of an item belongs to the symbol stored under its name. *)
Definition owns (exps : dict) (item : string * list string) : Prop :=
  ∃ symbol, tbl exps !! item.1 = Some symbol ∧ item.2 ∈ expansions symbol.

(** Every token of [exp] is a nonterminal that reports nullable. *)
Definition all_nullable (header : Header) (exps : dict) (exp : list string)
    : Prop :=
  ∀ e, e ∈ exp ->
       is_terminal header e = false ∧
       ∃ s, tbl exps !! e = Some s ∧ is_nullable s = true.

(** A raised nullable flag is justified by an expansion of nullable
    nonterminals. *)
Definition null_sound (header : Header) (exps : dict) : Prop :=
  ∀ k s, tbl exps !! k = Some s -> nullable s = true ->
         ∃ exp, exp ∈ expansions s ∧ all_nullable header exps exp.

(** The symbols [_process_expansions] builds: at least one expansion, the
    nullable flag raised exactly for an empty expansion, empty sets, and
    tokens without white space. *)
Definition spaceless (w : string) : Prop :=
  ∀ c, PyStr.is_space c = true -> PyStr.has_char c w = false.

Record fresh_sym (s : Symbol) : Prop := {
  fresh_expansions : expansions s ≠ [];
  fresh_nullable : nullable s = true <-> [] ∈ expansions s;
  fresh_first : first s = ∅;
  fresh_follow : follow s = ∅;
  fresh_tokens : ∀ exp e, exp ∈ expansions s -> e ∈ exp -> spaceless e
}.

Definition fresh (exps : dict) : Prop :=
  ∀ k s, tbl exps !! k = Some s -> fresh_sym s.

Definition undefined_msg (e : string) : string :=
  ParsegenError "grammar error"
    (e ++ " is not defined as a terminal or nonterminal").

Definition collision_msg (name : string) : string :=
  ParsegenError "grammar error" ("expansion for nonterminal " ++ name).

(** The two violations a grammar error reports: a name with a production
    that is also a terminal name, and a token of some expansion that is
    neither a terminal name nor a name with a production. *)
Definition name_collides (header : Header) (exps : dict) (name : string)
    : Prop :=
  ∃ symbol, (name, symbol) ∈ dict_items exps ∧ is_terminal header name = true.

Definition token_undefined (header : Header) (exps : dict) (tok : string)
    : Prop :=
  ∃ name symbol exp,
    (name, symbol) ∈ dict_items exps ∧ exp ∈ expansions symbol ∧ tok ∈ exp ∧
    is_terminal header tok = false ∧ dict_has exps tok = false.

(** The key under which a processed header line is stored. *)
Definition header_key (l : string) : string :=
  if decide (PyStr.take1 l = "%")
  then (_kv_with_sep (PyStr.drop1 l) "=").1
  else (_kv_with_sep l "=").1.

(** The keys of a dict are the names it holds an object for. *)
Definition dict_wf (d : dict) : Prop :=
  ∀ k, k ∈ keys d <-> is_Some (tbl d !! k).

(** A symbol without its empty expansions, and a store of such symbols. *)
Definition drop_epsilon (s : Symbol) : Symbol :=
  {| expansions := filter (fun e => e ≠ []) (expansions s);
     nullable := nullable s; first := first s; follow := follow s |}.

Definition dict_drop_epsilon (d : dict) : dict :=
  {| keys := keys d; tbl := drop_epsilon <$> tbl d |}.

(** Header text of [test_parse_buffer], with an option without a value. *)
Definition header_text_permissive : string :=
  "TOKEN = Tok_TOKEN" ++ PyStr.NL ++ "FUZZBAZ" ++ PyStr.NL
  ++ "%language = c" ++ PyStr.NL ++ "%debug # no value" ++ PyStr.NL.

(** The nullable flags and the FIRST sets of the store say nothing the
    grammar does not: a flagged symbol derives the empty sequence, and a
    member of a FIRST set begins a derivation of the symbol. *)
Record sets_sound (header : Header) (exps : dict) : Prop := {
  sound_wf : dict_wf exps;
  sound_nonempty : ∀ k s, tbl exps !! k = Some s -> expansions s ≠ [];
  sound_nullable : ∀ k s, tbl exps !! k = Some s -> nullable s = true ->
                          derives exps [k] [];
  sound_first : ∀ k s t, tbl exps !! k = Some s -> t ∈ first s ->
                         spec_first header exps k t
}.

(** A grammar with a terminal after a nullable nonterminal:
    [A := B x], [B := ] and the terminal [x]. *)
Definition nullable_prefix_example : string :=
  "x" ++ PyStr.NL ++ "%%" ++ PyStr.NL
  ++ "A := B x" ++ PyStr.NL ++ "B :=" ++ PyStr.NL ++ "%%" ++ PyStr.NL.

(** Monotone accumulation on one symbol: no expansion is removed, the
    nullable flag is not lowered, the FIRST and FOLLOW sets do not shrink. *)
Record accumulates (s s' : Symbol) : Prop := {
  acc_expansions : ∃ l, expansions s' = (expansions s ++ l)%list;
  acc_nullable : nullable s = true -> nullable s' = true;
  acc_first : first s ⊆ first s';
  acc_follow : follow s ⊆ follow s'
}.

(** Example grammar: the one of [test_expansion_creation]. *)
Definition header_text_example : string :=
  "%language = c" ++ PyStr.NL ++ "FOO = Tok_FOO" ++ PyStr.NL
  ++ "BAZ = Tok_BAZ" ++ PyStr.NL ++ "BAR = Tok_BAR" ++ PyStr.NL.

Definition rules_text_example : string :=
  PyStr.NL ++ "main := baz bar_prime BAZ" ++ PyStr.NL
  ++ "bar  := FOO BAR" ++ PyStr.NL
  ++ "bar_prime := bar bar_prime" ++ PyStr.NL ++ "bar_prime := " ++ PyStr.NL
  ++ "baz := bar_prime" ++ PyStr.NL ++ "baz := BAZ" ++ PyStr.NL.

Definition header_example : Header := _process_header header_text_example.

Definition rules_example : dict := _process_expansions rules_text_example.

Definition grammar_example : string :=
  header_text_example ++ "%%" ++ rules_text_example ++ "%%"
  ++ PyStr.NL ++ "// this is a comment".

(** * Properties *)

(** ** Outcomes *)

Lemma bind_Return {A B : Type} (f : A -> result B) (r : result A) (b : B) :
  r ≫= f = Return b -> ∃ a, r = Return a ∧ f a = Return b.
Proof. destruct r as [a| |]; simpl; [eauto | discriminate..]. Qed.

Lemma dict_item_Return (d : dict) (k : string) (s : Symbol) :
  dict_item d k = Return s <-> tbl d !! k = Some s.
Proof.
  unfold dict_item. destruct (tbl d !! k); split; intros H; congruence.
Qed.

Lemma dict_item_Some (d : dict) (k : string) (s : Symbol) :
  tbl d !! k = Some s -> dict_item d k = Return s.
Proof. apply dict_item_Return. Qed.

Lemma dict_has_true (d : dict) (k : string) :
  dict_has d k = true <-> is_Some (tbl d !! k).
Proof. unfold dict_has. apply bool_decide_eq_true. Qed.

Lemma is_terminal_true (h : Header) (k : string) :
  is_terminal h k = true <-> is_Some (terminals h !! k).
Proof. unfold is_terminal. apply bool_decide_eq_true. Qed.

(** ** The store order *)

Lemma sym_le_refl (s : Symbol) : sym_le s s.
Proof. by split. Qed.

Lemma sym_le_trans (s1 s2 s3 : Symbol) :
  sym_le s1 s2 -> sym_le s2 s3 -> sym_le s1 s3.
Proof.
  intros [E1 N1 F1 W1] [E2 N2 F2 W2]. split.
  - by rewrite E1.
  - auto.
  - by transitivity (first s2).
  - by rewrite W1.
Qed.

Lemma dict_le_refl (d : dict) : dict_le d d.
Proof. split; [done| |done]. intros k s Hk. eauto using sym_le_refl. Qed.

Lemma dict_le_trans (d1 d2 d3 : dict) :
  dict_le d1 d2 -> dict_le d2 d3 -> dict_le d1 d3.
Proof.
  intros [K1 S1 N1] [K2 S2 N2]. split; [congruence| |auto].
  intros k s Hk. destruct (S1 _ _ Hk) as (s2 & Hk2 & Hle).
  destruct (S2 _ _ Hk2) as (s3 & Hk3 & Hle'). eauto using sym_le_trans.
Qed.

Lemma obj_write_le (d : dict) (k : string) (s s' : Symbol) :
  tbl d !! k = Some s -> sym_le s s' -> dict_le d (obj_write d k s').
Proof.
  intros Hk Hle. split; simpl; [done| |].
  - intros j t Hj. destruct (decide (k = j)) as [->|Hne].
    + rewrite lookup_insert_eq. exists s'. split; [done|congruence].
    + rewrite lookup_insert_ne by done. eauto using sym_le_refl.
  - intros j Hj. rewrite lookup_insert_ne; [done|congruence].
Qed.

Lemma sym_le_is_nullable (s s' : Symbol) :
  sym_le s s' -> is_nullable s = true -> is_nullable s' = true.
Proof.
  intros [E N _ _]. unfold is_nullable. rewrite <- E.
  destruct (length (expansions s) =? 0)%nat; auto.
Qed.

Lemma dict_le_has (d d' : dict) (k : string) :
  dict_le d d' -> dict_has d' k = dict_has d k.
Proof.
  intros [_ S N]. unfold dict_has.
  destruct (tbl d !! k) as [s|] eqn:Hk.
  - destruct (S _ _ Hk) as (s' & -> & _). done.
  - by rewrite (N _ Hk).
Qed.

Lemma dict_le_items (d d' : dict) (name : string) (s' : Symbol) :
  dict_le d d' -> (name, s') ∈ dict_items d' ->
  ∃ s, (name, s) ∈ dict_items d ∧ sym_le s s'.
Proof.
  intros [K S N]. unfold dict_items. rewrite <- K.
  intros (k & Hin & Hk)%list_elem_of_omap.
  destruct (tbl d' !! k) as [t'|] eqn:Hk'; [|done].
  injection Hk as -> ->.
  destruct (tbl d !! name) as [t|] eqn:Ht.
  - destruct (S _ _ Ht) as (t2 & Ht2 & Hle). exists t. split.
    + apply list_elem_of_omap. exists name. by rewrite Ht.
    + congruence.
  - rewrite (N _ Ht) in Hk'. done.
Qed.

Lemma dict_le_items_fwd (d d' : dict) (name : string) (s : Symbol) :
  dict_le d d' -> (name, s) ∈ dict_items d ->
  ∃ s', (name, s') ∈ dict_items d' ∧ sym_le s s'.
Proof.
  intros [K S N]. unfold dict_items. rewrite <- K.
  intros (k & Hin & Hk)%list_elem_of_omap.
  destruct (tbl d !! k) as [t|] eqn:Ht; [|done].
  injection Hk as -> ->.
  destruct (S _ _ Ht) as (t2 & Ht2 & Hle). exists t2. split; [|done].
  apply list_elem_of_omap. exists name. by rewrite Ht2.
Qed.

Lemma dict_items_lookup (d : dict) (name : string) (s : Symbol) :
  (name, s) ∈ dict_items d -> tbl d !! name = Some s.
Proof.
  unfold dict_items. rewrite list_elem_of_omap. intros (k & _ & Hk).
  destruct (tbl d !! k) eqn:E; [|done]. congruence.
Qed.

Lemma each_expansion_le (d d' : dict) :
  dict_le d d' -> _each_expansion d' = _each_expansion d.
Proof.
  intros [K S N]. unfold _each_expansion, dict_items. rewrite <- K. clear K.
  induction (keys d) as [|k l IH]; simpl; [done|].
  destruct (tbl d !! k) as [s|] eqn:Hk.
  - destruct (S _ _ Hk) as (s' & -> & [E _ _ _]). simpl.
    rewrite E. f_equal. apply IH.
  - rewrite (N _ Hk). apply IH.
Qed.

(** ** The measure of the fixpoint loop *)

Lemma height_delete (U : gset string) (m : gmap string Symbol) k s :
  m !! k = Some s -> height U m = weight U s + height U (delete k m).
Proof.
  intros Hk. unfold height.
  apply (map_fold_delete_L (fun _ s acc => weight U s + acc)); [|done].
  intros; lia.
Qed.

Lemma height_insert (U : gset string) (m : gmap string Symbol) k s s' :
  m !! k = Some s ->
  height U (<[k:=s']> m) + weight U s = height U m + weight U s'.
Proof.
  intros Hk. rewrite (height_delete U m k s Hk).
  rewrite <- (insert_delete_eq m). unfold height at 1.
  rewrite map_fold_insert_L; [fold (height U (delete k m)); lia | intros; lia |].
  apply lookup_delete_eq.
Qed.

Lemma all_first_bounded (m : gmap string Symbol) : bounded (all_first m) m.
Proof.
  unfold all_first.
  apply (map_fold_weak_ind (fun U m => bounded U m)).
  - intros k s. by rewrite lookup_empty.
  - intros i x m' r Hi IH k s. rewrite lookup_insert.
    case_decide as E.
    + intros [= ->]. set_solver.
    + intros Hk. specialize (IH _ _ Hk). set_solver.
Qed.

Lemma bounded_insert (U : gset string) (m : gmap string Symbol) k s :
  bounded U m -> first s ⊆ U -> bounded U (<[k:=s]> m).
Proof.
  intros Hb Hs j t. rewrite lookup_insert. case_decide.
  - by intros [= <-].
  - apply Hb.
Qed.

Lemma weight_add_first (U : gset string) (s : Symbol) (X : gset string) :
  X ⊆ U -> ¬ X ⊆ first s -> weight U (add_first s X) < weight U s.
Proof.
  intros HX Hn. unfold weight, add_first, _union_set_with_values. simpl.
  apply Nat.add_lt_mono_r. apply subset_size.
  destruct (set_choose_or_empty (X ∖ first s)) as [[x Hx]|He].
  - split; [set_solver|]. intros Hsub.
    assert (x ∈ U ∖ first s) as Hx' by set_solver.
    apply Hsub in Hx'. set_solver.
  - exfalso. apply Hn. set_solver.
Qed.

Lemma weight_set_nullable (U : gset string) (s : Symbol) :
  nullable s = false -> weight U (set_nullable s) < weight U s.
Proof. intros Hn. unfold weight, set_nullable. simpl. rewrite Hn. lia. Qed.

Lemma is_nullable_false (s : Symbol) :
  is_nullable s = false -> nullable s = false ∧ expansions s ≠ [].
Proof.
  unfold is_nullable. destruct (expansions s); simpl; [done|]. by intros ->.
Qed.

Lemma sym_le_add_first (s : Symbol) (X : gset string) : sym_le s (add_first s X).
Proof.
  split; simpl; [done|auto| |done]. unfold _union_set_with_values. set_solver.
Qed.

Lemma sym_le_set_nullable (s : Symbol) : sym_le s (set_nullable s).
Proof. by split. Qed.

(** ** One scan of an expansion *)

(** A scan returns the store it was given and the flag it was given, or a
    strictly lower store and [True]. *)
Lemma first_scan_spec (h : Header) (name : string) (U : gset string)
    (exp : list string) :
  ∀ (d : dict) (ch : bool) (d' : dict) (ch' : bool),
    bounded U (tbl d) ->
    first_scan h name exp d ch = Return (d', ch') ->
    dict_le d d' ∧ bounded U (tbl d') ∧
    ((ch' = ch ∧ d' = d) ∨
     (ch' = true ∧ height U (tbl d') < height U (tbl d))).
Proof.
  induction exp as [|e rest IH]; intros d ch d' ch' Hb H; simpl in H.
  - apply bind_Return in H as (symbol & Hs & H).
    apply dict_item_Return in Hs.
    destruct (is_nullable symbol) eqn:Hn; simpl in H; injection H as <- <-.
    + split; [apply dict_le_refl|]. split; [done|]. by left.
    + apply is_nullable_false in Hn as [Hn _].
      split; [eapply obj_write_le; eauto using sym_le_set_nullable|].
      split; [apply bounded_insert; [done|apply (Hb _ _ Hs)]|].
      right. split; [done|]. simpl.
      pose proof (height_insert U (tbl d) name symbol (set_nullable symbol) Hs).
      pose proof (weight_set_nullable U symbol Hn). lia.
  - destruct (is_terminal h e).
    { injection H as <- <-. split; [apply dict_le_refl|]. split; [done|]. by left. }
    apply bind_Return in H as (other & Ho & H).
    apply bind_Return in H as (symbol & Hs & H).
    apply bind_Return in H as (other' & Ho' & H).
    apply dict_item_Return in Ho, Hs.
    destruct (bool_decide (first other ⊆ first symbol)) eqn:Hsub; simpl in *.
    + destruct (is_nullable other').
      * simpl in H. by apply IH.
      * simpl in H. injection H as <- <-.
        split; [apply dict_le_refl|]. split; [done|]. by left.
    + apply bool_decide_eq_false in Hsub.
      set (d1 := obj_write d name (add_first symbol (first other))) in *.
      assert (dict_le d d1) as Hle
        by (eapply obj_write_le; eauto using sym_le_add_first).
      assert (bounded U (tbl d1)) as Hb1.
      { apply bounded_insert; [done|]. simpl. unfold _union_set_with_values.
        pose proof (Hb _ _ Hs). pose proof (Hb _ _ Ho). set_solver. }
      assert (height U (tbl d1) < height U (tbl d)) as Hlt.
      { pose proof (height_insert U (tbl d) name symbol
                      (add_first symbol (first other)) Hs).
        pose proof (weight_add_first U symbol (first other) (Hb _ _ Ho) Hsub).
        simpl. lia. }
      destruct (is_nullable other').
      * simpl in H. apply IH in H as (Hle' & Hb' & Hc); [|done].
        split; [eauto using dict_le_trans|]. split; [done|]. right.
        destruct Hc as [[-> ->]|[-> Hlt']]; split; try done. lia.
      * simpl in H. injection H as <- <-. split; [done|]. split; [done|].
        right. by split.
Qed.

(** ** One pass of the fixpoint loop *)

Lemma pass_fold_spec (h : Header) (U : gset string)
    (l : list (string * list string)) :
  ∀ (d : dict) (ch : bool) (d' : dict) (ch' : bool),
    bounded U (tbl d) ->
    foldM (pass_step h) (d, ch) l = Return (d', ch') ->
    dict_le d d' ∧ bounded U (tbl d') ∧
    ((ch' = ch ∧ d' = d) ∨
     (ch' = true ∧ height U (tbl d') < height U (tbl d))).
Proof.
  induction l as [|[name exp] l IH]; intros d ch d' ch' Hb H; simpl in H.
  - injection H as <- <-. split; [apply dict_le_refl|]. split; [done|]. by left.
  - apply bind_Return in H as ([d1 ch1] & Hstep & H).
    unfold pass_step, _update_first_from_expansion in Hstep. simpl in Hstep.
    apply bind_Return in Hstep as ([d2 r] & Hscan & Hstep).
    simpl in Hstep. injection Hstep as <- <-.
    apply (first_scan_spec h name U) in Hscan as (Hle & Hb2 & Hc); [|done].
    apply IH in H as (Hle' & Hb' & Hc'); [|done].
    split; [eauto using dict_le_trans|]. split; [done|].
    destruct Hc as [[-> ->]|[-> Hlt]].
    + rewrite !orb_false_r in Hc'. done.
    + right. rewrite orb_true_r, orb_true_l in Hc'.
      destruct Hc' as [[-> ->]|[-> Hlt']]; split; try done. lia.
Qed.

(** A pass that reports no change left the store as it was; a pass that
    reports a change lowered the measure. *)
Lemma pass_spec (h : Header) (U : gset string) (d d' : dict) (ch' : bool) :
  bounded U (tbl d) ->
  pass h d = Return (d', ch') ->
  dict_le d d' ∧ bounded U (tbl d') ∧
  ((ch' = false ∧ d' = d) ∨
   (ch' = true ∧ height U (tbl d') < height U (tbl d))).
Proof. intros Hb H. by apply (pass_fold_spec h U) in H. Qed.

Lemma ready_le (h : Header) (d d' : dict) (item : string * list string) :
  dict_le d d' -> ready h d item -> ready h d' item.
Proof.
  intros Hle [Hs Ht]. split.
  - apply dict_has_true. rewrite (dict_le_has d d') by done.
    by apply dict_has_true.
  - intros e He. rewrite (dict_le_has d d') by done. by apply Ht.
Qed.

Lemma first_scan_progress (h : Header) (name : string) (exp : list string) :
  ∀ (d : dict) (ch : bool),
    ready h d (name, exp) -> ∃ r, first_scan h name exp d ch = Return r.
Proof.
  induction exp as [|e rest IH]; intros d ch [[symbol Hs] Ht]; simpl in *.
  - rewrite (dict_item_Some _ _ _ Hs). simpl.
    destruct (negb (is_nullable symbol)); eauto.
  - destruct (is_terminal h e) eqn:Hterm; [eauto|].
    destruct (Ht e) as [Hd|Hd]; [left|congruence|].
    apply dict_has_true in Hd as [other Ho].
    rewrite (dict_item_Some _ _ _ Ho). simpl.
    rewrite (dict_item_Some _ _ _ Hs). simpl.
    set (st := if negb (bool_decide (first other ⊆ first symbol))
               then (obj_write d name (add_first symbol (first other)), true)
               else (d, ch)).
    assert (dict_le d st.1) as Hle.
    { subst st. destruct (negb _); simpl; [|apply dict_le_refl].
      eapply obj_write_le; eauto using sym_le_add_first. }
    destruct (le_some _ _ Hle _ _ Ho) as (other' & Ho' & _).
    rewrite (dict_item_Some _ _ _ Ho'). simpl.
    destruct (negb (is_nullable other')); [eauto|].
    apply IH. apply (ready_le h d); [done|]. split; [by eexists|].
    intros e' He'. apply Ht. by right.
Qed.

Lemma pass_fold_progress (h : Header) (l : list (string * list string)) :
  ∀ (d : dict) (ch : bool),
    Forall (ready h d) l -> ∃ r, foldM (pass_step h) (d, ch) l = Return r.
Proof.
  induction l as [|[name exp] l IH]; intros d ch Hr; simpl; [eauto|].
  apply Forall_cons in Hr as [Hr Hl].
  destruct (first_scan_progress h name exp d false Hr) as ([d1 r] & Hscan).
  unfold pass_step at 2, _update_first_from_expansion. simpl.
  rewrite Hscan. simpl. apply IH.
  pose proof (all_first_bounded (tbl d)) as Hb.
  apply (first_scan_spec h name _ exp d false d1 r Hb) in Hscan as (Hle & _).
  eapply Forall_impl; [exact Hl|]. intros item. by apply ready_le.
Qed.

Lemma pass_progress (h : Header) (d : dict) :
  Forall (ready h d) (_each_expansion d) -> ∃ r, pass h d = Return r.
Proof. apply pass_fold_progress. Qed.

(** ** The fixpoint loop terminates *)

Lemma while_changed_terminates (h : Header) (U : gset string) (n : nat) :
  ∀ d : dict,
    bounded U (tbl d) ->
    Forall (ready h d) (_each_expansion d) ->
    height U (tbl d) < n ->
    ∃ d', while_changed n h d = Return d' ∧ dict_le d d' ∧
          bounded U (tbl d') ∧ pass h d' = Return (d', false).
Proof.
  induction n as [|n IH]; intros d Hb Hr Hlt; [lia|]. simpl.
  destruct (pass_progress h d Hr) as ([d1 ch] & Hpass). rewrite Hpass. simpl.
  destruct (pass_spec h U d d1 ch Hb Hpass) as (Hle & Hb1 & Hc).
  destruct Hc as [[-> ->]|[-> Hlt1]].
  - exists d. eauto using dict_le_refl.
  - destruct (IH d1) as (d' & Hw & Hle' & Hb' & Hfix); [done| |lia|].
    + rewrite (each_expansion_le d d1) by done.
      eapply Forall_impl; [exact Hr|]. intros item. by apply ready_le.
    + exists d'. eauto using dict_le_trans.
Qed.

Lemma while_changed_fuel (h : Header) (n : nat) :
  ∀ (d d' : dict) (m : nat),
    while_changed n h d = Return d' -> (n <= m)%nat ->
    while_changed m h d = Return d'.
Proof.
  induction n as [|n IH]; intros d d' m H Hnm; simpl in H; [done|].
  destruct m as [|m]; [lia|]. simpl.
  destruct (pass h d) as [[d1 ch]| |]; simpl in *; [|done..].
  destruct ch; [|done]. apply (IH _ _ m) in H; [done|lia].
Qed.

(** ** Validation *)

Lemma check_tokens_spec (h : Header) (d : dict) (exp : list string) :
  match check_tokens h d exp with
  | Return _ => tokens_defined h d exp
  | Raise e =>
      ∃ tok, tok ∈ exp ∧ is_terminal h tok = false ∧ dict_has d tok = false ∧
             e = GrammarError_exn (undefined_msg tok)
  | OutOfFuel => False
  end.
Proof.
  induction exp as [|e exp IH]; simpl.
  - intros e He. by apply elem_of_nil in He.
  - destruct (is_terminal h e) eqn:Ht; simpl.
    + destruct (check_tokens h d exp); [|by set_solver|done].
      intros e' [->|He']%elem_of_cons; [by left|by apply IH].
    + destruct (dict_has d e) eqn:Hd; simpl.
      * destruct (check_tokens h d exp); [|by set_solver|done].
        intros e' [->|He']%elem_of_cons; [by right|by apply IH].
      * exists e. split; [by left|done].
Qed.

Lemma init_expansion_spec (h : Header) (name : string) (d : dict)
    (exp : list string) :
  is_Some (tbl d !! name) ->
  match init_expansion h name d exp with
  | Return d' => dict_le d d' ∧ tokens_defined h d exp
  | Raise e =>
      ∃ tok, tok ∈ exp ∧ is_terminal h tok = false ∧ dict_has d tok = false ∧
             e = GrammarError_exn (undefined_msg tok)
  | OutOfFuel => False
  end.
Proof.
  intros [symbol Hs]. unfold init_expansion.
  set (r := match exp with
            | [] => Return d
            | e0 :: _ =>
                if is_terminal h e0
                then symbol ← dict_item d name;
                     Return (obj_write d name
                               (add_first symbol (list_to_set (take 1 exp))))
                else Return d
            end).
  assert (∃ d1, r = Return d1 ∧ dict_le d d1) as (d1 & -> & Hle).
  { subst r. destruct exp as [|e0 exp']; [eauto using dict_le_refl|].
    destruct (is_terminal h e0); [|eauto using dict_le_refl].
    rewrite (dict_item_Some _ _ _ Hs). simpl. eexists. split; [done|].
    eapply obj_write_le; eauto using sym_le_add_first. }
  simpl. pose proof (check_tokens_spec h d1 exp) as Hc.
  destruct (check_tokens h d1 exp) as [[]|e|]; simpl; [| |done].
  - split; [done|]. intros e He. rewrite <- (dict_le_has d d1) by done. auto.
  - destruct Hc as (tok & Hin & Ht & Hd & ->). exists tok.
    rewrite <- (dict_le_has d d1) by done. done.
Qed.

Lemma init_expansions_spec (h : Header) (name : string) (l : list (list string)) :
  ∀ d : dict,
    is_Some (tbl d !! name) ->
    match foldM (init_expansion h name) d l with
    | Return d' => dict_le d d' ∧ ∀ exp, exp ∈ l -> tokens_defined h d exp
    | Raise e =>
        ∃ exp tok, exp ∈ l ∧ tok ∈ exp ∧ is_terminal h tok = false ∧
                   dict_has d tok = false ∧
                   e = GrammarError_exn (undefined_msg tok)
    | OutOfFuel => False
    end.
Proof.
  induction l as [|exp l IH]; intros d Hs; simpl.
  - split; [apply dict_le_refl|]. intros exp He. by apply elem_of_nil in He.
  - pose proof (init_expansion_spec h name d exp Hs) as H1.
    destruct (init_expansion h name d exp) as [d1|e|]; simpl; [| |done].
    + destruct H1 as [Hle Hd].
      assert (is_Some (tbl d1 !! name)) as Hs1.
      { apply dict_has_true. rewrite (dict_le_has d d1) by done.
        by apply dict_has_true. }
      specialize (IH d1 Hs1).
      destruct (foldM (init_expansion h name) d1 l) as [d2|e|]; [| |done].
      * destruct IH as [Hle' Hd']. split; [eauto using dict_le_trans|].
        intros exp' [->|He']%elem_of_cons; [done|].
        intros e He. rewrite <- (dict_le_has d d1) by done.
        by apply (Hd' _ He').
      * destruct IH as (exp' & tok & Hin & Htok & Ht & Hd' & ->).
        exists exp', tok. rewrite <- (dict_le_has d d1) by done.
        split; [by right|done].
    + destruct H1 as (tok & Hin & Ht & Hd & ->). exists exp, tok.
      split; [by left|done].
Qed.

Lemma init_symbols_spec (h : Header) (l : list (string * Symbol)) :
  ∀ d : dict,
    (∀ item, item ∈ l -> is_Some (tbl d !! item.1)) ->
    match foldM (init_symbol h) d l with
    | Return d' =>
        dict_le d d' ∧
        ∀ name symbol, (name, symbol) ∈ l ->
          is_terminal h name = false ∧
          ∀ exp, exp ∈ expansions symbol -> tokens_defined h d exp
    | Raise e =>
        (∃ name symbol, (name, symbol) ∈ l ∧ is_terminal h name = true ∧
                        e = GrammarError_exn (collision_msg name)) ∨
        (∃ name symbol exp tok,
            (name, symbol) ∈ l ∧ exp ∈ expansions symbol ∧ tok ∈ exp ∧
            is_terminal h tok = false ∧ dict_has d tok = false ∧
            e = GrammarError_exn (undefined_msg tok))
    | OutOfFuel => False
    end.
Proof.
  induction l as [|[name symbol] l IH]; intros d Hs; simpl.
  - split; [apply dict_le_refl|]. intros ?? He. by apply elem_of_nil in He.
  - unfold init_symbol at 2. simpl.
    destruct (is_terminal h name) eqn:Ht; simpl.
    { left. exists name, symbol. split; [by left|done]. }
    assert (is_Some (tbl d !! name)) as Hn by (apply (Hs (name, symbol)); by left).
    pose proof (init_expansions_spec h name (expansions symbol) d Hn) as H1.
    destruct (foldM (init_expansion h name) d (expansions symbol))
      as [d1|e|]; simpl; [| |done].
    + destruct H1 as [Hle Hd].
      assert (∀ item, item ∈ l -> is_Some (tbl d1 !! item.1)) as Hs1.
      { intros item Hi. apply dict_has_true.
        rewrite (dict_le_has d d1) by done. apply dict_has_true, Hs.
        by right. }
      specialize (IH d1 Hs1).
      destruct (foldM (init_symbol h) d1 l) as [d2|e|]; [| |done].
      * destruct IH as [Hle' Hd']. split; [eauto using dict_le_trans|].
        intros name' symbol' [[= -> ->]|Hi]%elem_of_cons; [done|].
        destruct (Hd' _ _ Hi) as [Ht' Hx]. split; [done|].
        intros exp He e Hin. rewrite <- (dict_le_has d d1) by done.
        by apply (Hx _ He).
      * destruct IH as [(name' & symbol' & Hi & Ht' & ->)
                       |(name' & symbol' & exp & tok & Hi & He & Hin & Ht' & Hd' & ->)].
        -- left. exists name', symbol'. split; [by right|done].
        -- right. exists name', symbol', exp, tok.
           rewrite <- (dict_le_has d d1) by done. split; [by right|done].
    + destruct H1 as (exp & tok & He & Hin & Ht' & Hd & ->).
      right. exists name, symbol, exp, tok. split; [by left|done].
Qed.

(** The outcome of the validation phase: the store, grown, when no name
    collides and every token is defined; a grammar error naming a
    colliding name or an undefined token otherwise. *)
Lemma initialise_spec (h : Header) (d : dict) :
  match _initialise_expansions_state h d with
  | Return d' => dict_le d d' ∧ no_collision h d ∧ all_defined h d
  | Raise e =>
      (∃ name symbol, (name, symbol) ∈ dict_items d ∧
                      is_terminal h name = true ∧
                      e = GrammarError_exn (collision_msg name)) ∨
      (∃ name symbol exp tok,
          (name, symbol) ∈ dict_items d ∧ exp ∈ expansions symbol ∧
          tok ∈ exp ∧ is_terminal h tok = false ∧ dict_has d tok = false ∧
          e = GrammarError_exn (undefined_msg tok))
  | OutOfFuel => False
  end.
Proof.
  unfold _initialise_expansions_state.
  pose proof (init_symbols_spec h (dict_items d) d) as H.
  destruct (foldM (init_symbol h) d (dict_items d)) as [d'|e|].
  - destruct H as [Hle Hd].
    { intros [name s] Hi. apply dict_items_lookup in Hi. by eexists. }
    split; [done|]. split.
    + intros name symbol Hi. by apply Hd in Hi as [? _].
    + intros name symbol exp Hi He. apply Hd in Hi as [_ Hx]. by apply Hx.
  - apply H. intros [name s] Hi. apply dict_items_lookup in Hi. by eexists.
  - apply H. intros [name s] Hi. apply dict_items_lookup in Hi. by eexists.
Qed.

Lemma each_expansion_elem (d : dict) (name : string) (exp : list string) :
  (name, exp) ∈ _each_expansion d <->
  ∃ symbol, (name, symbol) ∈ dict_items d ∧ exp ∈ expansions symbol.
Proof.
  unfold _each_expansion. rewrite list_elem_of_bind. split.
  - intros ([n s] & Hin & Hi). apply list_elem_of_fmap in Hin as (e & [= -> ->] & He).
    by exists s.
  - intros (s & Hi & He). exists (name, s). split; [|done].
    apply list_elem_of_fmap. by exists exp.
Qed.

Lemma all_defined_ready (h : Header) (d : dict) :
  all_defined h d -> Forall (ready h d) (_each_expansion d).
Proof.
  intros Hd. apply Forall_forall. intros [name exp] Hin.
  apply each_expansion_elem in Hin as (s & Hi & He). split; simpl.
  - apply dict_items_lookup in Hi. by eexists.
  - by apply (Hd name s).
Qed.

Lemma each_expansion_owns (d : dict) : Forall (owns d) (_each_expansion d).
Proof.
  apply Forall_forall. intros [name exp] Hin.
  apply each_expansion_elem in Hin as (s & Hi & He).
  exists s. split; [by apply dict_items_lookup|done].
Qed.

Lemma owns_le (d d' : dict) (item : string * list string) :
  dict_le d d' -> owns d item -> owns d' item.
Proof.
  intros Hle (s & Hs & He). destruct (le_some _ _ Hle _ _ Hs) as (s' & Hs' & Hss).
  exists s'. split; [done|]. by rewrite <- (le_expansions _ _ Hss).
Qed.

Lemma all_defined_le (h : Header) (d d' : dict) :
  dict_le d d' -> all_defined h d -> all_defined h d'.
Proof.
  intros Hle Hd name s' exp Hi He e Hin.
  destruct (dict_le_items _ _ _ _ Hle Hi) as (s & Hi0 & Hss).
  rewrite (dict_le_has d d') by done.
  rewrite <- (le_expansions _ _ Hss) in He. by apply (Hd name s exp).
Qed.

(** ** Invariants of the validation phase and of the loop *)

Section init_invariant.

Variable h : Header.
Variable P : dict -> Prop.
Hypothesis P_add : ∀ d k s e0 rest,
  P d -> tbl d !! k = Some s -> (e0 :: rest) ∈ expansions s ->
  is_terminal h e0 = true ->
  P (obj_write d k (add_first s (list_to_set (take 1 (e0 :: rest))))).

Lemma init_expansion_inv (name : string) (d d' : dict) (exp : list string) :
  owns d (name, exp) -> P d -> init_expansion h name d exp = Return d' -> P d'.
Proof.
  intros (s0 & Hs0 & He) HP H. unfold init_expansion in H. simpl in *.
  apply bind_Return in H as (d1 & H1 & H).
  apply bind_Return in H as (_ & _ & [= <-]).
  destruct exp as [|e0 rest]; [by injection H1 as <-|].
  destruct (is_terminal h e0) eqn:Ht; [|by injection H1 as <-].
  apply bind_Return in H1 as (s & Hs%dict_item_Return & [= <-]).
  assert (s = s0) as -> by congruence.
  by apply (P_add _ _ _ _ rest).
Qed.

Lemma init_expansions_inv (name : string) (l : list (list string)) :
  ∀ d d', Forall (fun exp => owns d (name, exp)) l -> P d ->
          foldM (init_expansion h name) d l = Return d' -> P d'.
Proof.
  induction l as [|exp l IH]; intros d d' Ho HP H; simpl in H.
  - by injection H as <-.
  - apply Forall_cons in Ho as [Ho Hl].
    apply bind_Return in H as (d1 & H1 & H).
    assert (dict_le d d1) as Hle.
    { destruct Ho as (s & Hs & _). simpl in Hs.
      pose proof (init_expansion_spec h name d exp (mk_is_Some _ _ Hs)) as Hsp.
      rewrite H1 in Hsp. apply Hsp. }
    apply (IH d1); [|by eapply init_expansion_inv|done].
    eapply Forall_impl; [exact Hl|]. intros e. by apply owns_le.
Qed.

Lemma init_symbols_inv (l : list (string * Symbol)) :
  ∀ d d',
    Forall (fun item => ∃ s, tbl d !! item.1 = Some s ∧
                             expansions s = expansions item.2) l ->
    P d -> foldM (init_symbol h) d l = Return d' -> P d'.
Proof.
  induction l as [|[name s] l IH]; intros d d' Ho HP H; simpl in H.
  - by injection H as <-.
  - apply Forall_cons in Ho as [(s0 & Hs0 & He) Hl]. simpl in *.
    apply bind_Return in H as (d1 & H1 & H).
    unfold init_symbol in H1. simpl in H1.
    destruct (is_terminal h name); [done|].
    assert (dict_le d d1) as Hle.
    { pose proof (init_expansions_spec h name (expansions s) d
                    (mk_is_Some _ _ Hs0)) as Hsp.
      rewrite H1 in Hsp. apply Hsp. }
    apply (IH d1); [|eapply init_expansions_inv; [|done|done]|done].
    + eapply Forall_impl; [exact Hl|]. intros item (t & Ht & Hte).
      destruct (le_some _ _ Hle _ _ Ht) as (t' & Ht' & Htt).
      exists t'. split; [done|]. by rewrite <- (le_expansions _ _ Htt).
    + apply Forall_forall. intros exp Hexp. exists s0. simpl.
      split; [done|]. by rewrite He.
Qed.

Lemma initialise_inv (d d' : dict) :
  P d -> _initialise_expansions_state h d = Return d' -> P d'.
Proof.
  apply init_symbols_inv. apply Forall_forall. intros [name s] Hi.
  exists s. split; [by apply dict_items_lookup|done].
Qed.

End init_invariant.

Section loop_invariant.

Variable h : Header.
Variable P : dict -> Prop.
Hypothesis P_scan : ∀ name exp d ch d' ch',
  owns d (name, exp) -> P d ->
  first_scan h name exp d ch = Return (d', ch') -> P d'.

Lemma pass_fold_inv (l : list (string * list string)) :
  ∀ d ch d' ch',
    Forall (owns d) l -> P d ->
    foldM (pass_step h) (d, ch) l = Return (d', ch') -> P d'.
Proof.
  induction l as [|[name exp] l IH]; intros d ch d' ch' Ho HP H; simpl in H.
  - by injection H as <- <-.
  - apply Forall_cons in Ho as [Ho Hl].
    apply bind_Return in H as ([d1 ch1] & Hstep & H).
    unfold pass_step, _update_first_from_expansion in Hstep. simpl in Hstep.
    apply bind_Return in Hstep as ([d2 r] & Hscan & [= <- <-]).
    pose proof (first_scan_spec h name _ exp d false d2 r
                  (all_first_bounded (tbl d)) Hscan) as (Hle & _).
    apply (IH d2 _ _ _) in H; [done| |by eapply P_scan].
    eapply Forall_impl; [exact Hl|]. intros item. by apply owns_le.
Qed.

Lemma pass_inv (d d' : dict) (ch : bool) :
  P d -> pass h d = Return (d', ch) -> P d'.
Proof. intros HP. apply pass_fold_inv; [apply each_expansion_owns|done]. Qed.

Lemma while_changed_inv (n : nat) :
  ∀ d d', P d -> while_changed n h d = Return d' -> P d'.
Proof.
  induction n as [|n IH]; intros d d' HP H; simpl in H; [done|].
  apply bind_Return in H as ([d1 ch] & Hpass & H).
  apply pass_inv in Hpass; [|done].
  destruct ch; [by eapply IH|]. by injection H as <-.
Qed.

End loop_invariant.

Lemma while_changed_le (h : Header) (n : nat) (d d' : dict) :
  while_changed n h d = Return d' -> dict_le d d'.
Proof.
  apply (while_changed_inv h (dict_le d)); [|apply dict_le_refl].
  intros name exp d1 ch d2 ch' _ Hle Hscan.
  apply (first_scan_spec h name _ exp d1 ch d2 ch'
           (all_first_bounded (tbl d1))) in Hscan as (Hle' & _).
  eauto using dict_le_trans.
Qed.

Lemma while_changed_bounded (h : Header) (U : gset string) (n : nat)
    (d d' : dict) :
  bounded U (tbl d) -> while_changed n h d = Return d' -> bounded U (tbl d').
Proof.
  apply (while_changed_inv h (fun d => bounded U (tbl d))).
  intros name exp d1 ch d2 ch' _ Hb Hscan.
  by apply (first_scan_spec h name U exp d1 ch d2 ch' Hb) in Hscan as (_ & ? & _).
Qed.

Lemma initialise_bounded (h : Header) (U : gset string) (d d' : dict) :
  dom (terminals h) ⊆ U -> bounded U (tbl d) ->
  _initialise_expansions_state h d = Return d' -> bounded U (tbl d').
Proof.
  intros HU. apply (initialise_inv h (fun d => bounded U (tbl d))).
  intros d1 k s e0 rest Hb Hs _ Ht. apply bounded_insert; [done|].
  simpl. unfold _union_set_with_values. pose proof (Hb _ _ Hs).
  apply is_terminal_true, elem_of_dom in Ht. set_solver.
Qed.

(** ** The analysis as a whole *)

Lemma compute_sets_spec (h : Header) (d : dict) :
  match _compute_sets_for_expansions h d with
  | Return d' =>
      dict_le d d' ∧ no_collision h d ∧ all_defined h d ∧
      pass h d' = Return (d', false)
  | Raise e =>
      (∃ name symbol, (name, symbol) ∈ dict_items d ∧
                      is_terminal h name = true ∧
                      e = GrammarError_exn (collision_msg name)) ∨
      (∃ name symbol exp tok,
          (name, symbol) ∈ dict_items d ∧ exp ∈ expansions symbol ∧
          tok ∈ exp ∧ is_terminal h tok = false ∧ dict_has d tok = false ∧
          e = GrammarError_exn (undefined_msg tok))
  | OutOfFuel => False
  end.
Proof.
  unfold _compute_sets_for_expansions.
  pose proof (initialise_spec h d) as Hi.
  destruct (_initialise_expansions_state h d) as [d1|e|];
    cbn [mbind result_mbind result_bind]; [|done..].
  destruct Hi as (Hle & Hc & Hd).
  destruct (while_changed_terminates h (all_first (tbl d1)) (passes_bound d1) d1)
    as (d' & Hw & Hle' & _ & Hfix).
  - apply all_first_bounded.
  - apply all_defined_ready. by apply (all_defined_le h d).
  - unfold passes_bound. lia.
  - rewrite Hw. eauto using dict_le_trans.
Qed.

Lemma parse_buffer_Return (buffer : string) (h : Header) (exps : dict)
    (code : string) :
  parse_buffer buffer = Return (h, exps, code) <->
  ∃ hs es, PyStr.split "%%" buffer = [hs; es; code] ∧
           h = _process_header hs ∧
           _compute_sets_for_expansions h (_process_expansions es) = Return exps.
Proof.
  unfold parse_buffer.
  destruct (PyStr.split "%%" buffer) as [|hs [|es [|uc [|x l]]]];
    try (split; [done|by intros (? & ? & [=] & _)]).
  split.
  - intros H. apply bind_Return in H as (d' & Hc & [= <- <- <-]). by exists hs, es.
  - intros (hs' & es' & [= <- <- <-] & -> & Hc). by rewrite Hc.
Qed.

Lemma parse_buffer_has_outcome (buffer : string) :
  parse_buffer buffer ≠ OutOfFuel.
Proof.
  unfold parse_buffer.
  destruct (PyStr.split "%%" buffer) as [|hs [|es [|uc [|x l]]]]; try done.
  pose proof (compute_sets_spec (_process_header hs) (_process_expansions es))
    as Hc.
  by destruct (_compute_sets_for_expansions _ _).
Qed.

Lemma parse_buffer_three (buffer hs es code : string) :
  PyStr.split "%%" buffer = [hs; es; code] ->
  parse_buffer buffer =
    _compute_sets_for_expansions (_process_header hs) (_process_expansions es)
    ≫= fun exps => Return (_process_header hs, exps, code).
Proof. intros H. unfold parse_buffer. by rewrite H. Qed.

Lemma parse_buffer_not_three (buffer : string) :
  length (PyStr.split "%%" buffer) ≠ 3 ->
  parse_buffer buffer =
    Raise (ParseError ("expected 3 sections but found "
                       ++ PyStr.of_nat (length (PyStr.split "%%" buffer)))).
Proof.
  intros H. unfold parse_buffer.
  by destruct (PyStr.split "%%" buffer) as [|hs [|es [|uc [|x l]]]].
Qed.

(** ** Section count (claim C2) *)

(** C2. [parse_buffer] raises a [ParseError] exactly when splitting the
    buffer on the delimiter [%%] yields a number of parts other than three;
    the message of the error then reads "expected 3 sections but found N"
    after the tag of the error kind, where N is the number of parts in
    decimal; with three parts no [ParseError] is raised. *)
Theorem parse_error_iff_not_three_sections (buffer : string) :
  ((∃ msg, parse_buffer buffer = Raise (ParseError_exn msg)) <->
   length (PyStr.split "%%" buffer) ≠ 3) ∧
  (∀ msg, parse_buffer buffer = Raise (ParseError_exn msg) ->
          msg = "parsegen: parse error: expected 3 sections but found "
                ++ PyStr.of_nat (length (PyStr.split "%%" buffer))) ∧
  (length (PyStr.split "%%" buffer) = 3 ->
   ∀ msg, parse_buffer buffer ≠ Raise (ParseError_exn msg)).
Proof.
  assert (length (PyStr.split "%%" buffer) = 3 ->
          ∀ msg, parse_buffer buffer ≠ Raise (ParseError_exn msg)) as Hthree.
  { intros Hlen msg.
    destruct (PyStr.split "%%" buffer) as [|hs [|es [|uc [|x l]]]] eqn:Hs;
      try discriminate Hlen.
    rewrite (parse_buffer_three _ _ _ _ Hs).
    pose proof (compute_sets_spec (_process_header hs) (_process_expansions es)) as Hc.
    destruct (_compute_sets_for_expansions _ _) as [d'|e|]; simpl; [done| |done].
    destruct Hc as [(? & ? & _ & _ & ->)|(? & ? & ? & ? & _ & _ & _ & _ & _ & ->)];
      discriminate. }
  split; [|split; [|done]].
  - split.
    + intros [msg H] Hlen. by apply (Hthree Hlen msg).
    + intros Hlen. rewrite (parse_buffer_not_three _ Hlen). by eexists.
  - intros msg H.
    destruct (decide (length (PyStr.split "%%" buffer) = 3)) as [Hlen|Hlen].
    + by apply (Hthree Hlen) in H.
    + rewrite (parse_buffer_not_three _ Hlen) in H. by injection H as <-.
Qed.

(** ** Termination of the fixpoint loop (claim C5) *)

(** C5. When the validation phase accepts a header and a symbol mapping,
    the [while] loop of [_compute_sets_for_expansions] stops: there is a
    number of turns after which it has returned, whatever larger budget it
    is given; the last pass it made reports no change and leaves the store
    as it found it; and [_compute_sets_for_expansions] returns that store. *)
Theorem fixpoint_loop_terminates (h : Header) (d d1 : dict) :
  _initialise_expansions_state h d = Return d1 ->
  ∃ (n : nat) (d' : dict),
    (∀ fuel, (n <= fuel)%nat -> while_changed fuel h d1 = Return d') ∧
    pass h d' = Return (d', false) ∧
    _compute_sets_for_expansions h d = Return d'.
Proof.
  intros Hi. pose proof (initialise_spec h d) as Hs. rewrite Hi in Hs.
  destruct Hs as (Hle & Hc & Hd).
  destruct (while_changed_terminates h (all_first (tbl d1)) (passes_bound d1) d1)
    as (d' & Hw & Hle' & _ & Hfix).
  - apply all_first_bounded.
  - apply all_defined_ready. by apply (all_defined_le h d).
  - unfold passes_bound. lia.
  - exists (passes_bound d1), d'. split; [|split; [done|]].
    + intros fuel Hf. by apply (while_changed_fuel h (passes_bound d1)).
    + unfold _compute_sets_for_expansions. rewrite Hi. exact Hw.
Qed.

Lemma fixpoint_loop_terminates_witness :
  ∃ d1, _initialise_expansions_state header_example rules_example = Return d1 ∧
  ∃ (n : nat) (d' : dict),
    (∀ fuel, (n <= fuel)%nat -> while_changed fuel header_example d1 = Return d') ∧
    pass header_example d' = Return (d', false) ∧
    _compute_sets_for_expansions header_example rules_example = Return d'.
Proof.
  eexists. split.
  - vm_compute. reflexivity.
  - apply fixpoint_loop_terminates. vm_compute. reflexivity.
Defined.

(** ** Soundness of the nullable flag *)

Lemma all_nullable_le (h : Header) (d d' : dict) (exp : list string) :
  dict_le d d' -> all_nullable h d exp -> all_nullable h d' exp.
Proof.
  intros Hle Hn e He. destruct (Hn e He) as (Ht & s & Hs & Hnull).
  split; [done|]. destruct (le_some _ _ Hle _ _ Hs) as (s' & Hs' & Hss).
  exists s'. split; [done|]. by apply (sym_le_is_nullable s).
Qed.

Lemma null_sound_write (h : Header) (d : dict) (k : string) (s s' : Symbol) :
  null_sound h d -> tbl d !! k = Some s -> sym_le s s' ->
  (nullable s' = true ->
   nullable s = true ∨ ∃ exp, exp ∈ expansions s ∧ all_nullable h d exp) ->
  null_sound h (obj_write d k s').
Proof.
  intros Hd Hs Hss Hnew.
  assert (dict_le d (obj_write d k s')) as Hle by by eapply obj_write_le.
  assert (∀ t, tbl d !! k = Some t -> nullable t = true ->
               ∃ exp, exp ∈ expansions s' ∧
                      all_nullable h (obj_write d k s') exp) as Hold.
  { intros t Ht Hn. assert (t = s) as -> by congruence.
    destruct (Hd _ _ Hs Hn) as (exp & He & Ha). exists exp.
    rewrite <- (le_expansions _ _ Hss). eauto using all_nullable_le. }
  intros j t. simpl. rewrite lookup_insert. case_decide as E.
  - intros [= <-] Hn. destruct (Hnew Hn) as [Hn'|(exp & He & Ha)]; [eauto|].
    exists exp. rewrite <- (le_expansions _ _ Hss). eauto using all_nullable_le.
  - intros Ht Hn. destruct (Hd _ _ Ht Hn) as (exp & He & Ha).
    exists exp. eauto using all_nullable_le.
Qed.

Lemma first_scan_null_sound (h : Header) (name : string) (rest : list string) :
  ∀ (pre : list string) (d : dict) (ch : bool) (d' : dict) (ch' : bool),
    null_sound h d -> owns d (name, (pre ++ rest)%list) ->
    all_nullable h d pre ->
    first_scan h name rest d ch = Return (d', ch') -> null_sound h d'.
Proof.
  induction rest as [|e rest IH]; intros pre d ch d' ch' Hd Ho Hpre H;
    simpl in H.
  - apply bind_Return in H as (symbol & Hs%dict_item_Return & H).
    destruct (is_nullable symbol); simpl in H; injection H as <- <-; [done|].
    apply (null_sound_write h d name symbol);
      [done|done|apply sym_le_set_nullable|].
    intros _. right. exists pre. split; [|done].
    destruct Ho as (s & Hs' & He). simpl in *. rewrite app_nil_r in He. congruence.
  - destruct (is_terminal h e) eqn:Hterm; [by injection H as <- <-|].
    apply bind_Return in H as (other & Ho1%dict_item_Return & H).
    apply bind_Return in H as (symbol & Hs%dict_item_Return & H).
    apply bind_Return in H as (other' & Ho2%dict_item_Return & H).
    set (st := if negb (bool_decide (first other ⊆ first symbol))
               then (obj_write d name (add_first symbol (first other)), true)
               else (d, ch)) in *.
    assert (dict_le d st.1 ∧ null_sound h st.1) as [Hle Hd1].
    { subst st. destruct (negb _); simpl; [|split; [apply dict_le_refl|done]].
      split; [eapply obj_write_le; eauto using sym_le_add_first|].
      apply (null_sound_write h d name symbol);
        [done|done|apply sym_le_add_first|by left]. }
    destruct (is_nullable other') eqn:Hn; simpl in H.
    2:{ injection H as H. assert (d' = st.1) as -> by (by rewrite H). done. }
    apply (IH (pre ++ [e])%list) in H; [done|done| |].
    + rewrite <- app_assoc. simpl. by apply (owns_le d).
    + intros e' [He'|He']%elem_of_app;
        [|apply list_elem_of_singleton in He' as ->].
      * by apply (all_nullable_le h d st.1 pre Hle Hpre).
      * split; [done|]. by exists other'.
Qed.

Lemma initialise_null_sound (h : Header) (d d' : dict) :
  null_sound h d -> _initialise_expansions_state h d = Return d' ->
  null_sound h d'.
Proof.
  apply (initialise_inv h (null_sound h)).
  intros d1 k s e0 rest Hd Hs _ _.
  apply (null_sound_write h d1 k s); [done|done|apply sym_le_add_first|by left].
Qed.

Lemma while_changed_null_sound (h : Header) (n : nat) (d d' : dict) :
  null_sound h d -> while_changed n h d = Return d' -> null_sound h d'.
Proof.
  apply (while_changed_inv h (null_sound h)).
  intros name exp d1 ch d2 ch' Ho Hd.
  apply (first_scan_null_sound h name exp []); [done|done|].
  intros e He. by apply elem_of_nil in He.
Qed.

Lemma compute_sets_null_sound (h : Header) (d d' : dict) :
  null_sound h d -> _compute_sets_for_expansions h d = Return d' ->
  null_sound h d'.
Proof.
  intros Hd H. unfold _compute_sets_for_expansions in H.
  apply bind_Return in H as (d1 & Hi & Hw).
  eauto using initialise_null_sound, while_changed_null_sound.
Qed.

Lemma compute_sets_bounded (h : Header) (U : gset string) (d d' : dict) :
  dom (terminals h) ⊆ U -> bounded U (tbl d) ->
  _compute_sets_for_expansions h d = Return d' -> bounded U (tbl d').
Proof.
  intros HU Hd H. unfold _compute_sets_for_expansions in H.
  apply bind_Return in H as (d1 & Hi & Hw).
  eauto using initialise_bounded, while_changed_bounded.
Qed.

Lemma compute_sets_le (h : Header) (d d' : dict) :
  _compute_sets_for_expansions h d = Return d' -> dict_le d d'.
Proof.
  intros H. pose proof (compute_sets_spec h d) as Hs. rewrite H in Hs. apply Hs.
Qed.

(** ** The symbols built by [_process_expansions] *)

Lemma spaceless_cons (c : ascii) (w : string) :
  PyStr.is_space c = false -> spaceless w -> spaceless (String c w).
Proof.
  intros Hc Hw c0 Hc0. simpl. rewrite (Hw c0 Hc0), orb_false_r.
  destruct (Ascii.eqb_spec c0 c) as [->|]; [congruence|done].
Qed.

Lemma spaceless_nil : spaceless EmptyString.
Proof. by intros c _. Qed.

Lemma words_spaceless (s : string) : ∀ w, w ∈ PyStr.words s -> spaceless w.
Proof.
  induction s as [|c s IH]; intros w Hw; [by apply elem_of_nil in Hw|].
  cbn [PyStr.words] in Hw.
  destruct (PyStr.is_space c) eqn:Hc; [by apply IH|].
  destruct s as [|c' s'].
  { apply list_elem_of_singleton in Hw as ->.
    apply spaceless_cons; [done|apply spaceless_nil]. }
  destruct (PyStr.is_space c') eqn:Hc'.
  { apply elem_of_cons in Hw as [->|Hw]; [|by apply IH].
    apply spaceless_cons; [done|apply spaceless_nil]. }
  destruct (PyStr.words (String c' s')) as [|w0 ws].
  { apply list_elem_of_singleton in Hw as ->.
    apply spaceless_cons; [done|apply spaceless_nil]. }
  apply elem_of_cons in Hw as [->|Hw].
  - apply spaceless_cons; [done|]. apply IH. by left.
  - apply IH. by right.
Qed.

Lemma add_expansion_fresh (s : Symbol) (exp : list string) :
  (nullable s = true <-> [] ∈ expansions s) ->
  first s = ∅ -> follow s = ∅ ->
  (∀ exp e, exp ∈ expansions s -> e ∈ exp -> spaceless e) ->
  (∀ e, e ∈ exp -> spaceless e) ->
  fresh_sym (add_expansion s exp).
Proof.
  intros Hn Hf Hw Ht He.
  assert (∀ x e, x ∈ (expansions s ++ [exp])%list -> e ∈ x -> spaceless e) as Ht'.
  { intros x e [Hx|Hx]%elem_of_app Hin; [by apply (Ht x)|].
    apply list_elem_of_singleton in Hx as ->. by apply He. }
  destruct exp as [|e0 exp]; split; simpl; try done.
  - by destruct (expansions s).
  - split; [|done]. intros _. apply elem_of_app. right. by left.
  - by destruct (expansions s).
  - rewrite Hn, elem_of_app. split; [by left|]. intros [|Hx]; [done|].
    by apply list_elem_of_singleton in Hx.
Qed.

Lemma Symbol_new_fresh_pre :
  (nullable Symbol_new = true <-> [] ∈ expansions Symbol_new) ∧
  first Symbol_new = ∅ ∧ follow Symbol_new = ∅ ∧
  (∀ exp e, exp ∈ expansions Symbol_new -> e ∈ exp -> spaceless e).
Proof.
  simpl. split; [|split; [done|split; [done|]]].
  - split; [done|]. by intros H%elem_of_nil.
  - by intros exp e H%elem_of_nil.
Qed.

Lemma process_line_fresh (d : dict) (l : string) :
  fresh d -> fresh (_process_expansions_line d l).
Proof.
  intros Hd. unfold _process_expansions_line.
  destruct (_kv_with_sep l ":=") as [sym exp]. intros k s. simpl.
  rewrite lookup_insert. case_decide as E; [|apply Hd].
  intros [= <-]. unfold dict_get.
  destruct (tbl d !! sym) as [s0|] eqn:Hs; simpl.
  - destruct (Hd _ _ Hs) as [? ? ? ? ?].
    apply add_expansion_fresh; try done. intros e. apply words_spaceless.
  - destruct Symbol_new_fresh_pre as (? & ? & ? & ?).
    apply add_expansion_fresh; try done. intros e. apply words_spaceless.
Qed.

Lemma process_expansions_fresh (es : string) : fresh (_process_expansions es).
Proof.
  unfold _process_expansions.
  assert (fresh dict_empty) as H0 by (intros k s; simpl; by rewrite lookup_empty).
  revert H0. generalize dict_empty. generalize (_processed_lines es).
  intros l. induction l as [|x l IH]; intros d Hd; simpl; [done|].
  apply IH. by apply process_line_fresh.
Qed.

Lemma fresh_null_sound (h : Header) (d : dict) : fresh d -> null_sound h d.
Proof.
  intros Hd k s Hs Hn. exists []. split.
  - by apply (fresh_nullable _ (Hd _ _ Hs)).
  - intros e He. by apply elem_of_nil in He.
Qed.

Lemma fresh_bounded (U : gset string) (d : dict) : fresh d -> bounded U (tbl d).
Proof. intros Hd k s Hs. rewrite (fresh_first _ (Hd _ _ Hs)). set_solver. Qed.

(** ** Nullability (claim C4) *)

(** C4. A symbol with no expansion reports nullable.  For every symbol of
    an analysed grammar: if one of its expansions is empty it reports
    nullable; if all of its expansions are non-empty and made only of
    terminals and of nonterminals that do not report nullable, it does not
    report nullable. *)
Theorem nullable_after_analysis (buffer : string) (h : Header) (exps : dict)
    (code name : string) (s : Symbol) :
  parse_buffer buffer = Return (h, exps, code) ->
  dict_get exps name = Some s ->
  (∀ t, expansions t = [] -> is_nullable t = true) ∧
  ([] ∈ expansions s -> is_nullable s = true) ∧
  ((∀ exp, exp ∈ expansions s ->
      exp ≠ [] ∧
      ∀ e, e ∈ exp ->
           is_terminal h e = true ∨
           ∃ s', dict_get exps e = Some s' ∧ is_nullable s' = false) ->
   is_nullable s = false).
Proof.
  intros Hp Hs. unfold dict_get in *.
  apply parse_buffer_Return in Hp as (hs & es & _ & -> & Hc).
  pose proof (process_expansions_fresh es) as Hfresh.
  pose proof (compute_sets_le _ _ _ Hc) as Hle.
  assert (∃ s0, tbl (_process_expansions es) !! name = Some s0 ∧ sym_le s0 s)
    as (s0 & Hs0 & Hss).
  { destruct (tbl (_process_expansions es) !! name) as [s0|] eqn:E.
    - destruct (le_some _ _ Hle _ _ E) as (s1 & Hs1 & Hss). exists s0.
      split; [done|congruence].
    - apply (le_none _ _ Hle) in E. congruence. }
  destruct (Hfresh _ _ Hs0) as [Hne Hnull _ _ _].
  split; [|split].
  - intros t Ht. unfold is_nullable. by rewrite Ht.
  - intros He. rewrite <- (le_expansions _ _ Hss) in He.
    apply (sym_le_is_nullable s0 s Hss). unfold is_nullable.
    apply Hnull in He. rewrite He. by destruct (_ =? _)%nat.
  - intros Hall. destruct (is_nullable s) eqn:Hn; [exfalso|done].
    assert (nullable s = true) as Hflag.
    { unfold is_nullable in Hn. rewrite <- (le_expansions _ _ Hss) in Hn.
      by destruct (expansions s0). }
    pose proof (compute_sets_null_sound _ _ _
                  (fresh_null_sound _ _ Hfresh) Hc) as Hsound.
    destruct (Hsound _ _ Hs Hflag) as (exp & He & Ha).
    destruct (Hall _ He) as [Hexp Htok].
    destruct exp as [|e exp]; [done|].
    destruct (Ha e) as (Ht & s' & Hs' & Hn'); [by left|].
    destruct (Htok e) as [Ht'|(s'' & Hs'' & Hn'')]; [by left|congruence|].
    congruence.
Qed.

Lemma nullable_after_analysis_witness :
  ∃ h exps code s,
    parse_buffer grammar_example = Return (h, exps, code) ∧
    dict_get exps "bar" = Some s ∧
    (∀ t, expansions t = [] -> is_nullable t = true) ∧
    ([] ∈ expansions s -> is_nullable s = true) ∧
    ((∀ exp, exp ∈ expansions s ->
        exp ≠ [] ∧
        ∀ e, e ∈ exp ->
             is_terminal h e = true ∨
             ∃ s', dict_get exps e = Some s' ∧ is_nullable s' = false) ->
     is_nullable s = false).
Proof.
  eexists _, _, _, _. split; [vm_compute; reflexivity|].
  split; [vm_compute; reflexivity|].
  eapply (nullable_after_analysis grammar_example _ _ _ "bar");
    vm_compute; reflexivity.
Defined.

(** ** Monotone accumulation (claim C6) *)

Lemma sym_le_accumulates (s s' : Symbol) : sym_le s s' -> accumulates s s'.
Proof.
  intros [E N F W]. split; [|done|done|by rewrite W].
  exists []. by rewrite app_nil_r.
Qed.

(** C6. Each mutating operation on a symbol, [add_expansion], [add_first],
    [add_follow], [set_nullable], and each pass of the fixpoint loop (as
    well as the validation phase and the whole of
    [_compute_sets_for_expansions]) accumulates: the expansions before are
    a prefix of the expansions after, a raised nullable flag stays raised,
    and the FIRST and FOLLOW sets after contain those before. *)
Theorem operations_accumulate :
  (∀ s e, accumulates s (add_expansion s e)) ∧
  (∀ s X, accumulates s (add_first s X)) ∧
  (∀ s X, accumulates s (add_follow s X)) ∧
  (∀ s, accumulates s (set_nullable s)) ∧
  (∀ h d d' ch name s,
      pass h d = Return (d', ch) -> dict_get d name = Some s ->
      ∃ s', dict_get d' name = Some s' ∧ accumulates s s') ∧
  (∀ h d d' name s,
      _initialise_expansions_state h d = Return d' -> dict_get d name = Some s ->
      ∃ s', dict_get d' name = Some s' ∧ accumulates s s') ∧
  (∀ h d d' name s,
      _compute_sets_for_expansions h d = Return d' -> dict_get d name = Some s ->
      ∃ s', dict_get d' name = Some s' ∧ accumulates s s').
Proof.
  split; [|split; [|split; [|split; [|split; [|split]]]]].
  - intros s e. split.
    + exists [e]. by destruct e.
    + by destruct e.
    + by destruct e.
    + by destruct e.
  - intros s X. apply sym_le_accumulates, sym_le_add_first.
  - intros s X. split; simpl; [|done|done|].
    + exists []. by rewrite app_nil_r.
    + unfold _union_set_with_values. set_solver.
  - intros s. apply sym_le_accumulates, sym_le_set_nullable.
  - intros h d d' ch name s Hp Hs.
    apply (pass_spec h _ d d' ch (all_first_bounded (tbl d))) in Hp as (Hle & _).
    destruct (le_some _ _ Hle _ _ Hs) as (s' & Hs' & Hss).
    eauto using sym_le_accumulates.
  - intros h d d' name s Hi Hs.
    pose proof (initialise_spec h d) as Hsp. rewrite Hi in Hsp.
    destruct Hsp as (Hle & _).
    destruct (le_some _ _ Hle _ _ Hs) as (s' & Hs' & Hss).
    eauto using sym_le_accumulates.
  - intros h d d' name s Hc Hs.
    destruct (le_some _ _ (compute_sets_le _ _ _ Hc) _ _ Hs) as (s' & Hs' & Hss).
    eauto using sym_le_accumulates.
Qed.

(** ** The FOLLOW sets (claim C8) *)

(** C8. [_update_follow_from_expansion] returns [False] on every input and
    leaves the store as it is; [_compute_sets_for_expansions] leaves every
    FOLLOW set as it found it; and after the analysis of a grammar text
    every symbol has the empty FOLLOW set. *)
Theorem follow_sets_stay_empty :
  (∀ h exps name expansion,
      _update_follow_from_expansion h exps name expansion = (exps, false)) ∧
  (∀ h d d' name s',
      _compute_sets_for_expansions h d = Return d' ->
      dict_get d' name = Some s' ->
      ∃ s, dict_get d name = Some s ∧ follow s' = follow s) ∧
  (∀ buffer h exps code name s,
      parse_buffer buffer = Return (h, exps, code) ->
      dict_get exps name = Some s -> follow s = ∅).
Proof.
  assert (∀ h d d' name s',
      _compute_sets_for_expansions h d = Return d' ->
      dict_get d' name = Some s' ->
      ∃ s, dict_get d name = Some s ∧ follow s' = follow s) as Hkeep.
  { intros h d d' name s' Hc Hs'. unfold dict_get in *.
    pose proof (compute_sets_le _ _ _ Hc) as Hle.
    destruct (tbl d !! name) as [s|] eqn:E.
    - destruct (le_some _ _ Hle _ _ E) as (s1 & Hs1 & Hss). exists s.
      split; [done|]. assert (s1 = s') as -> by congruence.
      by rewrite (le_follow _ _ Hss).
    - apply (le_none _ _ Hle) in E. congruence. }
  split; [done|]. split; [done|].
  intros buffer h exps code name s Hp Hs.
  apply parse_buffer_Return in Hp as (hs & es & _ & -> & Hc).
  destruct (Hkeep _ _ _ _ _ Hc Hs) as (s0 & Hs0 & ->).
  apply (fresh_follow _ (process_expansions_fresh es _ _ Hs0)).
Qed.

(** ** Grammar errors (claim C3) *)

Lemma messages_differ (name tok : string) :
  spaceless tok -> collision_msg name ≠ undefined_msg tok.
Proof.
  intros Hsp H. specialize (Hsp " "%char eq_refl).
  unfold collision_msg, undefined_msg, ParsegenError in H.
  cbn [String.app] in H. injection H as H.
  do 10 (destruct tok as [|? tok]; cbn [String.app] in H;
         [discriminate H|
          injection H as <- H; cbn [PyStr.has_char Ascii.eqb Bool.eqb orb] in Hsp;
          try discriminate Hsp]).
Qed.

Lemma compute_sets_raises (h : Header) (d : dict) (e : exn) :
  _compute_sets_for_expansions h d = Raise e ->
  (∃ name, name_collides h d name ∧ e = GrammarError_exn (collision_msg name)) ∨
  (∃ tok, token_undefined h d tok ∧ e = GrammarError_exn (undefined_msg tok)).
Proof.
  intros H. pose proof (compute_sets_spec h d) as Hs. rewrite H in Hs.
  destruct Hs as [(name & symbol & Hi & Ht & ->)
                 |(name & symbol & exp & tok & Hi & He & Hin & Ht & Hd & ->)].
  - left. exists name. split; [by exists symbol|done].
  - right. exists tok. split; [by exists name, symbol, exp|done].
Qed.

Lemma compute_sets_returns (h : Header) (d d' : dict) :
  _compute_sets_for_expansions h d = Return d' ->
  (∀ name, ¬ name_collides h d name) ∧ (∀ tok, ¬ token_undefined h d tok).
Proof.
  intros H. pose proof (compute_sets_spec h d) as Hs. rewrite H in Hs.
  destruct Hs as (_ & Hc & Hd & _). split.
  - intros name (symbol & Hi & Ht). rewrite (Hc _ _ Hi) in Ht. done.
  - intros tok (name & symbol & exp & Hi & He & Hin & Ht & Hh).
    destruct (Hd _ _ _ Hi He _ Hin); congruence.
Qed.

Lemma undefined_spaceless (h : Header) (es tok : string) :
  token_undefined h (_process_expansions es) tok -> spaceless tok.
Proof.
  intros (name & symbol & exp & Hi%dict_items_lookup & He & Hin & _).
  by apply (fresh_tokens _ (process_expansions_fresh es _ _ Hi) exp).
Qed.

(** C3. [parse_buffer] raises a [GrammarError] exactly when the buffer has
    three sections and, in the header and rules read from them, some name
    with a production is also a terminal name or some token of some
    expansion is neither a terminal name nor a name with a production.
    The message is then "expansion for nonterminal NAME" for a colliding
    NAME, or "TOKEN is not defined as a terminal or nonterminal" for an
    undefined TOKEN, after the tag of the error kind; no message has both
    forms; and a call that raises returns no result. *)
Theorem grammar_error_iff_violation (buffer : string) :
  ((∃ msg, parse_buffer buffer = Raise (GrammarError_exn msg)) <->
   ∃ hs es code,
     PyStr.split "%%" buffer = [hs; es; code] ∧
     ((∃ name, name_collides (_process_header hs) (_process_expansions es) name) ∨
      (∃ tok, token_undefined (_process_header hs) (_process_expansions es) tok))) ∧
  (∀ msg, parse_buffer buffer = Raise (GrammarError_exn msg) ->
     ∃ hs es code,
       PyStr.split "%%" buffer = [hs; es; code] ∧
       ((∃ name, name_collides (_process_header hs) (_process_expansions es) name ∧
                 msg = collision_msg name) ∨
        (∃ tok, token_undefined (_process_header hs) (_process_expansions es) tok ∧
                msg = undefined_msg tok))) ∧
  (∀ hs es name tok,
     token_undefined (_process_header hs) (_process_expansions es) tok ->
     collision_msg name ≠ undefined_msg tok) ∧
  (∀ msg, parse_buffer buffer = Raise (GrammarError_exn msg) ->
          ∀ r, parse_buffer buffer ≠ Return r).
Proof.
  assert (∀ msg, parse_buffer buffer = Raise (GrammarError_exn msg) ->
     ∃ hs es code,
       PyStr.split "%%" buffer = [hs; es; code] ∧
       ((∃ name, name_collides (_process_header hs) (_process_expansions es) name ∧
                 msg = collision_msg name) ∨
        (∃ tok, token_undefined (_process_header hs) (_process_expansions es) tok ∧
                msg = undefined_msg tok))) as Hmsg.
  { intros msg H.
    destruct (decide (length (PyStr.split "%%" buffer) = 3)) as [Hlen|Hlen].
    2:{ by rewrite (parse_buffer_not_three _ Hlen) in H. }
    destruct (PyStr.split "%%" buffer) as [|hs [|es [|uc [|x l]]]] eqn:Hs;
      try discriminate Hlen.
    exists hs, es, uc. split; [done|].
    rewrite (parse_buffer_three _ _ _ _ Hs) in H.
    destruct (_compute_sets_for_expansions _ _) as [d'|e|] eqn:Hc; [done| |done].
    simpl in H. injection H as ->.
    apply compute_sets_raises in Hc
      as [(name & Hn & [= ->])|(tok & Ht & [= ->])]; eauto. }
  split; [|split; [done|split]].
  - split.
    + intros [msg H]. destruct (Hmsg msg H) as (hs & es & code & Hs & Hv).
      exists hs, es, code. split; [done|].
      destruct Hv as [(name & Hn & _)|(tok & Ht & _)]; eauto.
    + intros (hs & es & code & Hs & Hv).
      rewrite (parse_buffer_three _ _ _ _ Hs).
      destruct (_compute_sets_for_expansions _ _) as [d'|e|] eqn:Hc.
      * apply compute_sets_returns in Hc as [Hn Ht].
        destruct Hv as [[name Hv]|[tok Hv]]; [by apply Hn in Hv|by apply Ht in Hv].
      * simpl. apply compute_sets_raises in Hc
          as [(name & _ & ->)|(tok & _ & ->)]; by eexists.
      * pose proof (compute_sets_spec (_process_header hs)
                      (_process_expansions es)) as Hsp.
        by rewrite Hc in Hsp.
  - intros hs es name tok Ht. apply messages_differ.
    by apply (undefined_spaceless (_process_header hs) es).
  - intros msg H r. by rewrite H.
Qed.

(** ** The header processor (claim C9) *)

Lemma find_sep_char_None (c : ascii) (l : string) :
  PyStr.has_char c l = false -> PyStr.find_sep (String c EmptyString) l = None.
Proof.
  induction l as [|a l IH]; intros H; [done|].
  simpl in H. apply orb_false_iff in H as [Hc Hl].
  cbn [PyStr.find_sep PyStr.drop_prefix]. rewrite Hc. by rewrite (IH Hl).
Qed.

Lemma partition_char_absent (c : ascii) (l : string) :
  PyStr.has_char c l = false ->
  PyStr.partition (String c EmptyString) l = (l, EmptyString, EmptyString).
Proof. intros H. unfold PyStr.partition. by rewrite find_sep_char_None. Qed.

Lemma rstrip_idem (s : string) : PyStr.rstrip (PyStr.rstrip s) = PyStr.rstrip s.
Proof.
  induction s as [|c s IH]; [done|]. cbn [PyStr.rstrip].
  destruct (PyStr.is_space c && PyStr.is_empty (PyStr.rstrip s)) eqn:E; [done|].
  cbn [PyStr.rstrip]. rewrite IH. by rewrite E.
Qed.

Lemma lstrip_head (s : string) :
  PyStr.lstrip s = EmptyString ∨
  ∃ c u, PyStr.lstrip s = String c u ∧ PyStr.is_space c = false.
Proof.
  induction s as [|c s IH]; [by left|]. cbn [PyStr.lstrip].
  destruct (PyStr.is_space c) eqn:E; [done|]. right. by exists c, s.
Qed.

Lemma strip_idem (s : string) : PyStr.strip (PyStr.strip s) = PyStr.strip s.
Proof.
  unfold PyStr.strip. destruct (lstrip_head s) as [->|(c & u & -> & Hc)]; [done|].
  cbn [PyStr.rstrip]. rewrite Hc. cbn [andb PyStr.lstrip]. rewrite Hc.
  cbn [PyStr.rstrip]. rewrite Hc. cbn [andb]. by rewrite rstrip_idem.
Qed.

Lemma processed_lines_elem (text l : string) :
  l ∈ _processed_lines text <->
  l ≠ EmptyString ∧ ∃ raw, raw ∈ PyStr.split PyStr.NL text ∧ l = clean_line raw.
Proof.
  unfold _processed_lines. rewrite list_elem_of_filter, list_elem_of_fmap.
  split; intros [Hne (raw & H1 & H2)]; (split; [done|]); by exists raw.
Qed.

Lemma processed_line_stripped (text l : string) :
  l ∈ _processed_lines text -> PyStr.strip l = l.
Proof.
  intros (_ & raw & _ & ->)%processed_lines_elem. apply strip_idem.
Qed.

Lemma kv_without_sep (l : string) :
  PyStr.has_char "="%char l = false ->
  _kv_with_sep l "=" = (PyStr.strip l, EmptyString).
Proof.
  intros H. unfold _kv_with_sep. by rewrite partition_char_absent.
Qed.

Lemma has_char_drop1 (c : ascii) (l : string) :
  PyStr.has_char c l = false -> PyStr.has_char c (PyStr.drop1 l) = false.
Proof.
  destruct l as [|a l]; [done|]. simpl. by intros [_ ?]%orb_false_iff.
Qed.

Lemma header_line_no_sep (acc : gmap string string * gmap string string)
    (l : string) :
  PyStr.has_char "="%char l = false ->
  _process_header_line acc l =
    if decide (PyStr.take1 l = "%")
    then (acc.1, <[PyStr.strip (PyStr.drop1 l) := EmptyString]> acc.2)
    else (<[PyStr.strip l := EmptyString]> acc.1, acc.2).
Proof.
  intros H. unfold _process_header_line, _add_opt_to_dict.
  rewrite (kv_without_sep l H), (kv_without_sep _ (has_char_drop1 _ _ H)).
  done.
Qed.

Lemma header_line_lookup (acc : gmap string string * gmap string string)
    (l k : string) :
  (is_Some (acc.1 !! k) -> is_Some ((_process_header_line acc l).1 !! k)) ∧
  (is_Some (acc.2 !! k) -> is_Some ((_process_header_line acc l).2 !! k)) ∧
  (PyStr.take1 l = "%" ∨ header_key l ≠ k ->
   (_process_header_line acc l).1 !! k = acc.1 !! k) ∧
  (PyStr.take1 l ≠ "%" ∨ header_key l ≠ k ->
   (_process_header_line acc l).2 !! k = acc.2 !! k).
Proof.
  unfold _process_header_line, header_key, _add_opt_to_dict.
  destruct (decide (PyStr.take1 l = "%")) as [Hp|Hp].
  - destruct (_kv_with_sep (PyStr.drop1 l) "=") as [key val]. simpl.
    split; [done|]. split; [|split; [done|]].
    + rewrite lookup_insert. by case_decide.
    + intros [?|Hk]; [done|]. by rewrite lookup_insert_ne.
  - destruct (_kv_with_sep l "=") as [key val]. simpl.
    split; [|split; [done|split; [|done]]].
    + rewrite lookup_insert. by case_decide.
    + intros [?|Hk]; [done|]. by rewrite lookup_insert_ne.
Qed.

Lemma header_fold_lookup (post : list string) :
  ∀ (acc : gmap string string * gmap string string) (k : string),
    (is_Some (acc.1 !! k) ->
     is_Some ((foldl _process_header_line acc post).1 !! k)) ∧
    (is_Some (acc.2 !! k) ->
     is_Some ((foldl _process_header_line acc post).2 !! k)) ∧
    ((∀ l, l ∈ post -> PyStr.take1 l ≠ "%" -> header_key l ≠ k) ->
     (foldl _process_header_line acc post).1 !! k = acc.1 !! k) ∧
    ((∀ l, l ∈ post -> PyStr.take1 l = "%" -> header_key l ≠ k) ->
     (foldl _process_header_line acc post).2 !! k = acc.2 !! k).
Proof.
  induction post as [|l post IH]; intros acc k; simpl; [done|].
  destruct (IH (_process_header_line acc l) k) as (I1 & I2 & I3 & I4).
  destruct (header_line_lookup acc l k) as (S1 & S2 & S3 & S4).
  split; [auto|]. split; [auto|]. split.
  - intros Hk. rewrite I3, S3; [done| |].
    + destruct (decide (PyStr.take1 l = "%")); [by left|right].
      apply Hk; [by left|done].
    + intros l' Hl'. apply Hk. by right.
  - intros Hk. rewrite I4, S4; [done| |].
    + destruct (decide (PyStr.take1 l = "%")); [right|by left].
      apply Hk; [by left|done].
    + intros l' Hl'. apply Hk. by right.
Qed.

(** C9. [_process_header] returns a header for every text: it is the fold
    of [_process_header_line] over the processed lines.  A processed line
    [l] (non-blank, comment removed, trimmed) without [=] is stored as a key
    with the empty string as its value: in the options when [l] begins with
    [%], the key being [l] without the marker, trimmed; in the terminals
    otherwise, the key being [l] itself.  The key is in the returned header,
    with the empty value unless a later line of the same kind has the same
    key. *)
Theorem header_line_without_separator (text : string) (pre post : list string)
    (l : string) :
  _processed_lines text = (pre ++ l :: post)%list ->
  PyStr.has_char "="%char l = false ->
  let before := foldl _process_header_line (∅, ∅) pre in
  let after := _process_header_line before l in
  let final := foldl _process_header_line after post in
  _process_header text = mkHeader final.1 final.2 ∧
  PyStr.strip l = l ∧
  (PyStr.take1 l = "%" ->
   let key := PyStr.strip (PyStr.drop1 l) in
   after = (before.1, <[key := EmptyString]> before.2) ∧
   is_Some (options (_process_header text) !! key) ∧
   ((∀ l', l' ∈ post -> PyStr.take1 l' = "%" -> header_key l' ≠ key) ->
    options (_process_header text) !! key = Some EmptyString)) ∧
  (PyStr.take1 l ≠ "%" ->
   after = (<[l := EmptyString]> before.1, before.2) ∧
   is_Some (terminals (_process_header text) !! l) ∧
   ((∀ l', l' ∈ post -> PyStr.take1 l' ≠ "%" -> header_key l' ≠ l) ->
    terminals (_process_header text) !! l = Some EmptyString)).
Proof.
  intros Hl Hsep before after final.
  assert (PyStr.strip l = l) as Hstrip.
  { apply (processed_line_stripped text). rewrite Hl.
    apply elem_of_app. right. by left. }
  assert (_process_header text = mkHeader final.1 final.2) as Hfinal.
  { unfold _process_header. rewrite Hl, foldl_app. done. }
  split; [done|]. split; [done|].
  pose proof (header_line_no_sep before l Hsep) as Hstep.
  fold after in Hstep. rewrite Hstrip in Hstep. split; intros Hp.
  - rewrite decide_True in Hstep by done. intros key. split; [done|].
    rewrite Hfinal. simpl.
    destruct (header_fold_lookup post after key) as (_ & I2 & _ & I4).
    assert (after.2 !! key = Some EmptyString) as Hk
      by (rewrite Hstep; simpl; apply lookup_insert_eq).
    split; [apply I2; by rewrite Hk|].
    intros Hlater. unfold final. by rewrite I4.
  - rewrite decide_False in Hstep by done. split; [done|].
    rewrite Hfinal. simpl.
    destruct (header_fold_lookup post after l) as (I1 & _ & I3 & _).
    assert (after.1 !! l = Some EmptyString) as Hk
      by (rewrite Hstep; simpl; apply lookup_insert_eq).
    split; [apply I1; by rewrite Hk|].
    intros Hlater. unfold final. by rewrite I3.
Qed.

Lemma header_line_without_separator_witness :
  _processed_lines header_text_permissive =
    (["TOKEN = Tok_TOKEN"] ++ "FUZZBAZ" :: ["%language = c"; "%debug"])%list ∧
  PyStr.has_char "="%char "FUZZBAZ" = false ∧
  terminals (_process_header header_text_permissive) !! "FUZZBAZ"
    = Some EmptyString.
Proof.
  assert (_processed_lines header_text_permissive =
    (["TOKEN = Tok_TOKEN"] ++ "FUZZBAZ" :: ["%language = c"; "%debug"])%list)
    as H1 by (vm_compute; reflexivity).
  assert (PyStr.has_char "="%char "FUZZBAZ" = false) as H2 by reflexivity.
  split; [exact H1|]. split; [exact H2|].
  destruct (header_line_without_separator _ _ _ _ H1 H2) as (_ & _ & _ & Ht).
  apply Ht; [discriminate|]. intros l' Hl' Hp.
  apply elem_of_cons in Hl' as [->|Hl']; [by destruct Hp|].
  apply list_elem_of_singleton in Hl' as ->. by destruct Hp.
Defined.

Example header_option_without_value :
  options (_process_header header_text_permissive) !! "debug"
    = Some EmptyString.
Proof. vm_compute. reflexivity. Qed.

(** ** The dict built by [_process_expansions] *)

Lemma dict_set_wf (d : dict) (k : string) (v : Symbol) :
  dict_wf d -> dict_wf (dict_set d k v).
Proof.
  intros Hd j. unfold dict_set. simpl. rewrite lookup_insert.
  destruct (dict_has d k) eqn:Hk.
  - apply dict_has_true in Hk. rewrite (Hd j). case_decide as E; [|done].
    subst j. split; [by eexists|done].
  - apply not_true_iff_false in Hk. rewrite dict_has_true in Hk.
    rewrite elem_of_app, list_elem_of_singleton, (Hd j). case_decide as E.
    + subst j. split; [by eexists|by right].
    + split; [by intros [H|H]|by left].
Qed.

Lemma process_expansions_wf (es : string) : dict_wf (_process_expansions es).
Proof.
  unfold _process_expansions.
  assert (dict_wf dict_empty) as H0.
  { intros k. simpl. rewrite lookup_empty. split; [by intros H%elem_of_nil|].
    by intros [? ?]. }
  revert H0. generalize dict_empty. generalize (_processed_lines es).
  intros l. induction l as [|x l IH]; intros d Hd; simpl; [done|].
  apply IH. unfold _process_expansions_line.
  destruct (_kv_with_sep x ":=") as [sym exp]. by apply dict_set_wf.
Qed.

Lemma dict_wf_le (d d' : dict) : dict_le d d' -> dict_wf d -> dict_wf d'.
Proof.
  intros Hle Hd k. rewrite <- (le_keys _ _ Hle), (Hd k).
  rewrite <- !dict_has_true. by rewrite (dict_le_has d d').
Qed.

Lemma dict_wf_items (d : dict) (k : string) (s : Symbol) :
  dict_wf d -> tbl d !! k = Some s -> (k, s) ∈ dict_items d.
Proof.
  intros Hd Hs. apply list_elem_of_omap. exists k. split.
  - apply Hd. by eexists.
  - by rewrite Hs.
Qed.

(** ** The code emitter: epsilon expansions (claim C10) *)

Section emitter_facts.

Variable set_iter : gset string -> list string.

Lemma get_counts_drop_epsilon (h : Header) (s : Symbol) :
  _get_counts h (drop_epsilon s) = _get_counts h s.
Proof.
  unfold _get_counts. simpl. generalize 0%nat.
  induction (expansions s) as [|e l IH]; intros n; [done|].
  rewrite filter_cons. case_decide as E.
  - simpl. apply IH.
  - destruct e as [|x e']; [|done]. simpl. apply IH.
Qed.

Lemma bodies_drop_epsilon (h : Header) (exps : dict) (name : string)
    (l : list (list string)) :
  ∀ file,
    foldM (fun file expansion =>
             _write_body_for_expansion set_iter h exps name expansion file)
          file (filter (fun e => e ≠ []) l)
    = foldM (fun file expansion =>
               _write_body_for_expansion set_iter h exps name expansion file)
            file l.
Proof.
  induction l as [|e l IH]; intros file; [done|].
  rewrite filter_cons. case_decide as E.
  - simpl. destruct (_write_body_for_expansion _ _ _ _ _ _); simpl; auto.
  - destruct e as [|x e']; [|done]. simpl. apply IH.
Qed.

Lemma write_symbol_drop_epsilon (h : Header) (exps : dict)
    (file : list string) (name : string) (s : Symbol) :
  write_symbol set_iter h exps file (name, drop_epsilon s)
  = write_symbol set_iter h exps file (name, s).
Proof.
  unfold write_symbol, _write_symbol_function_begin. simpl.
  rewrite get_counts_drop_epsilon. by rewrite bodies_drop_epsilon.
Qed.

Lemma write_body_drop_epsilon (h : Header) (exps : dict) (name : string)
    (expansion file : list string) :
  _write_body_for_expansion set_iter h (dict_drop_epsilon exps) name
    expansion file
  = _write_body_for_expansion set_iter h exps name expansion file.
Proof.
  destruct expansion as [|e0 rest]; [done|]. simpl.
  destruct (is_terminal h e0); [done|].
  unfold dict_item. simpl. rewrite lookup_fmap.
  by destruct (tbl exps !! e0).
Qed.

Lemma dict_items_drop_epsilon (d : dict) :
  dict_items (dict_drop_epsilon d)
  = (fun item => (item.1, drop_epsilon item.2)) <$> dict_items d.
Proof.
  unfold dict_items. simpl. induction (keys d) as [|k l IH]; [done|].
  simpl. rewrite lookup_fmap. destruct (tbl d !! k); simpl.
  - f_equal. exact IH.
  - exact IH.
Qed.

Lemma bodies_dict_drop_epsilon (h : Header) (exps : dict) (name : string)
    (l : list (list string)) :
  ∀ file,
    foldM (fun file expansion =>
             _write_body_for_expansion set_iter h (dict_drop_epsilon exps)
               name expansion file)
          file l
    = foldM (fun file expansion =>
               _write_body_for_expansion set_iter h exps name expansion file)
            file l.
Proof.
  induction l as [|e l IH]; intros file; [done|].
  simpl. rewrite write_body_drop_epsilon.
  destruct (_write_body_for_expansion _ _ _ _ _ _); simpl; auto.
Qed.

Lemma write_symbol_dict_drop_epsilon (h : Header) (exps : dict)
    (file : list string) (item : string * Symbol) :
  write_symbol set_iter h (dict_drop_epsilon exps) file item
  = write_symbol set_iter h exps file item.
Proof. unfold write_symbol. by rewrite bodies_dict_drop_epsilon. Qed.

Lemma write_expansions_drop_epsilon (h : Header) (exps : dict)
    (file : list string) :
  _write_expansions_to_file set_iter h (dict_drop_epsilon exps) file
  = _write_expansions_to_file set_iter h exps file.
Proof.
  unfold _write_expansions_to_file. rewrite dict_items_drop_epsilon.
  generalize (_write_section_header "main automaton" file).
  induction (dict_items exps) as [|[name s] l IH]; intros f; [done|].
  cbn [fmap list_fmap foldM fst snd].
  rewrite write_symbol_dict_drop_epsilon, write_symbol_drop_epsilon.
  destruct (write_symbol set_iter h exps f (name, s)); simpl; auto.
Qed.

End emitter_facts.

(** C10. For an empty expansion [_write_body_for_expansion] returns the
    file as it received it: no case label, no step and no action call are
    written.  The empty expansions of a symbol leave no trace in what
    [_write_expansions_to_file] emits: the output is the one obtained from
    the symbols with their empty expansions removed. *)
Theorem epsilon_expansion_emits_nothing :
  (∀ set_iter h exps name file,
      _write_body_for_expansion set_iter h exps name [] file = Return file) ∧
  (∀ set_iter h exps file name s,
      write_symbol set_iter h exps file (name, s)
      = write_symbol set_iter h exps file (name, drop_epsilon s)) ∧
  (∀ set_iter h exps file,
      _write_expansions_to_file set_iter h exps file
      = _write_expansions_to_file set_iter h (dict_drop_epsilon exps) file).
Proof.
  split; [done|]. split.
  - intros. by rewrite write_symbol_drop_epsilon.
  - intros. by rewrite write_expansions_drop_epsilon.
Qed.

(** ** The code emitter: predicting sets (claim C7) *)

Lemma write_cases_spec (h : Header) (terms vals : list string) :
  Forall2 (fun term v => terminals h !! term = Some v) terms vals ->
  ∀ file, write_cases h terms file
          = Return (file ++ (case_label <$> vals))%list.
Proof.
  unfold write_cases. induction 1 as [|term v terms vals Hv _ IH]; intros file.
  - simpl. by rewrite app_nil_r.
  - simpl. unfold terminal_item. rewrite Hv. simpl. rewrite IH.
    unfold write. by rewrite <- app_assoc.
Qed.

Lemma terminal_values (h : Header) (terms : list string) :
  (∀ t, t ∈ terms -> is_terminal h t = true) ->
  ∃ vals, Forall2 (fun term v => terminals h !! term = Some v) terms vals.
Proof.
  induction terms as [|t terms IH]; intros H; [by exists []|].
  destruct IH as [vals Hvals]; [intros t' Ht'; apply H; by right|].
  destruct (proj1 (is_terminal_true h t) (H t (list_elem_of_here _ _)))
    as [v Hv].
  exists (v :: vals). by constructor.
Qed.

Lemma write_tokens_spec (h : Header) (expansion : list string) :
  ∀ (file params : list string) (node : nat),
    ∃ body params' node',
      foldl (write_token h) (file, params, node) expansion
      = ((file ++ body)%list, params', node') ∧
      Forall (fun w => PyStr.drop_prefix (PyStr.TAB ++ "case ") w = None) body.
Proof.
  induction expansion as [|sym expansion IH]; intros file params node.
  - exists [], params, node. by rewrite app_nil_r.
  - simpl. destruct (terminals h !! sym) as [v|].
    + destruct (IH (write file (eat_step v)) (params ++ [v])%list node)
        as (body & params' & node' & -> & Hb).
      exists (eat_step v :: body), params', node'. unfold write.
      rewrite <- app_assoc. split; [done|]. by constructor.
    + set (tmp := "nodes[" ++ PyStr.of_nat node ++ "]").
      destruct (IH (write file (call_step tmp sym)) (params ++ [tmp])%list (S node))
        as (body & params' & node' & -> & Hb).
      exists (call_step tmp sym :: body), params', node'. unfold write.
      rewrite <- app_assoc. split; [done|]. by constructor.
Qed.

(** C7. For a non-empty expansion of a symbol of an analysed grammar, the
    emitter writes one case label per element of the predicting set and no
    other case label: the predicting set is the single first token when
    that token is a terminal, and otherwise the FIRST set of the first
    token alone, whatever the later tokens and whether or not the first
    token is nullable.  The labels carry the emission values of the
    terminals, in the order in which the set is visited. *)
Theorem predicting_set_of_expansion (set_iter : gset string -> list string)
    (buffer : string) (h : Header) (exps : dict) (code name : string)
    (s : Symbol) (e0 : string) (rest file : list string) :
  (∀ X, set_iter X ≡ₚ elements X) ->
  parse_buffer buffer = Return (h, exps, code) ->
  dict_get exps name = Some s ->
  (e0 :: rest) ∈ expansions s ->
  ∃ (predicting : gset string) (terms vals body : list string),
    (if is_terminal h e0 then predicting = {[ e0 ]}
     else ∃ t, dict_get exps e0 = Some t ∧ predicting = first t) ∧
    terms ≡ₚ elements predicting ∧
    Forall2 (fun term v => terminals h !! term = Some v) terms vals ∧
    _write_body_for_expansion set_iter h exps name (e0 :: rest) file
    = Return (file ++ (case_label <$> vals) ++ body)%list ∧
    Forall (fun w => PyStr.drop_prefix (PyStr.TAB ++ "case ") w = None) body.
Proof.
  intros Hiter Hp Hs He. unfold dict_get in *.
  apply parse_buffer_Return in Hp as (hs & es & _ & -> & Hc).
  set (h := _process_header hs) in *.
  pose proof (compute_sets_spec h (_process_expansions es)) as Hsp.
  rewrite Hc in Hsp. destruct Hsp as (Hle & _ & Hdef & _).
  apply (all_defined_le h _ exps Hle) in Hdef.
  pose proof (dict_wf_le _ _ Hle (process_expansions_wf es)) as Hwf.
  pose proof (compute_sets_bounded h (dom (terminals h)) _ _ (reflexivity _)
                (fresh_bounded _ _ (process_expansions_fresh es)) Hc) as Hb.
  pose proof (Hdef _ _ _ (dict_wf_items _ _ _ Hwf Hs) He e0
                (list_elem_of_here _ _)) as He0.
  assert (∃ predicting terms,
    (if is_terminal h e0 then predicting = {[ e0 ]}
     else ∃ t, tbl exps !! e0 = Some t ∧ predicting = first t) ∧
    terms ≡ₚ elements predicting ∧
    (∀ t, t ∈ terms -> is_terminal h t = true) ∧
    (if is_terminal h e0 then Return [e0]
     else symbol ← dict_item exps e0; Return (set_iter (first symbol)))
    = Return terms) as (predicting & terms & Hpred & Hperm & Hterm & Hterms).
  { destruct (is_terminal h e0) eqn:Ht.
    - exists {[ e0 ]}, [e0]. split; [done|]. split; [by rewrite elements_singleton|].
      split; [|done]. by intros t ->%list_elem_of_singleton.
    - destruct He0 as [|Hd]; [done|]. apply dict_has_true in Hd as [t Ht0].
      exists (first t), (set_iter (first t)). split; [by exists t|].
      split; [apply Hiter|]. split; [|by rewrite (dict_item_Some _ _ _ Ht0)].
      intros x Hx. rewrite Hiter in Hx. apply elem_of_elements in Hx.
      apply is_terminal_true, elem_of_dom. by apply (Hb _ _ Ht0). }
  destruct (terminal_values h terms Hterm) as [vals Hvals].
  destruct (write_tokens_spec h (e0 :: rest)
              (file ++ (case_label <$> vals))%list [] 0%nat)
    as (body & params & node & Hbody & Hnocase).
  exists predicting, terms, vals,
    (body ++ [action_call name params; break_step])%list.
  split; [done|]. split; [done|]. split; [done|]. split.
  - unfold _write_body_for_expansion. rewrite Hterms.
    cbn [mbind result_mbind result_bind].
    rewrite (write_cases_spec h terms vals Hvals).
    cbn [mbind result_mbind result_bind]. rewrite Hbody. unfold write.
    by rewrite <- !app_assoc.
  - apply Forall_app. split; [done|]. by repeat constructor.
Qed.

Lemma predicting_set_of_expansion_witness :
  ∃ h exps code s,
    (∀ X : gset string, elements X ≡ₚ elements X) ∧
    parse_buffer grammar_example = Return (h, exps, code) ∧
    dict_get exps "main" = Some s ∧
    ["baz"; "bar_prime"; "BAZ"] ∈ expansions s ∧
    ∃ (predicting : gset string) (terms vals body : list string),
      (if is_terminal h "baz" then predicting = {[ "baz" ]}
       else ∃ t, dict_get exps "baz" = Some t ∧ predicting = first t) ∧
      terms ≡ₚ elements predicting ∧
      Forall2 (fun term v => terminals h !! term = Some v) terms vals ∧
      _write_body_for_expansion elements h exps "main"
        ["baz"; "bar_prime"; "BAZ"] []
      = Return ([] ++ (case_label <$> vals) ++ body)%list ∧
      Forall (fun w => PyStr.drop_prefix (PyStr.TAB ++ "case ") w = None) body.
Proof.
  eexists _, _, _, _. split; [done|].
  split; [vm_compute; reflexivity|].
  split; [vm_compute; reflexivity|].
  split; [apply list_elem_of_here|].
  eapply (predicting_set_of_expansion elements grammar_example _ _ _ "main").
  - done.
  - vm_compute; reflexivity.
  - vm_compute; reflexivity.
  - apply list_elem_of_here.
Defined.

(** ** FIRST sets (claim C1) *)

(** What the engine does compute is sound: a FIRST set only holds
    terminals that begin a derivation, and a raised flag only marks a
    symbol that derives the empty sequence. *)

Lemma production_le (d d' : dict) (name : string) (exp : list string) :
  dict_le d d' -> production d name exp -> production d' name exp.
Proof.
  intros Hle (s & Hi & He).
  destruct (dict_le_items_fwd _ _ _ _ Hle Hi) as (s' & Hi' & Hss).
  exists s'. split; [done|]. by rewrite <- (le_expansions _ _ Hss).
Qed.

Lemma derives_le (d d' : dict) (u w : list string) :
  dict_le d d' -> derives d u w -> derives d' u w.
Proof.
  intros Hle. induction 1 as [w|u name exp v w Hp _ IH].
  - apply derives_refl.
  - eapply derives_step; [by eapply production_le|done].
Qed.

Lemma derives_trans (d : dict) (u v w : list string) :
  derives d u v -> derives d v w -> derives d u w.
Proof.
  induction 1 as [v|u name exp v0 v Hp _ IH]; intros Hvw; [done|].
  eapply derives_step; [done|]. by apply IH.
Qed.

Lemma derives_ctx (d : dict) (p q u w : list string) :
  derives d u w -> derives d (p ++ u ++ q)%list (p ++ w ++ q)%list.
Proof.
  induction 1 as [w|u name exp v w Hp _ IH]; [apply derives_refl|].
  replace (p ++ (u ++ name :: v) ++ q)%list
    with ((p ++ u) ++ name :: (v ++ q))%list
    by (by rewrite <- !app_assoc).
  eapply derives_step; [done|].
  replace ((p ++ u) ++ exp ++ v ++ q)%list
    with (p ++ (u ++ exp ++ v) ++ q)%list
    by (by rewrite <- !app_assoc).
  done.
Qed.

Lemma derives_all_nil (d : dict) (pre : list string) :
  (∀ e, e ∈ pre -> derives d [e] []) -> derives d pre [].
Proof.
  induction pre as [|e pre IH]; intros H; [apply derives_refl|].
  apply (derives_trans d _ pre).
  - apply (derives_ctx d [] pre [e] []). apply H. by left.
  - apply IH. intros e' He'. apply H. by right.
Qed.

Lemma production_derives (d : dict) (name : string) (s : Symbol)
    (exp : list string) :
  dict_wf d -> tbl d !! name = Some s -> exp ∈ expansions s ->
  derives d [name] exp.
Proof.
  intros Hwf Hs He. apply (derives_step d [] name exp [] exp).
  - exists s. split; [by apply dict_wf_items|done].
  - rewrite app_nil_r. apply derives_refl.
Qed.

Lemma sets_sound_write (h : Header) (d : dict) (k : string) (s s' : Symbol) :
  sets_sound h d -> tbl d !! k = Some s -> sym_le s s' ->
  (nullable s' = true -> nullable s = true ∨ derives d [k] []) ->
  (∀ t, t ∈ first s' -> t ∈ first s ∨ spec_first h d k t) ->
  sets_sound h (obj_write d k s').
Proof.
  intros [Hwf Hne Hnull Hfirst] Hs Hss Hn Hf.
  assert (dict_le d (obj_write d k s')) as Hle by by eapply obj_write_le.
  split.
  - by apply (dict_wf_le d).
  - intros j t. simpl. rewrite lookup_insert. case_decide as E; [|apply Hne].
    intros [= <-]. rewrite <- (le_expansions _ _ Hss). by apply (Hne k).
  - intros j t. simpl. rewrite lookup_insert. case_decide as E.
    + intros [= <-] Hflag. subst j. apply (derives_le d); [done|].
      destruct (Hn Hflag) as [Hold|Hnew]; [by apply (Hnull k s)|done].
    + intros Ht Hflag. apply (derives_le d); [done|]. by apply (Hnull j t).
  - intros j t x. simpl. rewrite lookup_insert. case_decide as E.
    + intros [= <-] Hx. subst j.
      assert (spec_first h d k x) as [Hterm [w Hw]]
        by (destruct (Hf x Hx) as [Hold|Hnew]; [by apply (Hfirst k s)|done]).
      split; [done|]. exists w. by apply (derives_le d).
    + intros Ht Hx. destruct (Hfirst j t x Ht Hx) as [Hterm [w Hw]].
      split; [done|]. exists w. by apply (derives_le d).
Qed.

Lemma first_scan_sound (h : Header) (name : string) (rest : list string) :
  ∀ (pre : list string) (d : dict) (ch : bool) (d' : dict) (ch' : bool),
    sets_sound h d -> owns d (name, (pre ++ rest)%list) ->
    (∀ e, e ∈ pre -> derives d [e] []) ->
    first_scan h name rest d ch = Return (d', ch') -> sets_sound h d'.
Proof.
  induction rest as [|e rest IH]; intros pre d ch d' ch' Hd Ho Hpre H;
    simpl in H.
  - apply bind_Return in H as (symbol & Hs%dict_item_Return & H).
    destruct (is_nullable symbol); simpl in H; injection H as <- <-; [done|].
    apply (sets_sound_write h d name symbol);
      [done|done|apply sym_le_set_nullable| |by left].
    intros _. right. destruct Ho as (s & Hs' & He). simpl in *.
    rewrite app_nil_r in He. assert (s = symbol) as -> by congruence.
    apply (derives_trans d _ pre); [|by apply derives_all_nil].
    by apply (production_derives d name symbol pre (sound_wf _ _ Hd)).
  - destruct (is_terminal h e) eqn:Hterm; [by injection H as <- <-|].
    apply bind_Return in H as (other & Ho1%dict_item_Return & H).
    apply bind_Return in H as (symbol & Hs%dict_item_Return & H).
    apply bind_Return in H as (other' & Ho2%dict_item_Return & H).
    set (st := if negb (bool_decide (first other ⊆ first symbol))
               then (obj_write d name (add_first symbol (first other)), true)
               else (d, ch)) in *.
    assert (dict_le d st.1 ∧ sets_sound h st.1) as [Hle Hd1].
    { subst st. destruct (negb _); simpl; [|split; [apply dict_le_refl|done]].
      split; [eapply obj_write_le; eauto using sym_le_add_first|].
      apply (sets_sound_write h d name symbol);
        [done|done|apply sym_le_add_first|by left|].
      intros t. simpl. unfold _union_set_with_values.
      intros [Ht|Ht]%elem_of_union; [by left|right].
      destruct (sound_first _ _ Hd e other t Ho1 Ht) as [Htt [w Hw]].
      split; [done|]. exists (w ++ rest)%list.
      destruct Ho as (s & Hs' & He). simpl in *.
      assert (s = symbol) as -> by congruence.
      apply (derives_trans d _ (pre ++ e :: rest)%list);
        [by apply (production_derives d name symbol _ (sound_wf _ _ Hd))|].
      apply (derives_trans d _ (e :: rest)).
      - apply (derives_ctx d [] (e :: rest) pre []).
        by apply derives_all_nil.
      - apply (derives_ctx d [] rest [e] (t :: w) Hw). }
    destruct (is_nullable other') eqn:Hn; simpl in H.
    2:{ injection H as H. assert (d' = st.1) as -> by (by rewrite H). done. }
    apply (IH (pre ++ [e])%list) in H; [done|done| |].
    + rewrite <- app_assoc. simpl. by apply (owns_le d).
    + intros e' [He'|He']%elem_of_app.
      * apply (derives_le d); [done|]. by apply Hpre.
      * apply list_elem_of_singleton in He' as ->.
        apply (sound_nullable _ _ Hd1 e other' Ho2).
        unfold is_nullable in Hn.
        pose proof (sound_nonempty _ _ Hd1 e other' Ho2).
        by destruct (expansions other').
Qed.

Lemma compute_sets_sound (h : Header) (d d' : dict) :
  sets_sound h d -> _compute_sets_for_expansions h d = Return d' ->
  sets_sound h d'.
Proof.
  intros Hd H. unfold _compute_sets_for_expansions in H.
  apply bind_Return in H as (d1 & Hi & Hw).
  apply (while_changed_inv h (sets_sound h)) in Hw; [done| |].
  - intros name exp d2 ch d3 ch' Ho Hd2.
    apply (first_scan_sound h name exp []); [done|done|].
    intros e He. by apply elem_of_nil in He.
  - apply (initialise_inv h (sets_sound h)) in Hi; [done| |done].
    intros d2 k s e0 rest Hd2 Hs He Ht.
    apply (sets_sound_write h d2 k s);
      [done|done|apply sym_le_add_first|by left|].
    intros t. simpl. unfold _union_set_with_values.
    intros [Hx|Hx]%elem_of_union; [by left|right].
    assert (t = e0) as -> by set_solver.
    split; [done|]. exists rest.
    by apply (production_derives d2 k s _ (sound_wf _ _ Hd2)).
Qed.

Lemma fresh_sets_sound (h : Header) (es : string) :
  sets_sound h (_process_expansions es).
Proof.
  pose proof (process_expansions_fresh es) as Hf.
  pose proof (process_expansions_wf es) as Hwf.
  split; [done| | |].
  - intros k s Hs. apply (fresh_expansions _ (Hf _ _ Hs)).
  - intros k s Hs Hn. apply (production_derives _ k s); [done|done|].
    by apply (fresh_nullable _ (Hf _ _ Hs)).
  - intros k s t Hs. rewrite (fresh_first _ (Hf _ _ Hs)). set_solver.
Qed.

(** After the analysis of a grammar text, every member of a FIRST set is a
    terminal that begins a derivation of the symbol, and every symbol that
    reports nullable derives the empty sequence. *)
Lemma analysis_sound (buffer : string) (h : Header) (exps : dict)
    (code name : string) (s : Symbol) :
  parse_buffer buffer = Return (h, exps, code) ->
  dict_get exps name = Some s ->
  (∀ t, t ∈ first s -> spec_first h exps name t) ∧
  (is_nullable s = true -> derives exps [name] []).
Proof.
  intros Hp Hs. apply parse_buffer_Return in Hp as (hs & es & _ & -> & Hc).
  pose proof (compute_sets_sound _ _ _ (fresh_sets_sound _ es) Hc) as Hd.
  split.
  - intros t. by apply (sound_first _ _ Hd).
  - intros Hn. apply (sound_nullable _ _ Hd name s Hs).
    unfold is_nullable in Hn. pose proof (sound_nonempty _ _ Hd name s Hs).
    by destruct (expansions s).
Qed.

(** C1 fails on the code.  For the grammar [A := B x], [B := ] with the
    terminal [x], the analysis returns with [B] nullable and the FIRST set
    of [A] empty, although [x] is the first token of the derivation
    [A => B x => x].  The scan of [_update_first_from_expansion] stops at
    the terminal [x] without adding it. *)
Theorem first_misses_terminal_after_nullable_prefix :
  ∃ h exps code a b,
    parse_buffer nullable_prefix_example = Return (h, exps, code) ∧
    dict_get exps "A" = Some a ∧ dict_get exps "B" = Some b ∧
    expansions a = [["B"; "x"]] ∧ expansions b = [[]] ∧
    is_nullable b = true ∧ is_terminal h "x" = true ∧
    first a = ∅ ∧
    spec_first h exps "A" "x".
Proof.
  eexists _, _, _, _, _. split; [vm_compute; reflexivity|].
  split; [vm_compute; reflexivity|]. split; [vm_compute; reflexivity|].
  split; [reflexivity|]. split; [reflexivity|]. split; [reflexivity|].
  split; [vm_compute; reflexivity|]. split; [vm_compute; reflexivity|].
  split; [vm_compute; reflexivity|]. exists [].
  apply (derives_step _ [] "A" ["B"; "x"] []).
  { eexists. split.
    - apply list_elem_of_In. vm_compute. left. reflexivity.
    - apply list_elem_of_here. }
  apply (derives_step _ [] "B" [] ["x"]); [|apply derives_refl].
  eexists. split.
  - apply list_elem_of_In. vm_compute. right. left. reflexivity.
  - apply list_elem_of_here.
Qed.

(** ** The tests of the repository, replayed on the embedding *)

Example test_parse_buffer_empty_sections :
  ∃ h exps, parse_buffer " %% %% " = Return (h, exps, " ").
Proof. eexists _, _. vm_compute. reflexivity. Qed.

Example test_parse_buffer_errors :
  parse_buffer " %% %% %% "
    = Raise (ParseError "expected 3 sections but found 4") ∧
  parse_buffer " %% "
    = Raise (ParseError "expected 3 sections but found 2").
Proof. split; vm_compute; reflexivity. Qed.

Example test_expansion_creation :
  ∃ h exps code main bar bar_prime baz,
    parse_buffer grammar_example = Return (h, exps, code) ∧
    keys exps = ["main"; "bar"; "bar_prime"; "baz"] ∧
    dict_get exps "main" = Some main ∧ dict_get exps "bar" = Some bar ∧
    dict_get exps "bar_prime" = Some bar_prime ∧
    dict_get exps "baz" = Some baz ∧
    length (expansions main) = 1 ∧ length (expansions bar) = 1 ∧
    length (expansions bar_prime) = 2 ∧ length (expansions baz) = 2 ∧
    is_nullable main = false ∧ is_nullable bar = false ∧
    is_nullable bar_prime = true ∧ is_nullable baz = true ∧
    first main = {[ "FOO"; "BAZ" ]} ∧ first bar = {[ "FOO" ]} ∧
    first bar_prime = {[ "FOO" ]} ∧ first baz = {[ "BAZ"; "FOO" ]} ∧
    follow main = ∅.
Proof.
  eexists _, _, _, _, _, _, _. split; [vm_compute; reflexivity|].
  repeat split; vm_compute; reflexivity.
Qed.

Example test_invalid_expansions :
  parse_buffer " %% main := TOKEN %% "
    = Raise (GrammarError "TOKEN is not defined as a terminal or nonterminal") ∧
  parse_buffer " %% main := fdass %% "
    = Raise (GrammarError "fdass is not defined as a terminal or nonterminal") ∧
  parse_buffer ("TOKEN %% TOKEN := invalid " ++ PyStr.NL ++ " invalid := %% ")
    = Raise (GrammarError "expansion for nonterminal TOKEN").
Proof. repeat split; vm_compute; reflexivity. Qed.

Example test_nullable :
  is_nullable Symbol_new = true ∧
  is_nullable (add_expansion Symbol_new ["not"; "nullable"]) = false ∧
  is_nullable (add_expansion (add_expansion Symbol_new ["not"; "nullable"]) [])
    = true.
Proof. repeat split. Qed.

Example test_first_set :
  first Symbol_new = ∅ ∧
  first (add_first Symbol_new {[ "foo"; "bar" ]}) = {[ "foo"; "bar" ]} ∧
  first (add_first (add_first Symbol_new {[ "foo"; "bar" ]})
           (list_to_set ["bar"; "baz"]))
    = {[ "foo"; "bar"; "baz" ]}.
Proof. repeat split; vm_compute; reflexivity. Qed.

Example test_get_option :
  let h := mkHeader {[ "TERM" := "definition" ]} {[ "option" := "value" ]} in
  get_option h "option" "" = "value" ∧
  get_option h "option" "default" = "value" ∧
  get_option h "notinhahs" "" = "" ∧
  get_option h "notinhash" "default" = "default".
Proof. repeat split; vm_compute; reflexivity. Qed.

Example emission_of_two_terminals :
  ∃ h exps code bar,
    parse_buffer grammar_example = Return (h, exps, code) ∧
    dict_get exps "bar" = Some bar ∧ _get_counts h bar = 0 ∧
    _write_body_for_expansion elements h exps "bar" ["FOO"; "BAR"] []
    = Return [case_label "Tok_FOO"; eat_step "Tok_FOO"; eat_step "Tok_BAR";
              action_call "bar" ["Tok_FOO"; "Tok_BAR"]; break_step].
Proof.
  eexists _, _, _, _. split; [vm_compute; reflexivity|].
  repeat split; vm_compute; reflexivity.
Qed.

(** * Further properties of the code *)

(** ** Splitting and partitioning *)

Lemma string_app_cons (a : ascii) (s t : string) :
  String a s ++ t = String a (s ++ t).
Proof. reflexivity. Qed.

Lemma string_app_nil (t : string) : EmptyString ++ t = t.
Proof. reflexivity. Qed.

Lemma string_length_app (s t : string) :
  String.length (s ++ t) = String.length s + String.length t.
Proof.
  induction s as [|a s IH]; [done|].
  rewrite string_app_cons. cbn [String.length]. by rewrite IH.
Qed.

Lemma drop_prefix_Some (p s r : string) :
  PyStr.drop_prefix p s = Some r -> s = p ++ r.
Proof.
  revert s. induction p as [|a p IH]; intros s H; simpl in H.
  - by injection H as ->.
  - destruct s as [|b s]; [done|].
    destruct (Ascii.eqb_spec a b) as [->|]; [|done].
    rewrite string_app_cons. f_equal. by apply IH.
Qed.

Lemma drop_prefix_app (p s r t : string) :
  PyStr.drop_prefix p s = Some r -> PyStr.drop_prefix p (s ++ t) = Some (r ++ t).
Proof.
  revert s. induction p as [|a p IH]; intros s H; simpl in H.
  - by injection H as ->.
  - destruct s as [|b s]; [done|]. rewrite string_app_cons.
    cbn [PyStr.drop_prefix]. destruct (Ascii.eqb a b); [by apply IH|done].
Qed.

Lemma find_sep_Some (sep s b a : string) :
  PyStr.find_sep sep s = Some (b, a) -> s = b ++ sep ++ a.
Proof.
  revert b. induction s as [|c s IH]; intros b H.
  - cbn [PyStr.find_sep] in H.
    destruct (PyStr.drop_prefix sep EmptyString) as [r|] eqn:E; [|done].
    injection H as <- <-. by apply drop_prefix_Some in E.
  - cbn [PyStr.find_sep] in H.
    destruct (PyStr.drop_prefix sep (String c s)) as [r|] eqn:E.
    + injection H as <- <-. by apply drop_prefix_Some in E.
    + destruct (PyStr.find_sep sep s) as [[b' a']|] eqn:F; [|done].
      injection H as <- <-. rewrite string_app_cons. f_equal. by apply IH.
Qed.

(** The text before the leftmost occurrence holds no occurrence. *)
Lemma find_sep_before (sep s b a : string) :
  sep ≠ EmptyString ->
  PyStr.find_sep sep s = Some (b, a) -> PyStr.find_sep sep b = None.
Proof.
  intros Hsep. revert b. induction s as [|c s IH]; intros b H.
  - cbn [PyStr.find_sep] in H.
    destruct (PyStr.drop_prefix sep EmptyString) as [r|] eqn:E; [|done].
    injection H as <- <-. by destruct sep.
  - cbn [PyStr.find_sep] in H.
    destruct (PyStr.drop_prefix sep (String c s)) as [r|] eqn:E.
    + injection H as <- <-. by destruct sep.
    + destruct (PyStr.find_sep sep s) as [[b' a']|] eqn:F; [|done].
      injection H as <- <-. cbn [PyStr.find_sep].
      destruct (PyStr.drop_prefix sep (String c b')) as [r|] eqn:E'.
      * apply (drop_prefix_app _ _ _ (sep ++ a')) in E'.
        apply find_sep_Some in F. rewrite string_app_cons in E'.
        rewrite <- F in E'. congruence.
      * by rewrite (IH b' eq_refl).
Qed.

Lemma find_sep_shorter (sep s b a : string) :
  sep ≠ EmptyString ->
  PyStr.find_sep sep s = Some (b, a) -> String.length a < String.length s.
Proof.
  intros Hsep H. apply find_sep_Some in H as ->.
  rewrite !string_length_app. destruct sep; [done|]. cbn [String.length]. lia.
Qed.

Lemma split_fuel_join (sep : string) (n : nat) :
  ∀ s, PyStr.join sep (PyStr.split_fuel n sep s) = s.
Proof.
  induction n as [|n IH]; intros s; [done|]. simpl.
  destruct (PyStr.find_sep sep s) as [[b a]|] eqn:F; [|done].
  specialize (IH a). apply find_sep_Some in F as ->.
  destruct (PyStr.split_fuel n sep a) as [|x l] eqn:E.
  - by destruct n; simpl in E; [|destruct (PyStr.find_sep sep a) as [[??]|]].
  - cbn [PyStr.join]. cbn [PyStr.join] in IH. by rewrite IH.
Qed.

Lemma split_fuel_parts (sep : string) (n : nat) :
  sep ≠ EmptyString ->
  ∀ s, String.length s <= n ->
       Forall (fun part => PyStr.find_sep sep part = None)
              (PyStr.split_fuel n sep s).
Proof.
  intros Hsep. induction n as [|n IH]; intros s Hn.
  - destruct s; [|simpl in Hn; lia]. constructor; [|done]. by destruct sep.
  - simpl. destruct (PyStr.find_sep sep s) as [[b a]|] eqn:F.
    + constructor; [by eapply find_sep_before|].
      apply IH. pose proof (find_sep_shorter _ _ _ _ Hsep F). lia.
    + by constructor.
Qed.

Lemma find_sep_None_char (c : ascii) (s : string) :
  PyStr.find_sep (String c EmptyString) s = None -> PyStr.has_char c s = false.
Proof.
  induction s as [|a s IH]; intros H; [done|].
  cbn [PyStr.find_sep PyStr.drop_prefix] in H. cbn [PyStr.has_char].
  destruct (Ascii.eqb c a); [done|].
  destruct (PyStr.find_sep (String c EmptyString) s) as [[??]|]; [done|].
  by rewrite IH.
Qed.

Lemma has_char_app (c : ascii) (s t : string) :
  PyStr.has_char c (s ++ t) = PyStr.has_char c s || PyStr.has_char c t.
Proof.
  induction s as [|a s IH]; [done|].
  rewrite string_app_cons. cbn [PyStr.has_char]. rewrite IH.
  by rewrite orb_assoc.
Qed.

Lemma has_char_lstrip (c : ascii) (s : string) :
  PyStr.has_char c s = false -> PyStr.has_char c (PyStr.lstrip s) = false.
Proof.
  induction s as [|a s IH]; intros H; [done|]. cbn [PyStr.lstrip].
  destruct (PyStr.is_space a); [|done].
  apply IH. cbn [PyStr.has_char] in H. by apply orb_false_iff in H as [_ ?].
Qed.

Lemma has_char_rstrip (c : ascii) (s : string) :
  PyStr.has_char c s = false -> PyStr.has_char c (PyStr.rstrip s) = false.
Proof.
  induction s as [|a s IH]; intros H; [done|]. cbn [PyStr.rstrip].
  cbn [PyStr.has_char] in H. apply orb_false_iff in H as [Ha Hs].
  destruct (PyStr.is_space a && PyStr.is_empty (PyStr.rstrip s)); [done|].
  cbn [PyStr.has_char]. by rewrite Ha, IH.
Qed.

Lemma has_char_strip (c : ascii) (s : string) :
  PyStr.has_char c s = false -> PyStr.has_char c (PyStr.strip s) = false.
Proof. intros H. by apply has_char_rstrip, has_char_lstrip. Qed.

Lemma partition_before_char (c d : ascii) (s : string) :
  PyStr.has_char d s = false ->
  PyStr.has_char c (PyStr.partition (String c EmptyString) s).1.1 = false ∧
  PyStr.has_char d (PyStr.partition (String c EmptyString) s).1.1 = false.
Proof.
  intros Hd. unfold PyStr.partition.
  destruct (PyStr.find_sep (String c EmptyString) s) as [[b a]|] eqn:F; simpl.
  - split.
    + apply find_sep_None_char. by eapply find_sep_before.
    + apply find_sep_Some in F as ->. rewrite has_char_app in Hd.
      by apply orb_false_iff in Hd as [? _].
  - split; [by apply find_sep_None_char|done].
Qed.

(** ** The processed lines *)

(** Every line [_processed_lines] yields is non-empty, has no white space
    at either end, and holds neither a comment marker nor a line break. *)
Theorem processed_lines_clean (text l : string) :
  l ∈ _processed_lines text ->
  l ≠ EmptyString ∧ PyStr.strip l = l ∧
  PyStr.has_char "#"%char l = false ∧
  PyStr.has_char (ascii_of_nat 10) l = false.
Proof.
  intros Hl. split; [by apply processed_lines_elem in Hl as [? _]|].
  split; [by apply (processed_line_stripped text)|].
  apply processed_lines_elem in Hl as (_ & raw & Hraw & ->).
  assert (PyStr.has_char (ascii_of_nat 10) raw = false) as Hnl.
  { apply find_sep_None_char.
    pose proof (split_fuel_parts PyStr.NL (String.length text)
                  ltac:(done) text (le_n _)) as Hparts.
    rewrite Forall_forall in Hparts. by apply Hparts. }
  destruct (partition_before_char "#"%char _ raw Hnl) as [H1 H2].
  unfold clean_line. split; by apply has_char_strip.
Qed.

Lemma processed_lines_clean_witness :
  "FOO = Tok_FOO" ∈ _processed_lines header_text_example ∧
  PyStr.strip "FOO = Tok_FOO" = "FOO = Tok_FOO".
Proof.
  assert ("FOO = Tok_FOO" ∈ _processed_lines header_text_example) as H.
  { apply list_elem_of_In. vm_compute. right. left. reflexivity. }
  split; [exact H|]. apply (processed_lines_clean _ _ H).
Defined.

(** ** Key and value of a line *)

Lemma find_sep_first_char (c : ascii) (sep' k v : string) :
  PyStr.has_char c k = false ->
  PyStr.find_sep (String c sep') (k ++ String c sep' ++ v) = Some (k, v).
Proof.
  induction k as [|a k IH]; intros H.
  - rewrite string_app_nil.
    assert (PyStr.drop_prefix (String c sep') (String c sep' ++ v) = Some v) as E.
    { apply (drop_prefix_app _ (String c sep') EmptyString v).
      clear. induction (String c sep') as [|a s IH]; [done|].
      simpl. by rewrite Ascii.eqb_refl. }
    rewrite string_app_cons in *. cbn [PyStr.find_sep]. by rewrite E.
  - cbn [PyStr.has_char] in H. apply orb_false_iff in H as [Ha Hk].
    rewrite string_app_cons. cbn [PyStr.find_sep PyStr.drop_prefix].
    rewrite Ha. by rewrite (IH Hk).
Qed.

(** A key followed by the separator and a value is read back: when the
    first character of the separator does not occur in the key,
    [_kv_with_sep] returns the key and the value, both trimmed.  This
    covers ["="] in the header and [":="] in the rules. *)
Theorem kv_with_sep_reads_back (c : ascii) (sep' k v : string) :
  PyStr.has_char c k = false ->
  _kv_with_sep (k ++ String c sep' ++ v) (String c sep')
  = (PyStr.strip k, PyStr.strip v).
Proof.
  intros H. unfold _kv_with_sep, PyStr.partition.
  by rewrite find_sep_first_char.
Qed.

Lemma kv_with_sep_reads_back_witness :
  PyStr.has_char ":"%char "bar_prime " = false ∧
  _kv_with_sep ("bar_prime " ++ ":=" ++ " bar bar_prime") ":="
  = ("bar_prime", "bar bar_prime").
Proof.
  split; [reflexivity|].
  apply (kv_with_sep_reads_back ":"%char "=" "bar_prime " " bar bar_prime").
  reflexivity.
Defined.

(** ** What [parse_buffer] returns and raises *)

(** When [parse_buffer] returns, the buffer is the header text, the rules
    text and the user code joined by the delimiter, none of the three
    holding a delimiter; the user code comes back as it is in the buffer,
    the header is the processed header text, and the symbol table has the
    names of the rules text, in the order of their first rule, with the
    expansions the rules give them. *)
Theorem parse_buffer_sections (buffer : string) (h : Header) (exps : dict)
    (code : string) :
  parse_buffer buffer = Return (h, exps, code) ->
  ∃ hs es,
    buffer = hs ++ "%%" ++ es ++ "%%" ++ code ∧
    PyStr.find_sep "%%" hs = None ∧ PyStr.find_sep "%%" es = None ∧
    PyStr.find_sep "%%" code = None ∧
    h = _process_header hs ∧
    keys exps = keys (_process_expansions es) ∧
    ∀ name, expansions <$> dict_get exps name
            = expansions <$> dict_get (_process_expansions es) name.
Proof.
  intros (hs & es & Hs & -> & Hc)%parse_buffer_Return. exists hs, es.
  pose proof (split_fuel_join "%%" (String.length buffer) buffer) as Hj.
  pose proof (split_fuel_parts "%%" (String.length buffer) ltac:(done)
                buffer (le_n _)) as Hp.
  unfold PyStr.split in Hs. rewrite Hs in Hj, Hp.
  apply Forall_cons in Hp as [H1 Hp]. apply Forall_cons in Hp as [H2 Hp].
  apply Forall_cons in Hp as [H3 _].
  split; [by rewrite <- Hj|]. do 4 (split; [done|]).
  pose proof (compute_sets_le _ _ _ Hc) as Hle.
  split; [by rewrite (le_keys _ _ Hle)|].
  intros name. unfold dict_get.
  destruct (tbl (_process_expansions es) !! name) as [s|] eqn:E.
  - destruct (le_some _ _ Hle _ _ E) as (s' & -> & Hss). simpl.
    by rewrite (le_expansions _ _ Hss).
  - by rewrite (le_none _ _ Hle _ E).
Qed.

Lemma parse_buffer_sections_witness :
  ∃ h exps code,
    parse_buffer grammar_example = Return (h, exps, code) ∧
    ∃ hs es,
      grammar_example = hs ++ "%%" ++ es ++ "%%" ++ code ∧
      PyStr.find_sep "%%" hs = None ∧ PyStr.find_sep "%%" es = None ∧
      PyStr.find_sep "%%" code = None ∧
      h = _process_header hs ∧
      keys exps = keys (_process_expansions es) ∧
      ∀ name, expansions <$> dict_get exps name
              = expansions <$> dict_get (_process_expansions es) name.
Proof.
  eexists _, _, _. split; [vm_compute; reflexivity|].
  apply parse_buffer_sections. vm_compute. reflexivity.
Defined.

(** Whatever the buffer, the only exceptions [parse_buffer] raises are a
    [ParseError] and a [GrammarError], each with a message that starts
    with the tag of its kind; no lookup fails with a [KeyError]. *)
Theorem parse_buffer_raises_tagged (buffer : string) (e : exn) :
  parse_buffer buffer = Raise e ->
  (∃ m, e = ParseError_exn ("parsegen: parse error: " ++ m)) ∨
  (∃ m, e = GrammarError_exn ("parsegen: grammar error: " ++ m)).
Proof.
  intros H.
  destruct (decide (length (PyStr.split "%%" buffer) = 3)) as [Hlen|Hlen].
  - destruct (PyStr.split "%%" buffer) as [|hs [|es [|uc [|x l]]]] eqn:Hs;
      try discriminate Hlen.
    rewrite (parse_buffer_three _ _ _ _ Hs) in H.
    destruct (_compute_sets_for_expansions _ _) as [d'|e'|] eqn:Hc;
      [done| |done].
    simpl in H. injection H as ->. right.
    apply compute_sets_raises in Hc as [(name & _ & ->)|(tok & _ & ->)];
      by eexists.
  - rewrite (parse_buffer_not_three _ Hlen) in H. injection H as <-.
    left. by eexists.
Qed.

Lemma parse_buffer_raises_tagged_witness :
  ∃ e, parse_buffer " %% main := TOKEN %% " = Raise e ∧
       ((∃ m, e = ParseError_exn ("parsegen: parse error: " ++ m)) ∨
        (∃ m, e = GrammarError_exn ("parsegen: grammar error: " ++ m))).
Proof.
  eexists. split; [vm_compute; reflexivity|].
  apply (parse_buffer_raises_tagged " %% main := TOKEN %% ").
  vm_compute. reflexivity.
Defined.

(** ** The header mappings *)

Lemma header_line_store (acc : gmap string string * gmap string string)
    (l : string) :
  _process_header_line acc l =
    if decide (PyStr.take1 l = "%")
    then (acc.1, <[header_key l := header_val l]> acc.2)
    else (<[header_key l := header_val l]> acc.1, acc.2).
Proof.
  unfold _process_header_line, header_key, header_val, _add_opt_to_dict.
  destruct (decide (PyStr.take1 l = "%")).
  - by destruct (_kv_with_sep (PyStr.drop1 l) "=").
  - by destruct (_kv_with_sep l "=").
Qed.

Lemma snoc_eq_middle {A : Type} (lines pre post : list A) (x l : A) :
  (lines ++ [x])%list = (pre ++ l :: post)%list ->
  (post = [] ∧ l = x ∧ lines = pre) ∨
  (∃ post', post = (post' ++ [x])%list ∧ lines = (pre ++ l :: post')%list).
Proof.
  intros H. destruct post as [|y post' _] using rev_ind.
  - left. change (pre ++ [l])%list with (pre ++ [l])%list in H.
    apply app_inj_tail in H as [-> ->]. done.
  - right. exists post'.
    rewrite app_comm_cons, app_assoc in H.
    apply app_inj_tail in H as [-> ->]. done.
Qed.

(** The mapping of one kind ([opt = true]: the options) after a fold over
    the processed lines maps [k] to the value of the last line of that kind
    with the key [k]. *)
Lemma header_fold_last (opt : bool) (lines : list string) (k v : string) :
  let is_kind l := if opt then PyStr.take1 l = "%" else PyStr.take1 l ≠ "%" in
  let acc := foldl _process_header_line (∅, ∅) lines in
  (if opt then acc.2 else acc.1) !! k = Some v <->
  ∃ pre l post,
    lines = (pre ++ l :: post)%list ∧ is_kind l ∧
    header_key l = k ∧ header_val l = v ∧
    ∀ l', l' ∈ post -> is_kind l' -> header_key l' ≠ k.
Proof.
  intros is_kind. induction lines as [|x lines IH] using rev_ind.
  - simpl. split.
    + destruct opt; simpl; by rewrite lookup_empty.
    + intros (pre & l & post & H & _). by destruct pre.
  - rewrite foldl_app. simpl. rewrite header_line_store.
    set (acc := foldl _process_header_line (∅, ∅) lines) in *.
    simpl in IH.
    assert (is_kind x ∧ header_key x = k ∨ ¬ (is_kind x ∧ header_key x = k))
      as [[Hx Hk]|Hn].
    { destruct (decide (header_key x = k)); [|right; tauto].
      unfold is_kind. destruct opt, (decide (PyStr.take1 x = "%")); tauto. }
    + assert ((if opt
               then (if decide (PyStr.take1 x = "%")
                     then (acc.1, <[header_key x:=header_val x]> acc.2)
                     else (<[header_key x:=header_val x]> acc.1, acc.2)).2
               else (if decide (PyStr.take1 x = "%")
                     then (acc.1, <[header_key x:=header_val x]> acc.2)
                     else (<[header_key x:=header_val x]> acc.1, acc.2)).1)
              !! k = Some (header_val x)) as ->.
      { unfold is_kind in Hx. subst k.
        destruct opt, (decide (PyStr.take1 x = "%")); simpl; try done;
          apply lookup_insert_eq. }
      split.
      * intros [= <-]. exists lines, x, []. repeat split; try done.
        by intros l' H%elem_of_nil.
      * intros (pre & l & post & H & Hl & Hkl & Hv & Hpost).
        apply snoc_eq_middle in H as [(-> & -> & _)|(post' & -> & _)];
          [by rewrite Hv|].
        exfalso. apply (Hpost x); [|done|done].
        apply elem_of_app. right. by left.
    + assert ((if opt
               then (if decide (PyStr.take1 x = "%")
                     then (acc.1, <[header_key x:=header_val x]> acc.2)
                     else (<[header_key x:=header_val x]> acc.1, acc.2)).2
               else (if decide (PyStr.take1 x = "%")
                     then (acc.1, <[header_key x:=header_val x]> acc.2)
                     else (<[header_key x:=header_val x]> acc.1, acc.2)).1)
              !! k = (if opt then acc.2 else acc.1) !! k) as ->.
      { unfold is_kind in Hn.
        destruct opt, (decide (PyStr.take1 x = "%")); simpl; try done;
          apply lookup_insert_ne; tauto. }
      rewrite IH. split.
      * intros (pre & l & post & -> & Hl & Hkl & Hv & Hpost).
        exists pre, l, (post ++ [x])%list.
        split; [by rewrite <- app_assoc|]. repeat split; try done.
        intros l' [Hl'|Hl']%elem_of_app; [by apply Hpost|].
        apply list_elem_of_singleton in Hl' as ->. tauto.
      * intros (pre & l & post & H & Hl & Hkl & Hv & Hpost).
        apply snoc_eq_middle in H as [(-> & -> & _)|(post' & -> & ->)];
          [tauto|].
        exists pre, l, post'. repeat split; try done.
        intros l' Hl'. apply Hpost. apply elem_of_app. by left.
Qed.

(** The header [_process_header] returns maps a terminal name to a value
    exactly when some processed line that does not begin with [%] has that
    name as its key, and the value is that of the last such line; the same
    holds for the options and the lines that begin with [%].  A line of one
    kind never shows in the mapping of the other. *)
Theorem header_lookup_last_line (text k v : string) :
  (terminals (_process_header text) !! k = Some v <->
   ∃ pre l post,
     _processed_lines text = (pre ++ l :: post)%list ∧
     PyStr.take1 l ≠ "%" ∧ header_key l = k ∧ header_val l = v ∧
     ∀ l', l' ∈ post -> PyStr.take1 l' ≠ "%" -> header_key l' ≠ k) ∧
  (options (_process_header text) !! k = Some v <->
   ∃ pre l post,
     _processed_lines text = (pre ++ l :: post)%list ∧
     PyStr.take1 l = "%" ∧ header_key l = k ∧ header_val l = v ∧
     ∀ l', l' ∈ post -> PyStr.take1 l' = "%" -> header_key l' ≠ k).
Proof.
  split.
  - apply (header_fold_last false (_processed_lines text) k v).
  - apply (header_fold_last true (_processed_lines text) k v).
Qed.

(** ** The symbol table of the rules text *)

Lemma filter_key_nil (lines : list string) (sym : string) :
  filter (fun l => rule_key l = sym) lines = [] <-> sym ∉ rule_key <$> lines.
Proof.
  induction lines as [|x lines IH]; simpl.
  - split; [intros _ H; by apply elem_of_nil in H|done].
  - rewrite filter_cons, not_elem_of_cons. case_decide as E.
    + split; [done|]. intros [Hne _]. by destruct Hne.
    + rewrite IH. split; [by split|by intros [_ ?]].
Qed.

Lemma process_fold_spec (lines : list string) :
  let d := foldl _process_expansions_line dict_empty lines in
  keys d = reverse (remove_dups (reverse (rule_key <$> lines))) ∧
  ∀ sym,
    match tbl d !! sym with
    | None => filter (fun l => rule_key l = sym) lines = []
    | Some s =>
        filter (fun l => rule_key l = sym) lines ≠ [] ∧
        s = {| expansions :=
                 rule_tokens <$> filter (fun l => rule_key l = sym) lines;
               nullable :=
                 bool_decide
                   ([] ∈ rule_tokens <$> filter (fun l => rule_key l = sym) lines);
               first := ∅; follow := ∅ |}
    end.
Proof.
  induction lines as [|x lines IH] using rev_ind; simpl.
  - split; [done|]. intros sym. by rewrite lookup_empty.
  - rewrite foldl_app. simpl.
    set (d := foldl _process_expansions_line dict_empty lines) in *.
    destruct IH as [IHk IHt]. unfold _process_expansions_line.
    pose proof (eq_refl : rule_key x = (_kv_with_sep x ":=").1) as Hkey.
    pose proof (eq_refl : rule_tokens x
                          = PyStr.words (_kv_with_sep x ":=").2) as Htok.
    destruct (_kv_with_sep x ":=") as [sym0 exp]. simpl in Hkey, Htok.
    rewrite <- Htok. subst sym0. split.
    + simpl. rewrite fmap_app, reverse_app. simpl.
      assert (dict_has d (rule_key x) = true <->
              rule_key x ∈ reverse (rule_key <$> lines)) as Hhas.
      { rewrite elem_of_reverse, dict_has_true. specialize (IHt (rule_key x)).
        destruct (tbl d !! rule_key x) as [s|].
        - destruct IHt as [Hne _]. split; [|by eexists]. intros _.
          destruct (decide (rule_key x ∈ rule_key <$> lines)) as [|Hn]; [done|].
          by apply filter_key_nil in Hn.
        - apply filter_key_nil in IHt. split; [by intros [? ?]|done]. }
      destruct (decide_rel elem_of (rule_key x) (reverse (rule_key <$> lines)))
        as [Hin|Hin], (dict_has d (rule_key x)) eqn:Hd.
      * done.
      * by apply Hhas in Hin.
      * exfalso. by apply Hin, Hhas.
      * by rewrite reverse_cons, IHk.
    + intros sym. simpl. rewrite filter_app, filter_cons, filter_nil.
      rewrite lookup_insert. specialize (IHt sym).
      destruct (decide (rule_key x = sym)) as [Heq|Hne]; simpl.
      * subst sym. split; [by destruct (filter _ lines)|].
        unfold dict_get. rewrite fmap_app. simpl.
        destruct (tbl d !! rule_key x) as [s|].
        -- destruct IHt as [_ ->]. simpl. unfold add_expansion. simpl.
           destruct (rule_tokens x) as [|e r] eqn:Et; unfold set_nullable; simpl;
             f_equal.
           ++ symmetry. apply bool_decide_eq_true. apply elem_of_app.
              right. by left.
           ++ apply bool_decide_ext. rewrite elem_of_app.
              split; [by left|]. intros [?|H]; [done|].
              by apply list_elem_of_singleton in H.
        -- rewrite IHt. simpl. unfold add_expansion. simpl.
           destruct (rule_tokens x) as [|e r] eqn:Et; unfold set_nullable; simpl;
             f_equal.
      * by rewrite app_nil_r.
Qed.

(** The symbol table [_process_expansions] builds from the rules text: its
    names are the keys of the processed lines in the order of their first
    line; a name is absent exactly when no line has it as its key; the
    expansions of a symbol are the token lists of its lines, in the order
    of the lines; the symbol is flagged nullable exactly when one of its
    lines has no token; and its FIRST and FOLLOW sets are empty. *)
Theorem process_expansions_rules (text sym : string) :
  let lines := _processed_lines text in
  let d := _process_expansions text in
  keys d = reverse (remove_dups (reverse (rule_key <$> lines))) ∧
  (dict_get d sym = None <-> ∀ l, l ∈ lines -> rule_key l ≠ sym) ∧
  (∀ s, dict_get d sym = Some s ->
     expansions s = rule_tokens <$> filter (fun l => rule_key l = sym) lines ∧
     (nullable s = true <->
      ∃ l, l ∈ lines ∧ rule_key l = sym ∧ rule_tokens l = []) ∧
     first s = ∅ ∧ follow s = ∅).
Proof.
  intros lines d. destruct (process_fold_spec lines) as [Hk Ht].
  change (foldl _process_expansions_line dict_empty lines) with d in Hk, Ht.
  split; [done|]. specialize (Ht sym). unfold dict_get.
  split.
  - destruct (tbl d !! sym) as [s|].
    + destruct Ht as [Hne _]. split; [done|]. intros Hall. exfalso.
      apply Hne, filter_key_nil. intros (l & Hl & Hin)%list_elem_of_fmap.
      by apply (Hall l).
    + split; [|done]. intros _ l Hl Hkey. apply filter_key_nil in Ht.
      apply Ht, list_elem_of_fmap. by exists l.
  - intros s Hs. rewrite Hs in Ht. destruct Ht as [_ ->]. simpl.
    split; [done|]. split; [|done].
    rewrite bool_decide_eq_true, list_elem_of_fmap. split.
    + intros (l & Hl & Hin). apply list_elem_of_filter in Hin as [? ?].
      by exists l.
    + intros (l & Hin & Hkey & Hl). exists l. split; [done|].
      by apply list_elem_of_filter.
Qed.

(** ** The tokens of an analysed grammar *)

Lemma words_nonempty (s : string) : ∀ w, w ∈ PyStr.words s -> w ≠ EmptyString.
Proof.
  induction s as [|c s IH]; intros w Hw; [by apply elem_of_nil in Hw|].
  cbn [PyStr.words] in Hw.
  destruct (PyStr.is_space c); [by apply IH|].
  destruct s as [|c' s'].
  { by apply list_elem_of_singleton in Hw as ->. }
  destruct (PyStr.is_space c').
  { apply elem_of_cons in Hw as [->|Hw]; [done|by apply IH]. }
  destruct (PyStr.words (String c' s')) as [|w0 ws].
  { by apply list_elem_of_singleton in Hw as ->. }
  apply elem_of_cons in Hw as [->|Hw]; [done|]. apply IH. by right.
Qed.

Lemma words_has_char (c : ascii) (s : string) :
  PyStr.has_char c s = false ->
  ∀ w, w ∈ PyStr.words s -> PyStr.has_char c w = false.
Proof.
  induction s as [|a s IH]; intros H w Hw; [by apply elem_of_nil in Hw|].
  cbn [PyStr.has_char] in H. apply orb_false_iff in H as [Ha Hs].
  cbn [PyStr.words] in Hw.
  destruct (PyStr.is_space a); [by apply IH|].
  assert (PyStr.has_char c (String a EmptyString) = false) as Hone
    by (cbn [PyStr.has_char]; by rewrite Ha).
  destruct s as [|c' s'].
  { by apply list_elem_of_singleton in Hw as ->. }
  destruct (PyStr.is_space c').
  { apply elem_of_cons in Hw as [->|Hw]; [done|by apply IH]. }
  destruct (PyStr.words (String c' s')) as [|w0 ws].
  { by apply list_elem_of_singleton in Hw as ->. }
  apply elem_of_cons in Hw as [->|Hw].
  - cbn [PyStr.has_char]. rewrite Ha. simpl. apply IH; [done|by left].
  - apply IH; [done|by right].
Qed.

Lemma partition_after_char (sep : string) (d : ascii) (s : string) :
  PyStr.has_char d s = false ->
  PyStr.has_char d (PyStr.partition sep s).2 = false.
Proof.
  intros Hd. unfold PyStr.partition.
  destruct (PyStr.find_sep sep s) as [[b a]|] eqn:F; simpl; [|done].
  apply find_sep_Some in F as ->. rewrite !has_char_app in Hd.
  apply orb_false_iff in Hd as [_ Hd]. by apply orb_false_iff in Hd as [_ ?].
Qed.

Lemma rule_tokens_clean (text l e : string) :
  l ∈ _processed_lines text -> e ∈ rule_tokens l ->
  e ≠ EmptyString ∧ spaceless e ∧ PyStr.has_char "#"%char e = false.
Proof.
  intros Hl He. unfold rule_tokens in He.
  split; [by eapply words_nonempty|]. split; [by eapply words_spaceless|].
  eapply words_has_char; [|done]. unfold _kv_with_sep.
  pose proof (partition_after_char ":=" "#"%char l) as Hp.
  destruct (PyStr.partition ":=" l) as [[key x] val]. simpl in *.
  apply has_char_strip, Hp.
  apply processed_lines_elem in Hl as (_ & raw & Hraw & ->).
  unfold clean_line. apply has_char_strip.
  unfold PyStr.partition.
  destruct (PyStr.find_sep "#" raw) as [[b a]|] eqn:F; simpl.
  - apply find_sep_None_char. by eapply (find_sep_before "#").
  - by apply find_sep_None_char.
Qed.

(** Every token of every expansion of a grammar [parse_buffer] returns is
    a non-empty name without white space and without comment marker, and
    it is defined: a terminal of the header or a name of the symbol
    table. *)
Theorem analysed_tokens_defined (buffer : string) (h : Header) (exps : dict)
    (code name : string) (s : Symbol) (exp : list string) (e : string) :
  parse_buffer buffer = Return (h, exps, code) ->
  dict_get exps name = Some s -> exp ∈ expansions s -> e ∈ exp ->
  e ≠ EmptyString ∧ spaceless e ∧ PyStr.has_char "#"%char e = false ∧
  (is_terminal h e = true ∨ dict_has exps e = true).
Proof.
  intros (hs & es & _ & -> & Hc)%parse_buffer_Return Hs Hexp He.
  unfold dict_get in Hs.
  pose proof (compute_sets_spec (_process_header hs) (_process_expansions es))
    as Hsp.
  rewrite Hc in Hsp. destruct Hsp as (Hle & _ & Hdef & _).
  assert (e ≠ EmptyString ∧ spaceless e ∧ PyStr.has_char "#"%char e = false)
    as (H1 & H2 & H3).
  { destruct (process_fold_spec (_processed_lines es)) as [_ Ht].
    specialize (Ht name).
    change (foldl _process_expansions_line dict_empty (_processed_lines es))
      with (_process_expansions es) in Ht.
    destruct (tbl (_process_expansions es) !! name) as [s0|] eqn:E.
    - destruct (le_some _ _ Hle _ _ E) as (s' & Hs' & Hss).
      assert (s' = s) as -> by congruence.
      rewrite <- (le_expansions _ _ Hss) in Hexp.
      destruct Ht as [_ ->]. simpl in Hexp.
      apply list_elem_of_fmap in Hexp as (l & -> & Hl).
      apply list_elem_of_filter in Hl as [_ Hl].
      by apply (rule_tokens_clean es l).
    - rewrite (le_none _ _ Hle _ E) in Hs. done. }
  do 3 (split; [done|]).
  apply (all_defined_le _ _ exps Hle) in Hdef.
  pose proof (dict_wf_le _ _ Hle (process_expansions_wf es)) as Hwf.
  by apply (Hdef name s exp (dict_wf_items _ _ _ Hwf Hs) Hexp).
Qed.

Lemma analysed_tokens_defined_witness :
  ∃ h exps code s,
    parse_buffer grammar_example = Return (h, exps, code) ∧
    dict_get exps "main" = Some s ∧
    ["baz"; "bar_prime"; "BAZ"] ∈ expansions s ∧
    "BAZ" ∈ ["baz"; "bar_prime"; "BAZ"] ∧
    "BAZ" ≠ EmptyString ∧ spaceless "BAZ" ∧
    PyStr.has_char "#"%char "BAZ" = false ∧
    (is_terminal h "BAZ" = true ∨ dict_has exps "BAZ" = true).
Proof.
  eexists _, _, _, _. split; [vm_compute; reflexivity|].
  split; [vm_compute; reflexivity|]. split; [apply list_elem_of_here|].
  split; [by do 2 right; left|].
  eapply (analysed_tokens_defined grammar_example _ _ _ "main").
  - vm_compute; reflexivity.
  - vm_compute; reflexivity.
  - apply list_elem_of_here.
  - by do 2 right; left.
Defined.

(** ** One update of a FIRST set *)

Lemma first_scan_frame (h : Header) (name : string) (exp : list string) :
  ∀ (d : dict) (ch : bool) (d' : dict) (ch' : bool),
    first_scan h name exp d ch = Return (d', ch') ->
    keys d' = keys d ∧ ∀ k, k ≠ name -> tbl d' !! k = tbl d !! k.
Proof.
  induction exp as [|e rest IH]; intros d ch d' ch' H; simpl in H.
  - apply bind_Return in H as (symbol & _ & H).
    destruct (negb (is_nullable symbol)); injection H as <- <-; [|done].
    split; [done|]. intros k Hk. simpl. by rewrite lookup_insert_ne.
  - destruct (is_terminal h e); [by injection H as <- <-|].
    apply bind_Return in H as (other & _ & H).
    apply bind_Return in H as (symbol & _ & H).
    apply bind_Return in H as (other' & _ & H).
    set (st := if negb (bool_decide (first other ⊆ first symbol))
               then (obj_write d name (add_first symbol (first other)), true)
               else (d, ch)) in *.
    assert (keys st.1 = keys d ∧ ∀ k, k ≠ name -> tbl st.1 !! k = tbl d !! k)
      as [Hk Ht].
    { subst st.
      destruct (negb (bool_decide (first other ⊆ first symbol))); simpl;
        [|by split].
      split; [done|].
      intros k Hk. by rewrite lookup_insert_ne. }
    destruct (negb (is_nullable other')).
    + injection H as H. assert (d' = st.1) as -> by (by rewrite H). done.
    + apply IH in H as [Hk' Ht']. split; [congruence|].
      intros k Hne. rewrite Ht' by done. by apply Ht.
Qed.

(** [_update_first_from_expansion] returns [False] exactly when it leaves
    the store as it was; it never changes the keys, and it changes no
    symbol other than the one it is called for. *)
Theorem update_first_reports_change (h : Header) (d : dict) (name : string)
    (exp : list string) (d' : dict) (ch : bool) :
  _update_first_from_expansion h d name exp = Return (d', ch) ->
  (ch = false <-> d' = d) ∧
  keys d' = keys d ∧
  ∀ k, k ≠ name -> dict_get d' k = dict_get d k.
Proof.
  unfold _update_first_from_expansion. intros H.
  destruct (first_scan_frame _ _ _ _ _ _ _ H) as [Hk Ht].
  split; [|done].
  apply (first_scan_spec h name _ exp d false d' ch
           (all_first_bounded (tbl d))) in H as (_ & _ & Hc).
  destruct Hc as [[-> ->]|[-> Hlt]]; [done|].
  split; [done|]. intros ->. lia.
Qed.

Lemma update_first_reports_change_witness :
  ∃ d' ch,
    _update_first_from_expansion header_example rules_example "main"
      ["baz"; "bar_prime"; "BAZ"] = Return (d', ch) ∧
    (ch = false <-> d' = rules_example) ∧
    keys d' = keys rules_example ∧
    ∀ k, k ≠ "main" -> dict_get d' k = dict_get rules_example k.
Proof.
  eexists _, _. split; [vm_compute; reflexivity|].
  apply (update_first_reports_change header_example rules_example "main"
           ["baz"; "bar_prime"; "BAZ"]).
  vm_compute. reflexivity.
Defined.

(** ** The store the loop stops on is closed under its rules *)

Lemma first_scan_flag_stays (h : Header) (name : string) (exp : list string)
    (d d' : dict) (ch' : bool) :
  first_scan h name exp d true = Return (d', ch') -> ch' = true.
Proof.
  intros H.
  apply (first_scan_spec h name _ exp d true d' ch'
           (all_first_bounded (tbl d))) in H as (_ & _ & Hc).
  by destruct Hc as [[-> _]|[-> _]].
Qed.

Lemma pass_fold_stable (h : Header) (l : list (string * list string)) :
  ∀ d d',
    foldM (pass_step h) (d, false) l = Return (d', false) ->
    d' = d ∧
    ∀ item, item ∈ l -> first_scan h item.1 item.2 d false = Return (d, false).
Proof.
  induction l as [|[name exp] l IH]; intros d d' H; simpl in H.
  - injection H as <-. split; [done|]. by intros item Hi%elem_of_nil.
  - apply bind_Return in H as ([d1 ch1] & Hstep & H).
    unfold pass_step, _update_first_from_expansion in Hstep. simpl in Hstep.
    apply bind_Return in Hstep as ([d2 r] & Hscan & [= <- <-]).
    pose proof (pass_fold_spec h _ l d2 _ d' false
                  (all_first_bounded (tbl d2)) H) as (_ & _ & Hc).
    destruct Hc as [[Hr Heq]|[? _]]; [|done].
    rewrite orb_false_r in Hr. simpl in Hr. subst r d'.
    pose proof (first_scan_spec h name _ exp d false d2 false
                  (all_first_bounded (tbl d)) Hscan) as (_ & _ & Hc).
    destruct Hc as [[_ Heq]|[? _]]; [|done]. subst d2.
    apply IH in H as [_ Hl]. split; [done|].
    intros item [->|Hi]%elem_of_cons; [done|by apply Hl].
Qed.

Lemma stable_scan_reach (h : Header) (name : string) (pre : list string) :
  ∀ (rest : list string) (d : dict),
    all_nullable h d pre ->
    first_scan h name (pre ++ rest)%list d false = Return (d, false) ->
    first_scan h name rest d false = Return (d, false).
Proof.
  induction pre as [|e pre IH]; intros rest d Hpre H; [done|].
  simpl in H. destruct (Hpre e) as (Ht & other & Ho & Hn); [by left|].
  rewrite Ht, (dict_item_Some _ _ _ Ho) in H. simpl in H.
  apply bind_Return in H as (symbol & Hs & H). simpl in H.
  destruct (bool_decide (first other ⊆ first symbol)); simpl in H.
  - rewrite (dict_item_Some _ _ _ Ho) in H. simpl in H.
    rewrite Hn in H. simpl in H.
    apply IH; [|done]. intros e' He'. apply Hpre. by right.
  - apply bind_Return in H as (other' & _ & H).
    destruct (negb (is_nullable other')); [done|].
    by apply first_scan_flag_stays in H.
Qed.

Lemma stable_scan_nullable (h : Header) (name : string) (exp : list string)
    (d : dict) :
  all_nullable h d exp ->
  first_scan h name exp d false = Return (d, false) ->
  ∃ s, tbl d !! name = Some s ∧ is_nullable s = true.
Proof.
  intros Hexp H. rewrite <- (app_nil_r exp) in H.
  apply stable_scan_reach in H; [|done]. simpl in H.
  apply bind_Return in H as (s & Hs%dict_item_Return & H).
  exists s. split; [done|]. by destruct (is_nullable s).
Qed.

Lemma stable_scan_first (h : Header) (name : string) (pre rest : list string)
    (e : string) (d : dict) :
  all_nullable h d pre -> is_terminal h e = false ->
  first_scan h name (pre ++ e :: rest)%list d false = Return (d, false) ->
  ∃ s t, tbl d !! name = Some s ∧ tbl d !! e = Some t ∧ first t ⊆ first s.
Proof.
  intros Hpre Ht H. apply stable_scan_reach in H; [|done]. simpl in H.
  rewrite Ht in H.
  apply bind_Return in H as (other & Ho%dict_item_Return & H).
  apply bind_Return in H as (symbol & Hs%dict_item_Return & H).
  exists symbol, other. split; [done|]. split; [done|].
  destruct (bool_decide (first other ⊆ first symbol)) eqn:E;
    [by apply bool_decide_eq_true in E|].
  simpl in H. apply bind_Return in H as (other' & _ & H).
  destruct (negb (is_nullable other')); [done|].
  by apply first_scan_flag_stays in H.
Qed.

Lemma no_collision_le (h : Header) (d d' : dict) :
  dict_le d d' -> no_collision h d -> no_collision h d'.
Proof.
  intros Hle Hd name s' Hi.
  destruct (dict_le_items _ _ _ _ Hle Hi) as (s & Hi0 & _). by apply (Hd name s).
Qed.

Lemma derives_nil_all_nullable (h : Header) (d : dict) (w w' : list string) :
  no_collision h d -> pass h d = Return (d, false) ->
  derives d w w' -> w' = [] -> all_nullable h d w.
Proof.
  intros Hcol Hpass. induction 1 as [w|u name exp v w Hp _ IH]; intros ->.
  - by intros e He%elem_of_nil.
  - specialize (IH eq_refl). destruct Hp as (s & Hi & He).
    assert (all_nullable h d exp) as Hexp.
    { intros e Hin. apply IH. rewrite !elem_of_app. right. by left. }
    apply (pass_fold_stable h) in Hpass as [_ Hpass].
    specialize (Hpass (name, exp)
                  (proj2 (each_expansion_elem d name exp)
                     (ex_intro _ s (conj Hi He)))).
    apply stable_scan_nullable in Hpass as (s' & Hs' & Hn); [|done].
    intros e [Hin|[->|Hin]%elem_of_cons]%elem_of_app.
    + apply IH. rewrite !elem_of_app. by left.
    + split; [by apply (Hcol name s)|]. by exists s'.
    + apply IH. rewrite !elem_of_app. by do 2 right.
Qed.

(** After the analysis of a grammar text a symbol reports nullable exactly
    when it derives the empty sequence. *)
Theorem nullable_iff_derives_empty (buffer : string) (h : Header) (exps : dict)
    (code name : string) (s : Symbol) :
  parse_buffer buffer = Return (h, exps, code) ->
  dict_get exps name = Some s ->
  (is_nullable s = true <-> derives exps [name] []).
Proof.
  intros (hs & es & _ & -> & Hc)%parse_buffer_Return Hs. unfold dict_get in Hs.
  pose proof (compute_sets_sound _ _ _ (fresh_sets_sound _ es) Hc) as Hd.
  pose proof (compute_sets_spec (_process_header hs) (_process_expansions es))
    as Hsp.
  rewrite Hc in Hsp. destruct Hsp as (Hle & Hcol & _ & Hpass).
  split.
  - intros Hn. apply (sound_nullable _ _ Hd name s Hs).
    unfold is_nullable in Hn. pose proof (sound_nonempty _ _ Hd name s Hs).
    by destruct (expansions s).
  - intros Hder.
    destruct (derives_nil_all_nullable _ _ _ _
                (no_collision_le _ _ _ Hle Hcol) Hpass Hder eq_refl name)
      as (_ & s' & Hs' & Hn); [by left|].
    congruence.
Qed.

Lemma nullable_iff_derives_empty_witness :
  ∃ h exps code s,
    parse_buffer grammar_example = Return (h, exps, code) ∧
    dict_get exps "baz" = Some s ∧
    (is_nullable s = true <-> derives exps ["baz"] []).
Proof.
  eexists _, _, _, _. split; [vm_compute; reflexivity|].
  split; [vm_compute; reflexivity|].
  eapply (nullable_iff_derives_empty grammar_example _ _ _ "baz");
    vm_compute; reflexivity.
Defined.

(** ** Leading terminals *)

Lemma leading_le (d d' : dict) (name e0 : string) :
  dict_le d d' ->
  (∃ s, tbl d !! name = Some s ∧ e0 ∈ first s) ->
  ∃ s', tbl d' !! name = Some s' ∧ e0 ∈ first s'.
Proof.
  intros Hle (s & Hs & He). destruct (le_some _ _ Hle _ _ Hs) as (s' & Hs' & Hss).
  exists s'. split; [done|]. by apply (le_first _ _ Hss).
Qed.

Lemma init_expansion_leading (h : Header) (name : string) (d d1 : dict)
    (e0 : string) (rest : list string) :
  init_expansion h name d (e0 :: rest) = Return d1 ->
  is_terminal h e0 = true ->
  ∃ s, tbl d1 !! name = Some s ∧ e0 ∈ first s.
Proof.
  intros H Ht. unfold init_expansion in H. rewrite Ht in H.
  apply bind_Return in H as (d2 & H2 & H).
  apply bind_Return in H as (_ & _ & [= <-]).
  apply bind_Return in H2 as (s & Hs & [= <-]).
  eexists. split; [apply lookup_insert_eq|].
  simpl. unfold _union_set_with_values. set_solver.
Qed.

Lemma init_expansions_leading (h : Header) (name : string)
    (l : list (list string)) :
  ∀ d d',
    is_Some (tbl d !! name) ->
    foldM (init_expansion h name) d l = Return d' ->
    ∀ e0 rest, (e0 :: rest) ∈ l -> is_terminal h e0 = true ->
               ∃ s, tbl d' !! name = Some s ∧ e0 ∈ first s.
Proof.
  induction l as [|exp l IH]; intros d d' Hs H e0 rest Hin Ht;
    [by apply elem_of_nil in Hin|].
  simpl in H. apply bind_Return in H as (d1 & H1 & H).
  pose proof (init_expansion_spec h name d exp Hs) as Hsp1.
  rewrite H1 in Hsp1. destruct Hsp1 as [Hle1 _].
  assert (is_Some (tbl d1 !! name)) as Hs1.
  { apply dict_has_true. rewrite (dict_le_has d d1) by done.
    by apply dict_has_true. }
  pose proof (init_expansions_spec h name l d1 Hs1) as Hsp.
  rewrite H in Hsp. destruct Hsp as [Hle _].
  apply elem_of_cons in Hin as [<-|Hin]; [|by eapply IH].
  apply (leading_le d1 d'); [done|]. by eapply init_expansion_leading.
Qed.

Lemma init_symbols_leading (h : Header) (l : list (string * Symbol)) :
  ∀ d d',
    (∀ item, item ∈ l -> is_Some (tbl d !! item.1)) ->
    foldM (init_symbol h) d l = Return d' ->
    ∀ name s e0 rest,
      (name, s) ∈ l -> (e0 :: rest) ∈ expansions s ->
      is_terminal h e0 = true ->
      ∃ s', tbl d' !! name = Some s' ∧ e0 ∈ first s'.
Proof.
  induction l as [|[n0 s0] l IH]; intros d d' Hs H name s e0 rest Hin He Ht;
    [by apply elem_of_nil in Hin|].
  simpl in H. apply bind_Return in H as (d1 & H1 & H).
  unfold init_symbol in H1. simpl in H1.
  destruct (is_terminal h n0); [done|].
  assert (is_Some (tbl d !! n0)) as Hn0 by (apply (Hs (n0, s0)); by left).
  pose proof (init_expansions_spec h n0 (expansions s0) d Hn0) as Hsp1.
  rewrite H1 in Hsp1. destruct Hsp1 as [Hle1 _].
  assert (∀ item, item ∈ l -> is_Some (tbl d1 !! item.1)) as Hs1.
  { intros item Hi. apply dict_has_true. rewrite (dict_le_has d d1) by done.
    apply dict_has_true, Hs. by right. }
  pose proof (init_symbols_spec h l d1 Hs1) as Hsp.
  rewrite H in Hsp. destruct Hsp as [Hle _].
  apply elem_of_cons in Hin as [[= -> ->]|Hin]; [|by eapply IH].
  apply (leading_le d1 d'); [done|]. by eapply init_expansions_leading.
Qed.

Lemma compute_sets_leading (h : Header) (d d' : dict) (name : string)
    (s' : Symbol) (e0 : string) (rest : list string) :
  _compute_sets_for_expansions h d = Return d' ->
  (name, s') ∈ dict_items d' -> (e0 :: rest) ∈ expansions s' ->
  is_terminal h e0 = true -> e0 ∈ first s'.
Proof.
  intros Hc Hi He Ht. pose proof (compute_sets_le _ _ _ Hc) as Hle.
  unfold _compute_sets_for_expansions in Hc.
  apply bind_Return in Hc as (d1 & Hinit & Hw).
  apply while_changed_le in Hw.
  destruct (dict_le_items _ _ _ _ Hle Hi) as (s & Hi0 & Hss).
  rewrite <- (le_expansions _ _ Hss) in He.
  assert (∃ s1, tbl d1 !! name = Some s1 ∧ e0 ∈ first s1) as Hlead.
  { apply (init_symbols_leading h (dict_items d) d d1) with s rest; try done.
    intros [n t] Hn. apply dict_items_lookup in Hn. by eexists. }
  apply (leading_le d1 d' name e0 Hw) in Hlead as (s2 & Hs2 & Hin).
  apply dict_items_lookup in Hi. congruence.
Qed.

(** After the analysis of a grammar text the FIRST sets are closed under
    the two rules of the engine: the terminal an expansion begins with is
    in the FIRST set of its symbol, and when an expansion begins with
    nullable nonterminals followed by a nonterminal, the FIRST set of that
    nonterminal is within the FIRST set of the symbol. *)
Theorem first_sets_closed (buffer : string) (h : Header) (exps : dict)
    (code name : string) (s : Symbol) (pre : list string) (e : string)
    (rest : list string) :
  parse_buffer buffer = Return (h, exps, code) ->
  dict_get exps name = Some s ->
  (pre ++ e :: rest)%list ∈ expansions s ->
  all_nullable h exps pre ->
  (is_terminal h e = true -> pre = [] -> e ∈ first s) ∧
  (is_terminal h e = false ->
   ∃ t, dict_get exps e = Some t ∧ first t ⊆ first s).
Proof.
  intros (hs & es & _ & -> & Hc)%parse_buffer_Return Hs He Hpre.
  unfold dict_get in *.
  pose proof (compute_sets_spec (_process_header hs) (_process_expansions es))
    as Hsp.
  rewrite Hc in Hsp. destruct Hsp as (Hle & _ & _ & Hpass).
  pose proof (dict_wf_le _ _ Hle (process_expansions_wf es)) as Hwf.
  pose proof (dict_wf_items _ _ _ Hwf Hs) as Hi.
  split.
  - intros Ht ->. by apply (compute_sets_leading _ _ _ name s e rest Hc).
  - intros Ht. apply (pass_fold_stable _) in Hpass as [_ Hpass].
    specialize (Hpass (name, (pre ++ e :: rest)%list)
                  (proj2 (each_expansion_elem exps name _)
                     (ex_intro _ s (conj Hi He)))).
    apply stable_scan_first in Hpass as (s' & t & Hs' & Ht' & Hsub); [|done..].
    simpl in Hs'. rewrite Hs in Hs'. injection Hs' as <-. by exists t.
Qed.

Lemma first_sets_closed_witness :
  ∃ h exps code s,
    parse_buffer grammar_example = Return (h, exps, code) ∧
    dict_get exps "main" = Some s ∧
    (["baz"] ++ "bar_prime" :: ["BAZ"])%list ∈ expansions s ∧
    all_nullable h exps ["baz"] ∧
    ∃ t, dict_get exps "bar_prime" = Some t ∧ first t ⊆ first s.
Proof.
  eexists _, _, _, _. split; [vm_compute; reflexivity|].
  split; [vm_compute; reflexivity|]. split; [apply list_elem_of_here|].
  match goal with
  | |- all_nullable ?hh ?ee _ ∧ _ => assert (all_nullable hh ee ["baz"]) as Hn
  end.
  { intros e He. apply list_elem_of_singleton in He as ->.
    split; [vm_compute; reflexivity|].
    eexists. split; vm_compute; reflexivity. }
  split; [exact Hn|].
  eapply (first_sets_closed grammar_example _ _ _ "main" _ ["baz"]
            "bar_prime" ["BAZ"]).
  - vm_compute; reflexivity.
  - vm_compute; reflexivity.
  - apply list_elem_of_here.
  - exact Hn.
  - vm_compute; reflexivity.
Defined.

(** ** Running the analysis twice *)

Lemma obj_write_same (d : dict) (k : string) (s : Symbol) :
  tbl d !! k = Some s -> obj_write d k s = d.
Proof.
  intros Hs. destruct d as [ks m]. unfold obj_write. simpl in *.
  f_equal. by apply insert_id.
Qed.

Lemma add_first_same (s : Symbol) (X : gset string) :
  X ⊆ first s -> add_first s X = s.
Proof.
  intros HX. destruct s as [es n f w]. unfold add_first. simpl in *.
  f_equal. unfold _union_set_with_values. set_solver.
Qed.

Lemma init_expansion_fixed (h : Header) (name : string) (d : dict)
    (exp : list string) (s : Symbol) :
  tbl d !! name = Some s -> tokens_defined h d exp ->
  (∀ e0 rest, exp = e0 :: rest -> is_terminal h e0 = true -> e0 ∈ first s) ->
  init_expansion h name d exp = Return d.
Proof.
  intros Hs Hdef Hlead. unfold init_expansion.
  assert (match exp with
          | [] => Return d
          | e0 :: _ =>
              if is_terminal h e0
              then symbol ← dict_item d name;
                   Return (obj_write d name
                             (add_first symbol (list_to_set (take 1 exp))))
              else Return d
          end = Return d) as ->.
  { destruct exp as [|e0 rest]; [done|].
    destruct (is_terminal h e0) eqn:Ht; [|done].
    rewrite (dict_item_Some _ _ _ Hs). simpl.
    rewrite add_first_same; [by rewrite obj_write_same|].
    specialize (Hlead e0 rest eq_refl Ht). set_solver. }
  simpl. pose proof (check_tokens_spec h d exp) as Hc.
  destruct (check_tokens h d exp) as [[]|e|]; [done| |done].
  destruct Hc as (tok & Hin & Ht & Hd & _).
  destruct (Hdef tok Hin); congruence.
Qed.

Lemma init_expansions_fixed (h : Header) (name : string) (d : dict)
    (s : Symbol) (l : list (list string)) :
  tbl d !! name = Some s ->
  (∀ exp, exp ∈ l -> tokens_defined h d exp) ->
  (∀ e0 rest, (e0 :: rest) ∈ l -> is_terminal h e0 = true -> e0 ∈ first s) ->
  foldM (init_expansion h name) d l = Return d.
Proof.
  intros Hs. induction l as [|exp l IH]; intros Hdef Hlead; [done|].
  simpl. rewrite (init_expansion_fixed h name d exp s); simpl.
  - apply IH.
    + intros e He. apply Hdef. by right.
    + intros e0 rest He. apply (Hlead e0 rest). by right.
  - done.
  - apply Hdef. by left.
  - intros e0 rest ->. apply (Hlead e0 rest). by left.
Qed.

Lemma init_symbols_fixed (h : Header) (d : dict) (l : list (string * Symbol)) :
  (∀ name s, (name, s) ∈ l ->
     is_terminal h name = false ∧ tbl d !! name = Some s ∧
     (∀ exp, exp ∈ expansions s -> tokens_defined h d exp) ∧
     (∀ e0 rest, (e0 :: rest) ∈ expansions s -> is_terminal h e0 = true ->
                 e0 ∈ first s)) ->
  foldM (init_symbol h) d l = Return d.
Proof.
  induction l as [|[name s] l IH]; intros H; [done|].
  destruct (H name s) as (Ht & Hs & Hdef & Hlead); [by left|].
  simpl. unfold init_symbol at 2. simpl. rewrite Ht.
  rewrite (init_expansions_fixed h name d s); [|done..]. simpl.
  apply IH. intros n t Hn. apply H. by right.
Qed.

(** The analysis is idempotent: run on the store it returned, it returns
    that store again. *)
Theorem compute_sets_idempotent (h : Header) (d d' : dict) :
  _compute_sets_for_expansions h d = Return d' ->
  _compute_sets_for_expansions h d' = Return d'.
Proof.
  intros Hc. pose proof (compute_sets_spec h d) as Hsp. rewrite Hc in Hsp.
  destruct Hsp as (Hle & Hcol & Hdef & Hpass).
  unfold _compute_sets_for_expansions at 1.
  assert (_initialise_expansions_state h d' = Return d') as ->.
  { apply init_symbols_fixed. intros name s Hi.
    split; [by apply (no_collision_le h d d' Hle Hcol name s)|].
    split; [by apply dict_items_lookup|]. split.
    - intros exp He. by apply (all_defined_le h d d' Hle Hdef name s).
    - intros e0 rest He Ht. by apply (compute_sets_leading h d d' name s e0 rest). }
  cbn [mbind result_mbind result_bind]. unfold passes_bound.
  cbn [while_changed]. by rewrite Hpass.
Qed.

Lemma compute_sets_idempotent_witness :
  ∃ d', _compute_sets_for_expansions header_example rules_example = Return d' ∧
        _compute_sets_for_expansions header_example d' = Return d'.
Proof.
  eexists. split; [vm_compute; reflexivity|].
  apply (compute_sets_idempotent header_example rules_example).
  vm_compute. reflexivity.
Defined.

(** ** A bound on the number of passes *)

Lemma weight_le (U : gset string) (s : Symbol) : weight U s <= S (size U).
Proof.
  unfold weight. assert (size (U ∖ first s) <= size U)
    by (apply subseteq_size; set_solver).
  destruct (nullable s); lia.
Qed.

Lemma height_le (U : gset string) (m : gmap string Symbol) :
  height U m <= size m * S (size U).
Proof.
  unfold height.
  apply (map_fold_weak_ind (fun r m => r <= size m * S (size U))).
  - by rewrite map_size_empty.
  - intros i x m' r Hi IH. rewrite map_size_insert_None by done.
    pose proof (weight_le U x). lia.
Qed.

(** For a grammar read from a rules text that passes validation, the
    [while] loop stops within [n * (t + 1) + 1] passes, where [n] is the
    number of symbols and [t] the number of terminals of the header. *)
Theorem passes_within_bound (h : Header) (es : string) (d1 : dict) :
  _initialise_expansions_state h (_process_expansions es) = Return d1 ->
  ∀ fuel, (S (size (tbl d1) * S (size (terminals h))) <= fuel)%nat ->
          ∃ d', while_changed fuel h d1 = Return d' ∧
                pass h d' = Return (d', false).
Proof.
  intros Hi fuel Hf.
  pose proof (initialise_spec h (_process_expansions es)) as Hsp.
  rewrite Hi in Hsp. destruct Hsp as (Hle & _ & Hdef).
  assert (bounded (dom (terminals h)) (tbl d1)) as Hb.
  { apply (initialise_bounded h _ (_process_expansions es)); [done| |done].
    apply fresh_bounded, process_expansions_fresh. }
  destruct (while_changed_terminates h (dom (terminals h)) fuel d1 Hb)
    as (d' & Hw & _ & _ & Hfix).
  - apply all_defined_ready. by apply (all_defined_le h (_process_expansions es)).
  - pose proof (height_le (dom (terminals h)) (tbl d1)) as Hh.
    rewrite size_dom in Hh. lia.
  - by exists d'.
Qed.

Lemma passes_within_bound_witness :
  ∃ d1,
    _initialise_expansions_state header_example
      (_process_expansions rules_text_example) = Return d1 ∧
    ∀ fuel, (S (size (tbl d1) * S (size (terminals header_example))) <= fuel)%nat ->
            ∃ d', while_changed fuel header_example d1 = Return d' ∧
                  pass header_example d' = Return (d', false).
Proof.
  eexists. split; [vm_compute; reflexivity|].
  apply (passes_within_bound header_example rules_text_example).
  vm_compute. reflexivity.
Defined.

(** ** The emitter: result slots *)

Lemma count_nodes_acc (h : Header) (exp : list string) :
  ∀ n, foldl (fun n e => if negb (is_terminal h e) then S n else n) n exp
       = n + length (filter (fun e => is_terminal h e = false) exp).
Proof.
  induction exp as [|e exp IH]; intros n; simpl; [lia|].
  rewrite IH, filter_cons. case_decide as E.
  - rewrite E. simpl. lia.
  - destruct (is_terminal h e); [simpl; lia|done].
Qed.

Lemma count_nodes_filter (h : Header) (exp : list string) :
  count_nodes h exp = length (filter (fun e => is_terminal h e = false) exp).
Proof. unfold count_nodes. by rewrite count_nodes_acc. Qed.

Lemma count_nodes_cons (h : Header) (e : string) (exp : list string) :
  count_nodes h (e :: exp)
  = (if is_terminal h e then 0 else 1) + count_nodes h exp.
Proof.
  rewrite !count_nodes_filter, filter_cons. case_decide as E.
  - by rewrite E.
  - by destruct (is_terminal h e).
Qed.

Lemma get_counts_acc (h : Header) (l : list (list string)) :
  ∀ acc,
    let r := foldl (fun node_count expansion =>
                      let n := count_nodes h expansion in
                      if (node_count <? n)%nat then n else node_count) acc l in
    acc <= r ∧ (∀ exp, exp ∈ l -> count_nodes h exp <= r) ∧
    (r = acc ∨ ∃ exp, exp ∈ l ∧ count_nodes h exp = r).
Proof.
  induction l as [|x l IH]; intros acc; simpl.
  - split; [done|]. split; [by intros exp H%elem_of_nil|by left].
  - set (acc' := if (acc <? count_nodes h x)%nat then count_nodes h x else acc).
    destruct (IH acc') as (H1 & H2 & H3).
    assert (acc <= acc' ∧ count_nodes h x <= acc' ∧
            (acc' = acc ∨ acc' = count_nodes h x)) as (Ha & Hx & Hc).
    { subst acc'. destruct (Nat.ltb_spec acc (count_nodes h x)); lia. }
    cbv zeta in H1, H2, H3 |- *. split; [lia|]. split.
    + intros exp [->|He]%elem_of_cons; [lia|by apply H2].
    + destruct H3 as [H3|[y [He H3]]].
      * rewrite H3. destruct Hc as [Hc|Hc]; [by left|].
        right. exists x. split; [by left|done].
      * right. exists y. split; [by right|done].
Qed.

(** [_get_counts] is the largest number of nonterminal tokens in one
    expansion of the symbol: no expansion has more, some expansion has as
    many, and it is zero for a symbol without expansions. *)
Theorem get_counts_is_peak (h : Header) (s : Symbol) :
  (∀ exp, exp ∈ expansions s ->
     length (filter (fun e => is_terminal h e = false) exp) <= _get_counts h s) ∧
  (expansions s = [] -> _get_counts h s = 0) ∧
  (expansions s ≠ [] ->
   ∃ exp, exp ∈ expansions s ∧
          length (filter (fun e => is_terminal h e = false) exp)
          = _get_counts h s).
Proof.
  destruct (get_counts_acc h (expansions s) 0) as (_ & H2 & H3).
  unfold _get_counts. cbv zeta in H2, H3 |- *.
  set (r := foldl _ 0 (expansions s)) in *. split; [|split].
  - intros exp He. rewrite <- count_nodes_filter. by apply H2.
  - intros E. subst r. by rewrite E.
  - intros Hne. destruct H3 as [H0|[y [He Hc]]].
    + destruct (expansions s) as [|x l] eqn:E; [done|]. exists x.
      split; [by left|]. rewrite <- count_nodes_filter.
      specialize (H2 x (list_elem_of_here _ _)). lia.
    + exists y. by rewrite <- count_nodes_filter.
Qed.

Lemma write_tokens_slots (h : Header) (expansion : list string) :
  ∀ (file params : list string) (node : nat),
    ∃ body args,
      foldl (write_token h) (file, params, node) expansion
      = ((file ++ body)%list, (params ++ args)%list,
         node + count_nodes h expansion) ∧
      length body = length expansion ∧ length args = length expansion ∧
      Forall (fun w =>
                (∃ v, w = eat_step v) ∨
                ∃ i sym, node <= i < node + count_nodes h expansion ∧
                         w = call_step ("nodes[" ++ PyStr.of_nat i ++ "]") sym)
             body.
Proof.
  induction expansion as [|sym expansion IH]; intros file params node.
  - exists [], []. rewrite !app_nil_r. unfold count_nodes. simpl.
    by rewrite Nat.add_0_r.
  - rewrite count_nodes_cons. cbn [foldl]. unfold write_token at 2.
    unfold is_terminal. destruct (terminals h !! sym) as [v|] eqn:E.
    + destruct (IH (write file (eat_step v)) (params ++ [v])%list node)
        as (body & args & -> & Hb & Ha & Hall).
      rewrite bool_decide_eq_true_2 by by eexists.
      exists (eat_step v :: body), (v :: args). unfold write.
      rewrite <- !app_assoc. simpl. split; [done|].
      split; [by rewrite Hb|]. split; [by rewrite Ha|].
      constructor; [left; by eexists|done].
    + set (tmp := "nodes[" ++ PyStr.of_nat node ++ "]").
      destruct (IH (write file (call_step tmp sym)) (params ++ [tmp])%list
                  (S node))
        as (body & args & -> & Hb & Ha & Hall).
      rewrite bool_decide_eq_false_2 by (by intros [? ?]).
      exists (call_step tmp sym :: body), (tmp :: args).
      unfold write. rewrite <- !app_assoc. simpl.
      split; [do 2 f_equal; lia|].
      split; [by rewrite Hb|]. split; [by rewrite Ha|]. constructor.
      * right. exists node, sym. split; [lia|done].
      * eapply Forall_impl; [exact Hall|]. simpl.
        intros w [Hw|(i & sy & Hi & ->)]; [by left|right].
        exists i, sy. split; [lia|done].
Qed.

(** The steps written for an expansion of a symbol: one step and one
    argument of the action call per token, and every result slot
    [nodes[i]] that is assigned has [i] below the size [_get_counts] gives
    to the array [nodes] of the function. *)
Theorem node_slots_within_bounds (h : Header) (s : Symbol)
    (exp file : list string) :
  exp ∈ expansions s ->
  ∃ body args n,
    foldl (write_token h) (file, [], 0) exp = ((file ++ body)%list, args, n) ∧
    length body = length exp ∧ length args = length exp ∧
    n <= _get_counts h s ∧
    Forall (fun w =>
              (∃ v, w = eat_step v) ∨
              ∃ i sym, i < _get_counts h s ∧
                       w = call_step ("nodes[" ++ PyStr.of_nat i ++ "]") sym)
           body.
Proof.
  intros He.
  destruct (write_tokens_slots h exp file [] 0) as (body & args & Hf & Hb & Ha & Hall).
  destruct (get_counts_acc h (expansions s) 0) as (_ & Hmax & _).
  change (∀ exp, exp ∈ expansions s -> count_nodes h exp <= _get_counts h s)
    in Hmax.
  specialize (Hmax exp He).
  exists body, args, (count_nodes h exp). split; [done|].
  do 3 (split; [done|]).
  eapply Forall_impl; [exact Hall|]. simpl.
  intros w [Hw|(i & sy & Hi & ->)]; [by left|right].
  exists i, sy. split; [lia|done].
Qed.

Lemma node_slots_within_bounds_witness :
  ∃ s, dict_get rules_example "main" = Some s ∧
  ["baz"; "bar_prime"; "BAZ"] ∈ expansions s ∧
  ∃ body args n,
    foldl (write_token header_example) ([], [], 0) ["baz"; "bar_prime"; "BAZ"]
    = (([] ++ body)%list, args, n) ∧
    length body = 3 ∧ length args = 3 ∧
    n <= _get_counts header_example s ∧
    Forall (fun w =>
              (∃ v, w = eat_step v) ∨
              ∃ i sym, i < _get_counts header_example s ∧
                       w = call_step ("nodes[" ++ PyStr.of_nat i ++ "]") sym)
           body.
Proof.
  eexists. split; [vm_compute; reflexivity|].
  split; [apply list_elem_of_here|].
  apply (node_slots_within_bounds header_example _ ["baz"; "bar_prime"; "BAZ"] []).
  apply list_elem_of_here.
Defined.

(** ** The emitter on an analysed grammar *)

Section emitter_returns.

Variable set_iter : gset string -> list string.
Hypothesis set_iter_sound : ∀ X x, x ∈ set_iter X -> x ∈ X.

Variable h : Header.
Variable exps : dict.
Hypothesis first_are_terminals : bounded (dom (terminals h)) (tbl exps).

Lemma write_body_appends (name : string) (exp file : list string) :
  tokens_defined h exps exp ->
  ∃ out, _write_body_for_expansion set_iter h exps name exp file
         = Return (file ++ out)%list.
Proof.
  intros Hdef. destruct exp as [|e0 rest].
  { exists []. by rewrite app_nil_r. }
  assert (∃ terms,
    (∀ t, t ∈ terms -> is_terminal h t = true) ∧
    (if is_terminal h e0 then Return [e0]
     else symbol ← dict_item exps e0; Return (set_iter (first symbol)))
    = Return terms) as (terms & Hterm & Hterms).
  { destruct (is_terminal h e0) eqn:Ht.
    - exists [e0]. split; [|done]. by intros t ->%list_elem_of_singleton.
    - destruct (Hdef e0) as [|Hd]; [by left|congruence|].
      apply dict_has_true in Hd as [t Ht0]. exists (set_iter (first t)).
      split; [|by rewrite (dict_item_Some _ _ _ Ht0)].
      intros x Hx%set_iter_sound.
      apply is_terminal_true, elem_of_dom.
      by apply (first_are_terminals _ _ Ht0). }
  destruct (terminal_values h terms Hterm) as [vals Hvals].
  destruct (write_tokens_spec h (e0 :: rest)
              (file ++ (case_label <$> vals))%list [] 0%nat)
    as (body & params & node & Hbody & _).
  exists ((case_label <$> vals) ++ body
          ++ [action_call name params; break_step])%list.
  unfold _write_body_for_expansion. rewrite Hterms.
  cbn [mbind result_mbind result_bind].
  rewrite (write_cases_spec h terms vals Hvals).
  cbn [mbind result_mbind result_bind]. rewrite Hbody. unfold write.
  by rewrite <- !app_assoc.
Qed.

Lemma write_bodies_append (name : string) (l : list (list string)) :
  ∀ file,
    (∀ exp, exp ∈ l -> tokens_defined h exps exp) ->
    ∃ out, foldM (fun file expansion =>
                    _write_body_for_expansion set_iter h exps name
                      expansion file) file l
           = Return (file ++ out)%list.
Proof.
  induction l as [|exp l IH]; intros file Hdef.
  - exists []. by rewrite app_nil_r.
  - destruct (write_body_appends name exp file) as [o1 H1];
      [apply Hdef; by left|].
    destruct (IH (file ++ o1)%list) as [o2 H2];
      [intros e He; apply Hdef; by right|].
    exists (o1 ++ o2)%list. simpl. rewrite H1. simpl. rewrite H2.
    by rewrite <- app_assoc.
Qed.

Lemma write_symbol_appends (file : list string) (name : string) (s : Symbol) :
  (∀ exp, exp ∈ expansions s -> tokens_defined h exps exp) ->
  ∃ out, write_symbol set_iter h exps file (name, s)
         = Return (file ++ out)%list.
Proof.
  intros Hdef.
  destruct (write_bodies_append name (expansions s)
              (_write_symbol_function_begin h name s file) Hdef) as [o1 H1].
  exists (_write_symbol_function_begin h name s [] ++ o1
          ++ _write_symbol_function_end h [])%list.
  unfold write_symbol. simpl. rewrite H1. simpl.
  unfold _write_symbol_function_end, _write_symbol_function_begin, write.
  simpl. by rewrite <- !app_assoc.
Qed.

Lemma write_symbols_append (l : list (string * Symbol)) :
  ∀ file,
    (∀ name s exp, (name, s) ∈ l -> exp ∈ expansions s ->
                   tokens_defined h exps exp) ->
    ∃ out, foldM (write_symbol set_iter h exps) file l
           = Return (file ++ out)%list.
Proof.
  induction l as [|[name s] l IH]; intros file Hdef.
  - exists []. by rewrite app_nil_r.
  - destruct (write_symbol_appends file name s) as [o1 H1];
      [intros exp He; apply (Hdef name s); [by left|done]|].
    destruct (IH (file ++ o1)%list) as [o2 H2];
      [intros n t exp Hn; apply (Hdef n t); by right|].
    exists (o1 ++ o2)%list. simpl. rewrite H1. simpl. rewrite H2.
    by rewrite <- app_assoc.
Qed.

End emitter_returns.

Lemma snoc3 {A : Type} (file : list A) (a b c : A) :
  (((file ++ [a]) ++ [b]) ++ [c])%list = (file ++ [a; b; c])%list.
Proof. by rewrite <- !app_assoc. Qed.

Lemma section_header_appends (heading : string) :
  ∃ out, ∀ file, _write_section_header heading file = (file ++ out)%list.
Proof.
  eexists. intros file. unfold _write_section_header, write. apply snoc3.
Qed.

Lemma header_appends (h : Header) :
  ∃ out, ∀ file, _write_header_to_file h file = (file ++ out)%list.
Proof.
  destruct (section_header_appends "global includes") as [o Ho].
  eexists (o ++ [_])%list. intros file.
  unfold _write_header_to_file, write. rewrite Ho.
  symmetry. apply app_assoc.
Qed.

Lemma helpers_appends (h : Header) :
  ∃ out, ∀ file, _write_helpers_to_file h file = (file ++ out)%list.
Proof.
  destruct (section_header_appends "utility methods") as [o Ho].
  eexists (o ++ [_])%list. intros file.
  unfold _write_helpers_to_file, write. rewrite Ho.
  symmetry. apply app_assoc.
Qed.

Lemma user_code_appends (code : string) :
  ∃ out, ∀ file,
    _write_user_code_to_file code file = (file ++ out ++ [code])%list.
Proof.
  destruct (section_header_appends "user code") as [o Ho].
  exists o. intros file. unfold _write_user_code_to_file, write. rewrite Ho.
  symmetry. apply app_assoc.
Qed.

(** For a grammar [parse_buffer] returns, [write_grammar] returns: no
    lookup of the emitter fails.  What was in the file stays, and the last
    string written is the user code, as it is. *)
Theorem write_grammar_returns (set_iter : gset string -> list string)
    (buffer : string) (h : Header) (exps : dict) (code : string)
    (file : list string) :
  (∀ X x, x ∈ set_iter X -> x ∈ X) ->
  parse_buffer buffer = Return (h, exps, code) ->
  ∃ out, write_grammar set_iter h exps code file
         = Return (file ++ out ++ [code])%list.
Proof.
  intros Hiter (hs & es & _ & -> & Hc)%parse_buffer_Return.
  set (h := _process_header hs) in *.
  pose proof (compute_sets_spec h (_process_expansions es)) as Hsp.
  rewrite Hc in Hsp. destruct Hsp as (Hle & _ & Hdef & _).
  apply (all_defined_le h _ exps Hle) in Hdef.
  pose proof (compute_sets_bounded h (dom (terminals h)) _ _ (reflexivity _)
                (fresh_bounded _ _ (process_expansions_fresh es)) Hc) as Hb.
  destruct (header_appends h) as [o1 H1].
  destruct (helpers_appends h) as [o2 H2].
  destruct (section_header_appends "main automaton") as [o3 H3].
  destruct (user_code_appends code) as [o5 H5].
  unfold write_grammar, _write_expansions_to_file. rewrite H1, H2, H3.
  destruct (write_symbols_append set_iter Hiter h exps Hb (dict_items exps)
              (((file ++ o1) ++ o2) ++ o3)%list)
    as [o4 H4]; [intros name s exp; apply Hdef|].
  rewrite H4. cbn [mbind result_mbind result_bind]. rewrite H5.
  exists (o1 ++ o2 ++ o3 ++ o4 ++ o5)%list. f_equal.
  by rewrite <- !app_assoc.
Qed.

Lemma write_grammar_returns_witness :
  ∃ h exps code,
    (∀ (X : gset string) x, x ∈ elements X -> x ∈ X) ∧
    parse_buffer grammar_example = Return (h, exps, code) ∧
    ∃ out, write_grammar elements h exps code []
           = Return ([] ++ out ++ [code])%list.
Proof.
  eexists _, _, _.
  assert (∀ (X : gset string) x, x ∈ elements X -> x ∈ X) as Hel
    by (intros X x; apply elem_of_elements).
  split; [exact Hel|]. split; [vm_compute; reflexivity|].
  apply (write_grammar_returns elements grammar_example).
  - exact Hel.
  - vm_compute. reflexivity.
Defined.

(** ** When [parse_buffer] returns *)

(** [parse_buffer] returns a result exactly when the buffer has three
    sections and the grammar read from them has no name that is both a
    terminal and a name with a production, and no token that is neither. *)
Theorem parse_buffer_returns_iff (buffer : string) :
  (∃ r, parse_buffer buffer = Return r) <->
  ∃ hs es code,
    PyStr.split "%%" buffer = [hs; es; code] ∧
    (∀ name, ¬ name_collides (_process_header hs) (_process_expansions es) name) ∧
    (∀ tok, ¬ token_undefined (_process_header hs) (_process_expansions es) tok).
Proof.
  split.
  - intros [[[h exps] code] (hs & es & Hs & -> & Hc)%parse_buffer_Return].
    exists hs, es, code. split; [done|]. by apply compute_sets_returns in Hc.
  - intros (hs & es & code & Hs & Hcol & Hund).
    rewrite (parse_buffer_three _ _ _ _ Hs).
    destruct (_compute_sets_for_expansions _ _) as [d'|e|] eqn:Hc.
    + by eexists.
    + apply compute_sets_raises in Hc as [(name & Hn & _)|(tok & Ht & _)].
      * by apply Hcol in Hn.
      * by apply Hund in Ht.
    + pose proof (compute_sets_spec (_process_header hs)
                    (_process_expansions es)) as Hsp.
      by rewrite Hc in Hsp.
Qed.

Lemma analysis_sound_witness :
  ∃ h exps code s,
    parse_buffer grammar_example = Return (h, exps, code) ∧
    dict_get exps "main" = Some s ∧
    (∀ t, t ∈ first s -> spec_first h exps "main" t) ∧
    (is_nullable s = true -> derives exps ["main"] []).
Proof.
  eexists _, _, _, _. split; [vm_compute; reflexivity|].
  split; [vm_compute; reflexivity|].
  eapply (analysis_sound grammar_example _ _ _ "main"); vm_compute; reflexivity.
Defined.
